(** * shadow-git-activity: the commit mirror engine of [shadow.js]

    A shallow embedding of the script's functions ([runGit],
    [getCommitsDataFromRepoSource], [getShadowedShas], [getShadowLogLines],
    [getInsertionsDeletionsFromCommit], [writeLinesToShadowLogFile],
    [createShadowCommit], [main]) as state-passing functions over a model of
    the two repositories, followed by the properties of the engine.

    Conventions of the embedding.
    - A JavaScript string is a [string]; its characters stand for the code
      units below 256.
    - Counts and array lengths are [nat].
    - The script's effects live in a [World]: the target repository (its
      commits, its index, the artifact in its working tree) and the console.
      The source repository is only read; it is a function from the command
      line to what git prints.
    - A call can return, throw, or end the process ([Res]).
    - The [--debug] flag only adds console lines and is left out.
    - Of the two variants of the script, the embedding is of the one that
      keeps the shadow log in step with the insertions and deletions; the
      functions in which the older variant differs are in the module [V1].
    - The statements that load and check [config.json] before [main], and
      the handler around it, are [loadConfig], [validateConfig] and
      [script]. *)

From Stdlib Require Import String Ascii List Arith Lia Bool ZArith.
From stdpp Require Import base gmap strings list pretty.

Open Scope string_scope.
Open Scope nat_scope.
Open Scope list_scope.

(** ** JavaScript string and array primitives used by the script *)

Module JS.

(** The characters [String.prototype.trim] removes (WhiteSpace and
    LineTerminator), among the code units below 256: TAB, LF, VT, FF, CR,
    SP and NBSP. *)
Definition isWhiteSpace (c : ascii) : bool :=
  let n := nat_of_ascii c in
  ((9 <=? n) && (n <=? 13)) || (n =? 32) || (n =? 160).

Fixpoint trimStart (s : string) : string :=
  match s with
  | String c s' => if isWhiteSpace c then trimStart s' else s
  | EmptyString => EmptyString
  end.

Fixpoint trimEnd (s : string) : string :=
  match s with
  | EmptyString => EmptyString
  | String c s' =>
      match trimEnd s' with
      | EmptyString => if isWhiteSpace c then EmptyString else String c EmptyString
      | r => String c r
      end
  end.

(** [s.trim()] *)
Definition trim (s : string) : string := trimEnd (trimStart s).

(** [s.split(sep)] for a one-character separator: the pieces between the
    separators, in order; never the empty array. *)
Fixpoint split (sep : ascii) (s : string) : list string :=
  match s with
  | EmptyString => [EmptyString]
  | String c s' =>
      if Ascii.eqb c sep then EmptyString :: split sep s'
      else match split sep s' with
           | piece :: pieces => String c piece :: pieces
           | [] => [String c EmptyString]
           end
  end.

(** [lines.join(sep)] on an array of strings *)
Fixpoint join (sep : string) (l : list string) : string :=
  match l with
  | [] => EmptyString
  | [x] => x
  | x :: rest => x +:+ sep +:+ join sep rest
  end.

(** [a.slice(0, n)] *)
Definition slice0 {A} (a : list A) (n : nat) : list A := take n a.

(** [Array(n).fill(x)] *)
Definition Array_fill {A} (n : nat) (x : A) : list A := replicate n x.

(** A value that may be [undefined], as a template literal prints it. *)
Definition toString (v : option string) : string :=
  match v with
  | Some s => s
  | None => "undefined"
  end.

(** A count, as a template literal prints it. *)
Definition numToString (n : nat) : string := pretty n.

(** [\d] *)
Definition isDigit (c : ascii) : bool :=
  let n := nat_of_ascii c in (48 <=? n) && (n <=? 57).

(** The longest run of digits at the start of [s], and what follows it. *)
Fixpoint spanDigits (s : string) : string * string :=
  match s with
  | String c s' =>
      if isDigit c then let (ds, rest) := spanDigits s' in (String c ds, rest)
      else (EmptyString, s)
  | EmptyString => (EmptyString, EmptyString)
  end.

(** [parseInt(ds, 10)] on a string of digits *)
Definition parseInt (ds : string) : nat :=
  fold_left (fun acc c => 10 * acc + (nat_of_ascii c - 48))
            (list_ascii_of_string ds) 0.

(** A match of [/(\d+) <word>s?\(<sign>\)/] that starts at the first
    character of [s]; the result is the group [(\d+)]. The greedy run of
    digits is the only candidate: a shorter run is followed by a digit,
    not by the space. *)
Definition matchCountHere (word sign s : string) : option string :=
  let (ds, rest) := spanDigits s in
  match ds with
  | EmptyString => None
  | _ =>
      if String.prefix (" " +:+ word +:+ "s(" +:+ sign +:+ ")") rest
         || String.prefix (" " +:+ word +:+ "(" +:+ sign +:+ ")") rest
      then Some ds else None
  end.

(** [s.match(/(\d+) <word>s?\(<sign>\)/)]: the leftmost match, [None]
    for [null]. *)
Fixpoint matchCount (word sign s : string) : option string :=
  match matchCountHere word sign s with
  | Some ds => Some ds
  | None =>
      match s with
      | String _ s' => matchCount word sign s'
      | EmptyString => None
      end
  end.

End JS.

Definition LF : ascii := "010"%char.
Definition SP : ascii := " "%char.
Definition US : ascii := "031"%char.
Definition DQUOTE : ascii := "034"%char.

(** ["\n"] *)
Definition NL : string := String LF EmptyString.

(** ** Configuration ([config.json], validated before the engine runs) *)

Record Config : Type := {
  repoPathSource : string;
  repoPathTarget : string;
  branchName : string;
  commitAuthorEmailsSource : list string;
  commitAuthorNameTarget : string;
  commitAuthorEmailTarget : string;
}.

Definition FILENAME_SHADOW_LOG : string := "shadow-activity.log".

(** ** The git command line and the target repository

    The script hands [git <cmd>] to a shell. A command is kept as its
    words; a word is plain, or has a part the script writes between double
    quotes. [cmdText] is the text the script builds, [argv] the arguments
    git receives when the quoted parts hold nothing the shell interprets. *)

Module Git.

Inductive Word : Type :=
| W (s : string)
| Q (before quoted : string).

Definition Cmd : Type := list Word.

Definition wordText (w : Word) : string :=
  match w with
  | W s => s
  | Q b q => b +:+ String DQUOTE q +:+ String DQUOTE EmptyString
  end.

Definition cmdText (cmd : Cmd) : string := JS.join " " (map wordText cmd).

Definition wordArg (w : Word) : string :=
  match w with
  | W s => s
  | Q b q => b +:+ q
  end.

Definition argv (cmd : Cmd) : list string := map wordArg cmd.

(** The variables [createShadowCommit] sets for [git commit]. A date the
    script left [undefined] is [None]: the variable is not passed on. *)
Record Env : Type := {
  GIT_AUTHOR_NAME : string;
  GIT_AUTHOR_EMAIL : string;
  GIT_AUTHOR_DATE : option string;
  GIT_COMMITTER_NAME : string;
  GIT_COMMITTER_EMAIL : string;
  GIT_COMMITTER_DATE : option string;
}.

(** A commit of the target repository: the subject [%s] prints, who made
    it and when ([None]: git took its own clock), and the content of the
    shadow log in its tree ([None]: the file is not in the tree). *)
Record Commit : Type := {
  subject : string;
  authorName : string;
  authorEmail : string;
  authorDate : option string;
  committerName : string;
  committerEmail : string;
  committerDate : option string;
  artifact : option string;
}.

(** The target repository, as far as the script touches it: the commits
    of the current branch oldest first, the shadow log in the index and
    the shadow log in the working tree. *)
Record Repo : Type := {
  commits : list Commit;
  index : option string;
  worktree : option string;
}.

Definition headArtifact (r : Repo) : option string :=
  match last (commits r) with
  | Some c => artifact c
  | None => None
  end.

Definition commitFrom (msg : string) (e : Env) (content : option string) : Commit :=
  {| subject := msg;
     authorName := GIT_AUTHOR_NAME e;
     authorEmail := GIT_AUTHOR_EMAIL e;
     authorDate := GIT_AUTHOR_DATE e;
     committerName := GIT_COMMITTER_NAME e;
     committerEmail := GIT_COMMITTER_EMAIL e;
     committerDate := GIT_COMMITTER_DATE e;
     artifact := content |}.

(** What git does in the target repository for the three commands the
    script issues there; [None] is a non-zero exit status.
    - [log --pretty=format:%s --reverse]: the subjects, oldest first, one
      per line; fails on a branch without commits.
    - [add shadow-activity.log]: copies the file into the index; fails
      when the file does not exist.
    - [commit -m <msg>] with the six variables: a new commit of the
      index; fails when the index equals the tree of the last commit.
    What [add] and [commit] print is not used by the script. *)
Definition exec (r : Repo) (args : list string) (env : option Env)
  : option string * Repo :=
  match args with
  | [a; b; c] =>
      if bool_decide (a = "log" ∧ b = "--pretty=format:%s" ∧ c = "--reverse") then
        match commits r with
        | [] => (None, r)
        | cs => (Some (JS.join NL (map subject cs)), r)
        end
      else if bool_decide (a = "commit" ∧ b = "-m") then
        match env with
        | Some e =>
            if bool_decide (index r = headArtifact r) then (None, r)
            else (Some EmptyString,
                  {| commits := commits r ++ [commitFrom c e (index r)];
                     index := index r;
                     worktree := worktree r |})
        | None => (None, r)
        end
      else (None, r)
  | [a; b] =>
      if bool_decide (a = "add" ∧ b = FILENAME_SHADOW_LOG) then
        match worktree r with
        | Some content =>
            (Some EmptyString,
             {| commits := commits r; index := Some content; worktree := worktree r |})
        | None => (None, r)
        end
      else (None, r)
  | _ => (None, r)
  end.

End Git.

(** The source repository is only read: what git prints for a command
    line, [None] when it exits with an error. *)
Definition SourceRepo : Type := list string → option string.

(** ** The world of a run *)

Inductive Output : Type :=
| Log (line : string)
| Warn (line : string)
| Error (line : string).

Record World : Type := {
  target : Git.Repo;
  console : list Output;
}.

Definition print (o : Output) (w : World) : World :=
  {| target := target w; console := console w ++ [o] |}.

Definition withTarget (r : Git.Repo) (w : World) : World :=
  {| target := r; console := console w |}.

(** How a call ends: it returns, it throws, or [process.exit] ends the run. *)
Inductive Res (A : Type) : Type :=
| Ok (a : A)
| Throw
| Exit (code : nat).
Arguments Ok {A} a.
Arguments Throw {A}.
Arguments Exit {A} code.

Definition M (A : Type) : Type := World → Res A * World.

Definition ret {A} (a : A) : M A := fun w => (Ok a, w).

Definition bind {A B} (m : M A) (k : A → M B) : M B :=
  fun w =>
    match m w with
    | (Ok a, w') => k a w'
    | (Throw, w') => (Throw, w')
    | (Exit n, w') => (Exit n, w')
    end.

Notation "x <- m ;; k" := (bind m (fun x => k))
  (at level 100, m at next level, right associativity).
Notation "m ;;; k" := (bind m (fun _ => k))
  (at level 100, right associativity).

Definition console_log (s : string) : M unit := fun w => (Ok tt, print (Log s) w).
Definition console_warn (s : string) : M unit := fun w => (Ok tt, print (Warn s) w).
Definition console_error (s : string) : M unit := fun w => (Ok tt, print (Error s) w).
Definition process_exit {A} (code : nat) : M A := fun w => (Exit code, w).
Definition throw {A} : M A := fun w => (Throw, w).

(** ** The script *)

(** One entry of the source history as the script holds it. The e-mail and
    the date are [undefined] ([None]) when the log line has fewer fields. *)
Record CommitData : Type := {
  commitShaSource : string;
  commitAuthorEmailSource : option string;
  commitAuthorDateSource : option string;
}.

Inductive Dir : Type := SourceDir | TargetDir.

Section Script.

Variable config : Config.
Variable dryRun : bool.
Variable source : SourceRepo.

Definition dirPath (cwd : Dir) : string :=
  match cwd with
  | SourceDir => repoPathSource config
  | TargetDir => repoPathTarget config
  end.

(** [runGit(cwd, cmd, env)]: the trimmed output of the command; a failing
    command is reported on the console and thrown on. *)
Definition runGit (cwd : Dir) (cmd : Git.Cmd) (env : option Git.Env) : M string :=
  fun w =>
    let (out, w') :=
      match cwd with
      | SourceDir => (source (Git.argv cmd), w)
      | TargetDir =>
          let (o, r) := Git.exec (target w) (Git.argv cmd) env in
          (o, withTarget r w)
      end in
    match out with
    | Some gitOutput => ret (JS.trim gitOutput) w'
    | None =>
        (console_error ("Git command failed: git " +:+ Git.cmdText cmd
                        +:+ " on path " +:+ dirPath cwd) ;;;
         throw) w'
    end.

Definition unitSeparatorGit : string := "%x1f".
Definition unitSeparatorString : ascii := US.

Definition parseLogLine (logLine : string) : CommitData :=
  match JS.split unitSeparatorString logLine with
  | sha :: fields =>
      {| commitShaSource := sha;
         commitAuthorEmailSource := fields !! 0;
         commitAuthorDateSource := fields !! 1 |}
  | [] =>
      (* not reached: [JS.split] never returns the empty array *)
      {| commitShaSource := EmptyString;
         commitAuthorEmailSource := None;
         commitAuthorDateSource := None |}
  end.

Definition logSourceCmd : Git.Cmd :=
  let prettyFormat := JS.join unitSeparatorGit ["%h"; "%ae"; "%aI"] in
  [Git.W "log"; Git.W (branchName config); Git.W "--reverse";
   Git.Q "--pretty=format:" prettyFormat].

Definition getCommitsDataFromRepoSource : M (list CommitData) :=
  commitLog <- runGit SourceDir logSourceCmd None ;;
  let logLines := JS.split LF (JS.trim commitLog) in
  ret (map parseLogLine logLines).

(** The first piece of [commitMessage.split(" ")]. *)
Definition firstPart (commitMessage : string) : string :=
  match JS.split SP commitMessage with
  | part :: _ => part
  | [] => EmptyString (* not reached: the array of pieces is never empty *)
  end.

Definition logTargetCmd : Git.Cmd :=
  [Git.W "log"; Git.Q "--pretty=format:" "%s"; Git.W "--reverse"].

Definition getShadowedShas : M (list string) :=
  commitLog <- runGit TargetDir logTargetCmd None ;;
  let commitMessages := JS.split LF commitLog in
  ret (map firstPart commitMessages).

Definition getShadowLogLines : M (list string) :=
  fun w =>
    match Git.worktree (target w) with
    | None => (Ok [], w)
    | Some shadowLog => (Ok (JS.split LF shadowLog), w)
    end.

Definition showCmd (commitShaSource : string) : Git.Cmd :=
  [Git.W "show"; Git.W "--shortstat"; Git.W "--oneline";
   Git.W commitShaSource; Git.W "--"].

Definition countOf (m : option string) : nat :=
  match m with
  | Some ds => JS.parseInt ds
  | None => 0
  end.

Definition getInsertionsDeletionsFromCommit (commitShaSource : string)
  : M (nat * nat) :=
  diffStat <- runGit SourceDir (showCmd commitShaSource) None ;;
  let insertionsMatch := JS.matchCount "insertion" "+" diffStat in
  let commitInsertions := countOf insertionsMatch in
  let deletionsMatch := JS.matchCount "deletion" "-" diffStat in
  let commitDeletions := countOf deletionsMatch in
  ret (commitInsertions, commitDeletions).

Definition writeFileSync (content : string) : M unit :=
  fun w =>
    (Ok tt,
     withTarget {| Git.commits := Git.commits (target w);
                   Git.index := Git.index (target w);
                   Git.worktree := Some content |} w).

Definition writeLinesToShadowLogFile (lines : list string) : M unit :=
  writeFileSync (JS.join NL lines).

Definition commitEnv (commitAuthorDateSource : option string) : Git.Env :=
  {| Git.GIT_AUTHOR_NAME := commitAuthorNameTarget config;
     Git.GIT_AUTHOR_EMAIL := commitAuthorEmailTarget config;
     Git.GIT_AUTHOR_DATE := commitAuthorDateSource;
     Git.GIT_COMMITTER_NAME := commitAuthorNameTarget config;
     Git.GIT_COMMITTER_EMAIL := commitAuthorEmailTarget config;
     Git.GIT_COMMITTER_DATE := commitAuthorDateSource |}.

Definition createShadowCommit (shadowLogLines : list string)
    (commitMessage : string) (commitAuthorDateSource : option string) : M unit :=
  writeLinesToShadowLogFile shadowLogLines ;;;
  runGit TargetDir [Git.W "add"; Git.W FILENAME_SHADOW_LOG] None ;;;
  runGit TargetDir [Git.W "commit"; Git.W "-m"; Git.Q EmptyString commitMessage]
         (Some (commitEnv commitAuthorDateSource)) ;;;
  ret tt.

(** The commit message of the mirrored commit, as [main] formats it. *)
Definition formatMessage (c : CommitData) (commitInsertions commitDeletions : nat)
  : string :=
  commitShaSource c +:+ " " +:+ JS.toString (commitAuthorDateSource c)
    +:+ " +" +:+ JS.numToString commitInsertions
    +:+ " -" +:+ JS.numToString commitDeletions
    +:+ " " +:+ JS.toString (commitAuthorEmailSource c).

(** The shadow log after the deletions and insertions of one commit. *)
Definition adjustShadowLogLines (shadowLogLines : list string)
    (commitShaSource : string) (commitInsertions commitDeletions : nat)
  : list string :=
  let shadowLogLinesToDelete := Nat.min commitDeletions (length shadowLogLines) in
  let kept := JS.slice0 shadowLogLines (length shadowLogLines - shadowLogLinesToDelete) in
  let newLinesToPush := JS.Array_fill commitInsertions commitShaSource in
  kept ++ newLinesToPush.

(** The [for ... of] loop of [main]; it returns the shadow log it ends
    with. *)
Fixpoint processCommits (shadowedShas : gset string)
    (commits : list CommitData) (shadowLogLines : list string)
  : M (list string) :=
  match commits with
  | [] => ret shadowLogLines
  | c :: rest =>
      let commitShaSource := commitShaSource c in
      if bool_decide (commitShaSource ∈ shadowedShas) then
        console_warn ("Skipping already shadowed commit: " +:+ commitShaSource) ;;;
        console_log EmptyString ;;;
        processCommits shadowedShas rest shadowLogLines
      else
        stat <- getInsertionsDeletionsFromCommit commitShaSource ;;
        let (commitInsertions, commitDeletions) := stat : nat * nat in
        if (commitInsertions =? 0) && (commitDeletions =? 0) then
          console_log ("Skipping zero-diff commit: " +:+ commitShaSource) ;;;
          processCommits shadowedShas rest shadowLogLines
        else
          let shadowLogLines :=
            adjustShadowLogLines shadowLogLines commitShaSource
                                 commitInsertions commitDeletions in
          let commitMessage := formatMessage c commitInsertions commitDeletions in
          (if dryRun then
             console_warn ("[dry-run] Created shadow commit: " +:+ commitMessage)
           else
             createShadowCommit shadowLogLines commitMessage
                                (commitAuthorDateSource c) ;;;
             console_log ("Created shadow commit: " +:+ commitMessage)) ;;;
          processCommits shadowedShas rest shadowLogLines
  end.

(** [config.commitAuthorEmailsSource.includes(commitAuthorEmailSource)] *)
Definition includesEmail (commitAuthorEmailSource : option string) : bool :=
  match commitAuthorEmailSource with
  | Some email => bool_decide (email ∈ commitAuthorEmailsSource config)
  | None => false
  end.

Definition filterCommits (commitsDataFromRepoSource : list CommitData)
  : list CommitData :=
  List.filter (fun c => includesEmail (commitAuthorEmailSource c))
              commitsDataFromRepoSource.

Definition main : M unit :=
  console_log "Starting shadow-git-activity..." ;;;
  console_log EmptyString ;;;
  commitsDataFromRepoSource <- getCommitsDataFromRepoSource ;;
  if length commitsDataFromRepoSource =? 0 then
    console_warn "No Commits data found in repo source." ;;;
    process_exit 1
  else
    let filteredCommitsDataFromRepoSource := filterCommits commitsDataFromRepoSource in
    if length filteredCommitsDataFromRepoSource =? 0 then
      console_warn ("No commit authors matched config.commitAuthorEmailsSource: "
                    +:+ JS.join ", " (commitAuthorEmailsSource config)) ;;;
      process_exit 1
    else
      shas <- getShadowedShas ;;
      let shadowedShas : gset string := list_to_set shas in
      shadowLogLines <- getShadowLogLines ;;
      processCommits shadowedShas filteredCommitsDataFromRepoSource shadowLogLines ;;;
      console_log EmptyString ;;;
      console_log "All commits processed." ;;;
      console_log EmptyString ;;;
      ret tt.

End Script.

(** ** A source repository with a history

    A concrete [SourceRepo]: git's answers to [log] and [show] over a list
    of commits. It follows the documented behaviour of the options the
    script passes or could pass: [--reverse] lists oldest first,
    [--no-merges] leaves out the commits with more than one parent,
    [--pretty=format:] prints [%h], [%ae], [%aI] and [%x1f] per commit with
    a line feed between the entries, and [show --shortstat --oneline] prints
    the short hash and subject, then the summary of the changed lines. *)

Module History.

Record Commit : Type := {
  sha : string;
  parents : list string;
  authorEmail : string;
  authorDate : string;
  subject : string;
  insertions : nat;
  deletions : nat;
}.

(** [branch]: the one branch the model knows; [commits]: what
    [git log <branch>] walks, newest first. *)
Record Repo : Type := {
  branch : string;
  commits : list Commit;
}.

Definition isMerge (c : Commit) : bool := 2 <=? length (parents c).

Fixpoint expand (c : Commit) (fmt : string) : string :=
  match fmt with
  | String "%" (String "h" r) => sha c +:+ expand c r
  | String "%" (String "a" (String "e" r)) => authorEmail c +:+ expand c r
  | String "%" (String "a" (String "I" r)) => authorDate c +:+ expand c r
  | String "%" (String "x" (String "1" (String "f" r))) => String US (expand c r)
  | String ch r => String ch (expand c r)
  | EmptyString => EmptyString
  end.

Definition formatPrefix : string := "--pretty=format:".

Fixpoint formatOf (opts : list string) : option string :=
  match opts with
  | o :: rest =>
      if String.prefix formatPrefix o
      then Some (String.substring (String.length formatPrefix)
                                  (String.length o - String.length formatPrefix) o)
      else formatOf rest
  | [] => None
  end.

Definition log (r : Repo) (opts : list string) : option string :=
  match formatOf opts with
  | Some fmt =>
      let walked := commits r in
      let kept :=
        if bool_decide ("--no-merges" ∈ opts)
        then List.filter (fun c => negb (isMerge c)) walked else walked in
      let ordered := if bool_decide ("--reverse" ∈ opts) then rev kept else kept in
      Some (JS.join NL (map (fun c => expand c fmt) ordered))
  | None => None
  end.

Definition plural (n : nat) (word : string) : string :=
  pretty n +:+ " " +:+ word +:+ (if n =? 1 then EmptyString else "s").

Definition shortstat (c : Commit) : string :=
  match insertions c, deletions c with
  | 0, 0 => EmptyString
  | i, 0 => NL +:+ " 1 file changed, " +:+ plural i "insertion" +:+ "(+)"
  | 0, d => NL +:+ " 1 file changed, " +:+ plural d "deletion" +:+ "(-)"
  | i, d => NL +:+ " 1 file changed, " +:+ plural i "insertion" +:+ "(+), "
               +:+ plural d "deletion" +:+ "(-)"
  end.

Definition show (r : Repo) (rev : string) : option string :=
  match List.find (fun c => bool_decide (sha c = rev)) (commits r) with
  | Some c => Some (sha c +:+ " " +:+ subject c +:+ shortstat c)
  | None => None
  end.

Definition exec (r : Repo) : SourceRepo :=
  fun args =>
    match args with
    | cmd :: rev :: opts =>
        if bool_decide (cmd = "log") then
          if bool_decide (rev = branch r) then log r opts else None
        else if bool_decide (args = ["show"; "--shortstat"; "--oneline";
                                     nth 3 args EmptyString; "--"])
        then show r (nth 3 args EmptyString)
        else None
    | _ => None
    end.

End History.
(** ** Predicates on strings used in the statements *)

Fixpoint hasChar (c : ascii) (s : string) : bool :=
  match s with
  | EmptyString => false
  | String x s' => Ascii.eqb x c || hasChar c s'
  end.

(** Every character of [s] is white space. *)
Fixpoint allWs (s : string) : bool :=
  match s with
  | EmptyString => true
  | String c s' => JS.isWhiteSpace c && allWs s'
  end.

(** No character of [s] is white space. *)
Fixpoint noWs (s : string) : bool :=
  match s with
  | EmptyString => true
  | String c s' => negb (JS.isWhiteSpace c) && noWs s'
  end.

(** A short id as git prints it: not empty, no white space in it. *)
Definition isShortId (t : string) : bool :=
  negb (String.eqb t EmptyString) && noWs t.

(** The first pieces of the lines of a log, as [getShadowedShas] maps them. *)
Definition firstParts (commitLog : string) : list string :=
  map firstPart (JS.split LF commitLog).

(** The substring of a message that precedes its first space; the whole
    message when it has no space. *)
Fixpoint upToSpace (m : string) : string :=
  match m with
  | EmptyString => EmptyString
  | String c m' => if Ascii.eqb c SP then EmptyString else String c (upToSpace m')
  end.

(** No line of the text ends in white space. *)
Definition cleanLines (s : string) : Prop :=
  Forall (fun l => JS.trimEnd l = l) (JS.split LF s).


Fixpoint lfs (k : nat) : string :=
  match k with
  | 0 => EmptyString
  | S k' => String LF (lfs k')
  end.


(** ** Pure views of what a run reads *)

Section Views.

Variable config : Config.
Variable source : SourceRepo.

(** What [getInsertionsDeletionsFromCommit] returns for a short id;
    [None] when git fails on it. *)
Definition diffStatOf (commitShaSource : string) : option (nat * nat) :=
  match source (Git.argv (showCmd commitShaSource)) with
  | Some out =>
      let diffStat := JS.trim out in
      Some (countOf (JS.matchCount "insertion" "+" diffStat),
            countOf (JS.matchCount "deletion" "-" diffStat))
  | None => None
  end.

(** What [getCommitsDataFromRepoSource] returns. *)
Definition sourceCommits : option (list CommitData) :=
  match source (Git.argv (logSourceCmd config)) with
  | Some out => Some (map parseLogLine (JS.split LF (JS.trim (JS.trim out))))
  | None => None
  end.

(** The ledger [main] builds from the log of a target repository. *)
Definition ledgerOf (r : Git.Repo) : gset string :=
  list_to_set (firstParts (JS.trim (JS.join NL (map Git.subject (Git.commits r))))).

(** The shadow log [main] loads from a target repository. *)
Definition loadedLines (r : Git.Repo) : list string :=
  match Git.worktree r with
  | None => []
  | Some shadowLog => JS.split LF shadowLog
  end.

(** What the loop does with one commit. *)
Inductive Verdict : Type :=
| InLedger
| ZeroDiff
| Mirror (commitInsertions commitDeletions : nat)
| Unreadable.

Definition verdict (shadowedShas : gset string) (c : CommitData) : Verdict :=
  if bool_decide (commitShaSource c ∈ shadowedShas) then InLedger
  else match diffStatOf (commitShaSource c) with
       | None => Unreadable
       | Some (i, d) => if (i =? 0) && (d =? 0) then ZeroDiff else Mirror i d
       end.


(** The commits the loop neither skips nor fails on, with their
    magnitudes, in order. *)
Fixpoint plan (shadowedShas : gset string) (commits : list CommitData)
  : list (CommitData * nat * nat) :=
  match commits with
  | [] => []
  | c :: rest =>
      match verdict shadowedShas c with
      | Mirror i d => (c, i, d) :: plan shadowedShas rest
      | _ => plan shadowedShas rest
      end
  end.

(** The shadow log after the planned commits. *)
Fixpoint finalLines (p : list (CommitData * nat * nat)) (lines : list string)
  : list string :=
  match p with
  | [] => lines
  | (c, i, d) :: rest =>
      finalLines rest (adjustShadowLogLines lines (commitShaSource c) i d)
  end.

(** The commit [createShadowCommit] asks git for. *)
Definition shadowCommit (c : CommitData) (i d : nat) (lines : list string)
  : Git.Commit :=
  Git.commitFrom (formatMessage c i d)
                 (commitEnv config (commitAuthorDateSource c))
                 (Some (JS.join NL lines)).

(** The commits of the planned commits, the shadow log threaded through. *)
Fixpoint shadowCommits (p : list (CommitData * nat * nat)) (lines : list string)
  : list Git.Commit :=
  match p with
  | [] => []
  | (c, i, d) :: rest =>
      let lines' := adjustShadowLogLines lines (commitShaSource c) i d in
      shadowCommit c i d lines' :: shadowCommits rest lines'
  end.

(** The target repository after [writeLinesToShadowLogFile] and [git add]. *)
Definition staged (content : string) (r : Git.Repo) : Git.Repo :=
  {| Git.commits := Git.commits r;
     Git.index := Some content;
     Git.worktree := Some content |}.

(** The target repository after the commit of the staged shadow log. *)
Definition committed (tc : Git.Commit) (content : string) (r : Git.Repo) : Git.Repo :=
  {| Git.commits := Git.commits r ++ [tc];
     Git.index := Some content;
     Git.worktree := Some content |}.

Definition commitFailed (commitMessage : string) : Output :=
  Error ("Git command failed: git "
         +:+ Git.cmdText [Git.W "commit"; Git.W "-m"; Git.Q EmptyString commitMessage]
         +:+ " on path " +:+ repoPathTarget config).

Definition skippedShadowed (c : CommitData) (w : World) : World :=
  print (Log EmptyString)
        (print (Warn ("Skipping already shadowed commit: " +:+ commitShaSource c)) w).

Definition skippedZeroDiff (c : CommitData) (w : World) : World :=
  print (Log ("Skipping zero-diff commit: " +:+ commitShaSource c)) w.

Definition dryRunLine (msg : string) : Output :=
  Warn ("[dry-run] Created shadow commit: " +:+ msg).

Definition started (w : World) : World :=
  withTarget (target w)
    (print (Log EmptyString) (print (Log "Starting shadow-git-activity...") w)).

Definition finished (w : World) : World :=
  print (Log EmptyString)
    (print (Log "All commits processed.") (print (Log EmptyString) w)).



End Views.


(** ** Concrete repositories used in the examples *)

Module Scenario.

Definition alice : string := "alice@x".

Definition config : Config :=
  {| repoPathSource := "/work/source";
     repoPathTarget := "/work/target";
     branchName := "main";
     commitAuthorEmailsSource := [alice];
     commitAuthorNameTarget := "Public Name";
     commitAuthorEmailTarget := "public@example.net" |}.

Definition commit (sha : string) (parents : list string) (email date : string)
    (i d : nat) : History.Commit :=
  {| History.sha := sha; History.parents := parents;
     History.authorEmail := email; History.authorDate := date;
     History.subject := "work"; History.insertions := i;
     History.deletions := d |}.

Definition h1 := commit "a1b2c3d" [] alice "2024-09-30T19:40:22-07:00" 15 3.
Definition h2 := commit "b2c3d4e" ["a1b2c3d"] "bob@x" "2024-10-01T08:00:00-07:00" 3 1.
Definition h3 := commit "c3d4e5f" ["b2c3d4e"] alice "2024-10-02T09:30:00-07:00" 0 0.
Definition h4 := commit "d4e5f6a" ["c3d4e5f"] alice "2024-10-03T10:00:00-07:00" 4 5.

(** The entry of the source history the script holds for a commit. *)
Definition parsed (c : History.Commit) : CommitData :=
  {| commitShaSource := History.sha c;
     commitAuthorEmailSource := Some (History.authorEmail c);
     commitAuthorDateSource := Some (History.authorDate c) |}.

(** A linear history of four commits, newest first. *)
Definition linear : History.Repo :=
  {| History.branch := "main"; History.commits := [h4; h3; h2; h1] |}.

(** A history with a merge: after [h1] the side commit [s1] and the
    commit [t1] on the branch, joined by the merge commit [m1]. *)
Definition s1 := commit "e5f6a7b" ["a1b2c3d"] alice "2024-10-01T12:00:00-07:00" 2 0.
Definition t1 := commit "0a1b2c3" ["a1b2c3d"] alice "2024-10-02T08:15:00-07:00" 1 1.
Definition m1 :=
  commit "f6a7b8c" ["0a1b2c3"; "e5f6a7b"] alice "2024-10-04T11:00:00-07:00" 2 0.
Definition merged : History.Repo :=
  {| History.branch := "main"; History.commits := [m1; t1; s1; h1] |}.


Definition foreign (subject : string) : Git.Commit :=
  {| Git.subject := subject;
     Git.authorName := "Someone"; Git.authorEmail := "someone@example.org";
     Git.authorDate := None;
     Git.committerName := "Someone"; Git.committerEmail := "someone@example.org";
     Git.committerDate := None;
     Git.artifact := None |}.

Definition worldOf (commits : list Git.Commit) : World :=
  {| target := {| Git.commits := commits; Git.index := None; Git.worktree := None |};
     console := [] |}.

(** A target repository with one commit of its own and no shadow log. *)
Definition fresh : World := worldOf [foreign "Initial commit"].

(** A target repository whose only commit has a subject that starts with
    a space. *)
Definition indented : World := worldOf [foreign " abc def"].

(** The world after a normal run over the linear history. *)
Definition afterFirstRun : World :=
  snd (main config false (History.exec linear) fresh).


(** The world after a preview over the linear history. *)
Definition afterPreview : World :=
  snd (main config true (History.exec linear) fresh).


End Scenario.

(** ** The configuration file and its validation

    The statements the script runs before [main]: it reads [config.json],
    parses it and checks the six settings; a setting that fails its check
    is reported on the console and ends the process with status 1. *)

Module JSON.

(** What [JSON.parse] returns. A number stands as the text a template
    literal prints for it. *)
#[warnings="-register-all"]
Inductive Value : Type :=
| Null
| Boolean (b : bool)
| Number (text : string)
| Str (s : string)
| Array (items : list Value)
| Object (fields : gmap string Value).

(** [String(v)], as a template literal and [Array.prototype.join] use it. *)
Fixpoint toString (v : Value) : string :=
  match v with
  | Null => "null"
  | Boolean b => if b then "true" else "false"
  | Number text => text
  | Str s => s
  | Array items =>
      JS.join "," (map (fun x => match x with
                                 | Null => EmptyString
                                 | _ => toString x
                                 end) items)
  | Object _ => "[object Object]"
  end.

End JSON.

(** The regular expressions the script needs: a sequence of items
    between [^] and [$]; an item is one character or a character class,
    once or with [+]. *)
Module RegExp.

Inductive Atom : Type :=
| Char (c : ascii)
| NoneOf (excluded : ascii → bool).

Inductive Item : Type :=
| One (a : Atom)
| OneOrMore (a : Atom).

Definition atomMatches (a : Atom) (c : ascii) : bool :=
  match a with
  | Char x => Ascii.eqb c x
  | NoneOf excluded => negb (excluded c)
  end.

(** [a+] followed by what [k] accepts: the longest run first. *)
Fixpoint oneOrMore (a : Atom) (k : string → bool) (s : string) : bool :=
  match s with
  | String c s' => atomMatches a c && (oneOrMore a k s' || k s')
  | EmptyString => false
  end.

(** [/^items$/.test(s)] *)
Fixpoint test (items : list Item) (s : string) : bool :=
  match items with
  | [] => match s with EmptyString => true | String _ _ => false end
  | One a :: rest =>
      match s with
      | String c s' => atomMatches a c && test rest s'
      | EmptyString => false
      end
  | OneOrMore a :: rest => oneOrMore a (test rest) s
  end.

End RegExp.

(** [[^\s@]] *)
Definition notSpaceNorAt : RegExp.Atom :=
  RegExp.NoneOf (fun c => JS.isWhiteSpace c || Ascii.eqb c "@").

(** [/^[^\s@]+@[^\s@]+\.[^\s@]+$/] *)
Definition emailRegExp : list RegExp.Item :=
  [RegExp.OneOrMore notSpaceNorAt; RegExp.One (RegExp.Char "@");
   RegExp.OneOrMore notSpaceNorAt; RegExp.One (RegExp.Char ".");
   RegExp.OneOrMore notSpaceNorAt].

(** [config.json]: missing, or what [JSON.parse] makes of its text
    ([None]: the text is not JSON and [JSON.parse] throws). *)
Inductive ConfigFile : Type :=
| Missing
| Present (parsed : option JSON.Value).

Definition loadConfig (file : ConfigFile) : M JSON.Value :=
  match file with
  | Missing => console_error "Missing config.json file" ;;; process_exit 1
  | Present None => throw
  | Present (Some config) => ret config
  end.

(** [config.key]: the property of an object, [undefined] ([None]) when
    the object has no such key or the value is no object; reading a
    property of [null] throws. *)
Definition property (config : JSON.Value) (key : string) : M (option JSON.Value) :=
  match config with
  | JSON.Object fields => ret (fields !! key)
  | JSON.Null => throw
  | _ => ret None
  end.

(** A value in a template literal. *)
Definition template (v : option JSON.Value) : string :=
  match v with
  | Some x => JSON.toString x
  | None => "undefined"
  end.

Definition quoted (s : string) : string :=
  String DQUOTE s +:+ String DQUOTE EmptyString.

(** [v] is a string and [v.trim()] is not the empty string. *)
Definition isFilledString (v : option JSON.Value) : bool :=
  match v with
  | Some (JSON.Str s) => negb (String.eqb (JS.trim s) EmptyString)
  | _ => false
  end.

(** [if (failed) { console.error(message); process.exit(1); }] *)
Definition rejectWhen (failed : bool) (message : string) : M unit :=
  if failed then console_error message ;;; process_exit 1 else ret tt.

(** The settings as the rest of the script reads them. *)
Definition settings (r s b e n m : option JSON.Value) : Config :=
  {| repoPathSource := template r;
     repoPathTarget := template s;
     branchName := template b;
     commitAuthorEmailsSource :=
       match e with
       | Some (JSON.Array items) => map JSON.toString items
       | _ => []
       end;
     commitAuthorNameTarget := template n;
     commitAuthorEmailTarget := template m |}.

Section Validation.

(** The file system: the paths that exist and are directories. *)
Variable directory : string → bool.

(** [fs.existsSync(path) && fs.lstatSync(path).isDirectory()];
    [existsSync] is false for a value that is no path. *)
Definition isDirectory (path : option JSON.Value) : bool :=
  match path with
  | Some (JSON.Str p) => directory p
  | _ => false
  end.

Definition validateConfig (config : JSON.Value) : M Config :=
  repoPathSource <- property config "repoPathSource" ;;
  rejectWhen (negb (isDirectory repoPathSource))
    ("Config 'repoPathSource' is missing or not a directory: "
     +:+ quoted (template repoPathSource)) ;;;
  repoPathTarget <- property config "repoPathTarget" ;;
  rejectWhen (negb (isDirectory repoPathTarget))
    ("Config 'repoPathTarget' is missing or not a directory: "
     +:+ quoted (template repoPathTarget)) ;;;
  branchName <- property config "branchName" ;;
  rejectWhen (negb (isFilledString branchName))
    ("Config 'branchName' is invalid or missing: "
     +:+ quoted (template branchName)) ;;;
  commitAuthorEmailsSource <- property config "commitAuthorEmailsSource" ;;
  rejectWhen (match commitAuthorEmailsSource with
              | Some (JSON.Array items) => length items =? 0
              | _ => true
              end)
    "Config 'commitAuthorEmailsSource' must be a non-empty array." ;;;
  rejectWhen (match commitAuthorEmailsSource with
              | Some (JSON.Array items) =>
                  negb (forallb (fun email => isFilledString (Some email)) items)
              | _ => true (* not reached: the value is an array here *)
              end)
    "Config 'commitAuthorEmailsSource' values must be strings." ;;;
  commitAuthorNameTarget <- property config "commitAuthorNameTarget" ;;
  rejectWhen (negb (isFilledString commitAuthorNameTarget))
    ("Config 'commitAuthorNameTarget' is invalid or missing: "
     +:+ quoted (template commitAuthorNameTarget)) ;;;
  commitAuthorEmailTarget <- property config "commitAuthorEmailTarget" ;;
  rejectWhen (match commitAuthorEmailTarget with
              | Some (JSON.Str s) => negb (RegExp.test emailRegExp s)
              | _ => true
              end)
    ("Config 'commitAuthorEmailTarget' is invalid or missing: "
     +:+ quoted (template commitAuthorEmailTarget)) ;;;
  ret (settings repoPathSource repoPathTarget branchName commitAuthorEmailsSource
                commitAuthorNameTarget commitAuthorEmailTarget).

(** [main().catch(e => { console.error("Error during processing:", e);
    process.exit(1); })]; the text of the error that follows on the
    console line is left out. *)
Definition catch {A} (m handler : M A) : M A :=
  fun w =>
    match m w with
    | (Throw, w') => handler w'
    | other => other
    end.

(** The script from its first statement to its last. *)
Definition script (file : ConfigFile) (dryRun : bool) (source : SourceRepo) : M unit :=
  config <- loadConfig file ;;
  settings <- validateConfig config ;;
  catch (main settings dryRun source)
        (console_error "Error during processing:" ;;; process_exit 1).

End Validation.

(** The exit status of the process: 0 when the script runs to its end, 1
    for an exception nobody catches, the argument of [process.exit]
    otherwise. *)
Definition exitStatus {A} (r : Res A) : nat :=
  match r with
  | Ok _ => 0
  | Throw => 1
  | Exit code => code
  end.

(** ** Pure views of the validation *)

Section ValidationViews.

Variable directory : string → bool.

(** The seven checks on the properties of a configuration object, in the
    order of the script: whether the check fails, and the line it prints. *)
Definition checks (fields : gmap string JSON.Value) : list (bool * string) :=
  let emails := fields !! "commitAuthorEmailsSource" in
  [(negb (isDirectory directory (fields !! "repoPathSource")),
    "Config 'repoPathSource' is missing or not a directory: "
    +:+ quoted (template (fields !! "repoPathSource")));
   (negb (isDirectory directory (fields !! "repoPathTarget")),
    "Config 'repoPathTarget' is missing or not a directory: "
    +:+ quoted (template (fields !! "repoPathTarget")));
   (negb (isFilledString (fields !! "branchName")),
    "Config 'branchName' is invalid or missing: "
    +:+ quoted (template (fields !! "branchName")));
   (match emails with
    | Some (JSON.Array items) => length items =? 0
    | _ => true
    end,
    "Config 'commitAuthorEmailsSource' must be a non-empty array.");
   (match emails with
    | Some (JSON.Array items) =>
        negb (forallb (fun email => isFilledString (Some email)) items)
    | _ => true
    end,
    "Config 'commitAuthorEmailsSource' values must be strings.");
   (negb (isFilledString (fields !! "commitAuthorNameTarget")),
    "Config 'commitAuthorNameTarget' is invalid or missing: "
    +:+ quoted (template (fields !! "commitAuthorNameTarget")));
   (match fields !! "commitAuthorEmailTarget" with
    | Some (JSON.Str s) => negb (RegExp.test emailRegExp s)
    | _ => true
    end,
    "Config 'commitAuthorEmailTarget' is invalid or missing: "
    +:+ quoted (template (fields !! "commitAuthorEmailTarget")))].

(** The settings [main] reads from a configuration object. *)
Definition settingsOf (fields : gmap string JSON.Value) : Config :=
  settings (fields !! "repoPathSource") (fields !! "repoPathTarget")
           (fields !! "branchName") (fields !! "commitAuthorEmailsSource")
           (fields !! "commitAuthorNameTarget") (fields !! "commitAuthorEmailTarget").

(** A configuration the script accepts, with the settings it holds: an
    object whose two paths are directories, whose branch name and author
    name are strings that are not blank, whose list of e-mails is a
    non-empty array of such strings, and whose target e-mail has the form
    [a@b.c]. *)
Definition accepted (config : JSON.Value) (cfg : Config) : Prop :=
  ∃ fields,
    config = JSON.Object fields
    ∧ fields !! "repoPathSource" = Some (JSON.Str (repoPathSource cfg))
    ∧ directory (repoPathSource cfg) = true
    ∧ fields !! "repoPathTarget" = Some (JSON.Str (repoPathTarget cfg))
    ∧ directory (repoPathTarget cfg) = true
    ∧ fields !! "branchName" = Some (JSON.Str (branchName cfg))
    ∧ JS.trim (branchName cfg) ≠ EmptyString
    ∧ fields !! "commitAuthorEmailsSource"
      = Some (JSON.Array (map JSON.Str (commitAuthorEmailsSource cfg)))
    ∧ commitAuthorEmailsSource cfg ≠ []
    ∧ Forall (fun email => JS.trim email ≠ EmptyString) (commitAuthorEmailsSource cfg)
    ∧ fields !! "commitAuthorNameTarget" = Some (JSON.Str (commitAuthorNameTarget cfg))
    ∧ JS.trim (commitAuthorNameTarget cfg) ≠ EmptyString
    ∧ fields !! "commitAuthorEmailTarget" = Some (JSON.Str (commitAuthorEmailTarget cfg))
    ∧ RegExp.test emailRegExp (commitAuthorEmailTarget cfg) = true.

End ValidationViews.

(** Every character of [s] is one [[^\s@]] matches. *)
Fixpoint plainChars (s : string) : bool :=
  match s with
  | EmptyString => true
  | String c s' => RegExp.atomMatches notSpaceNorAt c && plainChars s'
  end.

(** A non-empty run of such characters. *)
Definition plainPart (s : string) : Prop :=
  s ≠ EmptyString ∧ plainChars s = true.

(** ** The older variant of the script

    [shadow.js] as it was before the shadow log followed the insertions
    and deletions: every commit that is not in the ledger is mirrored,
    the shadow log file holds the message of the last mirrored commit, and
    the run ends with two counts. [runGit], [getCommitsDataFromRepoSource]
    and [getShadowedShas] are those of the newer variant. A number that
    [console.log] prints is kept as its digits. *)

Module V1.

Section Script.

Variable config : Config.
Variable dryRun : bool.
Variable source : SourceRepo.

Definition updateShadowLogFile (content : string) : M unit :=
  writeFileSync content.

Definition createShadowCommit (commitMessage : string)
    (commitAuthorDateSource : option string) : M unit :=
  updateShadowLogFile commitMessage ;;;
  runGit config source TargetDir [Git.W "add"; Git.W FILENAME_SHADOW_LOG] None ;;;
  runGit config source TargetDir
         [Git.W "commit"; Git.W "-m"; Git.Q EmptyString commitMessage]
         (Some (commitEnv config commitAuthorDateSource)) ;;;
  ret tt.

(** The commit message of the mirrored commit, as [main] formats it. *)
Definition formatMessage (c : CommitData) : string :=
  commitShaSource c +:+ " " +:+ JS.toString (commitAuthorDateSource c)
    +:+ " " +:+ JS.toString (commitAuthorEmailSource c).

(** The [for ... of] loop of [main]; it returns [newCommitsCount]. *)
Fixpoint processCommits (shadowedShas : gset string)
    (commits : list CommitData) (newCommitsCount : nat) : M nat :=
  match commits with
  | [] => ret newCommitsCount
  | c :: rest =>
      let commitShaSource := commitShaSource c in
      if bool_decide (commitShaSource ∈ shadowedShas) then
        console_warn ("Skipping already shadowed commit: " +:+ commitShaSource) ;;;
        processCommits shadowedShas rest newCommitsCount
      else
        let commitMessage := formatMessage c in
        (if dryRun then
           console_warn ("[dry-run] Created shadow commit: " +:+ commitMessage)
         else
           createShadowCommit commitMessage (commitAuthorDateSource c) ;;;
           console_log ("Created shadow commit: " +:+ commitMessage)) ;;;
        processCommits shadowedShas rest (S newCommitsCount)
  end.

Definition main : M unit :=
  console_log "Starting shadow-git-activity..." ;;;
  console_log EmptyString ;;;
  commitsDataFromRepoSource <- getCommitsDataFromRepoSource config source ;;
  if length commitsDataFromRepoSource =? 0 then
    console_warn "No Commits data found in repo source." ;;;
    process_exit 1
  else
    let filteredCommitsDataFromRepoSource :=
      filterCommits config commitsDataFromRepoSource in
    if length filteredCommitsDataFromRepoSource =? 0 then
      console_warn ("No commit authors matched config.commitAuthorEmailsSource: "
                    +:+ JS.join ", " (commitAuthorEmailsSource config)) ;;;
      process_exit 1
    else
      shas <- getShadowedShas config source ;;
      let shadowedShas : gset string := list_to_set shas in
      console_log EmptyString ;;;
      newCommitsCount <- processCommits shadowedShas
                           filteredCommitsDataFromRepoSource 0 ;;
      console_log EmptyString ;;;
      console_log (JS.numToString (length filteredCommitsDataFromRepoSource)
                   +:+ " source commits processed.") ;;;
      (if dryRun then
         console_warn ("[dry-run] " +:+ JS.numToString newCommitsCount
                       +:+ " new shadow commits created.")
       else
         console_log (JS.numToString newCommitsCount
                      +:+ " new shadow commits created.")) ;;;
      console_log EmptyString ;;;
      ret tt.

(** The commit [createShadowCommit] asks git for. *)
Definition shadowCommit (c : CommitData) : Git.Commit :=
  Git.commitFrom (formatMessage c) (commitEnv config (commitAuthorDateSource c))
                 (Some (formatMessage c)).

End Script.

(** The commits the loop does not skip. *)
Definition unshadowed (shadowedShas : gset string) (commits : list CommitData)
  : list CommitData :=
  List.filter (fun c => negb (bool_decide (commitShaSource c ∈ shadowedShas))) commits.

End V1.

(** ** Predicates on the text git prints for a commit *)

(** Every character of [s] is a digit. *)
Fixpoint allDigits (s : string) : bool :=
  match s with
  | EmptyString => true
  | String c s' => JS.isDigit c && allDigits s'
  end.

(** The first character of [s] is a digit. *)
Definition headIsDigit (s : string) : bool :=
  match s with
  | String c _ => JS.isDigit c
  | EmptyString => false
  end.

(** The last character of [s] is a digit. *)
Fixpoint lastIsDigit (s : string) : bool :=
  match s with
  | EmptyString => false
  | String c EmptyString => JS.isDigit c
  | String _ s' => lastIsDigit s'
  end.

(** One step of [parseInt]: the digit [c] after the number [acc]. *)
Definition parseStep (acc : nat) (c : ascii) : nat := 10 * acc + (nat_of_ascii c - 48).

(** [p] reaches an opening parenthesis before any digit or line feed. *)
Fixpoint parenFirst (p : string) : bool :=
  match p with
  | EmptyString => false
  | String c p' =>
      if Ascii.eqb c "(" then true
      else if JS.isDigit c || Ascii.eqb c LF then false
      else parenFirst p'
  end.

(** [t] is empty or starts with a digit or a line feed. *)
Definition breaks (t : string) : bool :=
  match t with
  | EmptyString => true
  | String c _ => JS.isDigit c || Ascii.eqb c LF
  end.

(** The two texts [/ <word>s?\(<sign>\)/] stands for. *)
Definition patPlural (word sign : string) : string :=
  " " +:+ word +:+ "s(" +:+ sign +:+ ")".
Definition patSingular (word sign : string) : string :=
  " " +:+ word +:+ "(" +:+ sign +:+ ")".

(** [c] is the commit its short id names in [r]. *)
Definition named (r : History.Repo) (c : History.Commit) : Prop :=
  List.find (fun x => bool_decide (History.sha x = History.sha c)) (History.commits r)
  = Some c.

(** A field of a log line as git prints it for a real commit: not empty,
    without white space and without the unit separator. *)
Definition plainField (s : string) : bool :=
  isShortId s && negb (hasChar US s).

(** The fields of a commit that the log line of the history reader can
    carry: a plain short id and a plain date, and an e-mail without unit
    separator or line feed. *)
Definition loggable (c : History.Commit) : bool :=
  plainField (History.sha c)
  && negb (hasChar US (History.authorEmail c))
  && negb (hasChar LF (History.authorEmail c))
  && plainField (History.authorDate c).

(** The line [git log] prints for a commit with the format of the reader. *)
Definition logLine (c : History.Commit) : string :=
  History.sha c +:+ String US (History.authorEmail c +:+ String US (History.authorDate c)).

(** The fields of an entry of the source history hold no line feed. *)
Definition oneLine (c : CommitData) : bool :=
  negb (hasChar LF (commitShaSource c))
  && negb (hasChar LF (JS.toString (commitAuthorDateSource c)))
  && negb (hasChar LF (JS.toString (commitAuthorEmailSource c))).

(** A message that starts with a short id and a space and holds no line
    feed. *)
Definition ledgerLine (m : string) : Prop :=
  ∃ id rest, m = id +:+ String SP rest ∧ isShortId id = true ∧ hasChar LF m = false.

(** ** Predicates on a run *)


(** The loop skips the commit. *)
Definition skips (source : SourceRepo) (shadowedShas : gset string) (c : CommitData)
  : Prop :=
  verdict source shadowedShas c = InLedger ∨ verdict source shadowedShas c = ZeroDiff.

(** What the loop prints for one commit. *)
Definition report (dryRun : bool) (source : SourceRepo) (shadowedShas : gset string)
    (c : CommitData) : list Output :=
  match verdict source shadowedShas c with
  | InLedger =>
      [Warn ("Skipping already shadowed commit: " +:+ commitShaSource c);
       Log EmptyString]
  | ZeroDiff => [Log ("Skipping zero-diff commit: " +:+ commitShaSource c)]
  | Mirror i d =>
      [if dryRun then dryRunLine (formatMessage c i d)
       else Log ("Created shadow commit: " +:+ formatMessage c i d)]
  | Unreadable => []
  end.




(** ** More repositories for the examples *)

(** A history in which the author removes more lines than the shadow log
    holds. *)
Module Shrinking.

Definition d1 :=
  Scenario.commit "1a2b3c4" [] Scenario.alice "2024-11-01T09:00:00-07:00" 2 0.
Definition d2 :=
  Scenario.commit "2b3c4d5" ["1a2b3c4"] Scenario.alice "2024-11-02T09:00:00-07:00" 0 5.
Definition d3 :=
  Scenario.commit "3c4d5e6" ["2b3c4d5"] Scenario.alice "2024-11-03T09:00:00-07:00" 0 1.

Definition early : History.Repo :=
  {| History.branch := "main"; History.commits := [d2; d1] |}.

Definition later : History.Repo :=
  {| History.branch := "main"; History.commits := [d3; d2; d1] |}.

(** The world after a normal run over the first two commits. *)
Definition emptied : World :=
  snd (main Scenario.config false (History.exec early) Scenario.fresh).


End Shrinking.

(** The linear history in two sittings: its first two commits, then all
    four. *)
Module Growing.

Definition first : History.Repo :=
  {| History.branch := "main"; History.commits := [Scenario.h2; Scenario.h1] |}.

(** The world after a normal run over the first two commits. *)
Definition afterFirst : World :=
  snd (main Scenario.config false (History.exec first) Scenario.fresh).

(** The world after a normal run over the four commits that follows. *)
Definition resumed : World :=
  snd (main Scenario.config false (History.exec Scenario.linear) afterFirst).

End Growing.

(** A [config.json] and a file system for the examples. *)
Module Setup.

Definition configJson : JSON.Value :=
  JSON.Object
    (list_to_map
       [("repoPathSource", JSON.Str "/work/source");
        ("repoPathTarget", JSON.Str "/work/target");
        ("branchName", JSON.Str "main");
        ("commitAuthorEmailsSource", JSON.Array [JSON.Str Scenario.alice]);
        ("commitAuthorNameTarget", JSON.Str "Public Name");
        ("commitAuthorEmailTarget", JSON.Str "public@example.net")]).

Definition directory (path : string) : bool :=
  String.eqb path "/work/source" || String.eqb path "/work/target".

End Setup.

(** A target repository filled by the older variant, then visited by the
    newer one. *)
Module Older.

(** The world after a normal run of the older variant over the linear
    history. *)
Definition afterOlderRun : World :=
  snd (V1.main Scenario.config false (History.exec Scenario.linear) Scenario.fresh).

(** The world after a normal run of the newer variant that follows. *)
Definition afterNewerRun : World :=
  snd (main Scenario.config false (History.exec Scenario.linear) afterOlderRun).

End Older.

(** * Properties *)

(** ** Facts about the string primitives *)

Section StringFacts.

Lemma app_nil_l (s : string) : EmptyString +:+ s = s.
Proof. reflexivity. Qed.

Lemma app_cons (c : ascii) (a b : string) :
  String c a +:+ b = String c (a +:+ b).
Proof. reflexivity. Qed.

Lemma app_NL (a b : string) : a +:+ NL +:+ b = a +:+ String LF b.
Proof. reflexivity. Qed.

Lemma app_empty_r (s : string) : s +:+ EmptyString = s.
Proof. induction s as [|c s IH]; rewrite ?app_cons, ?app_nil_l; congruence. Qed.

Lemma app_assoc' (a b c : string) : (a +:+ b) +:+ c = a +:+ (b +:+ c).
Proof. induction a as [|x a IH]; rewrite ?app_cons, ?app_nil_l; congruence. Qed.

Lemma isWhiteSpace_LF : JS.isWhiteSpace LF = true.
Proof. reflexivity. Qed.

Lemma isWhiteSpace_SP : JS.isWhiteSpace SP = true.
Proof. reflexivity. Qed.

Lemma split_cons (sep : ascii) (s : string) :
  ∃ h t, JS.split sep s = h :: t.
Proof.
  induction s as [|c s [h [t IH]]]; cbn [JS.split]; [eauto |].
  destruct (Ascii.eqb c sep); [eauto |]. rewrite IH. eauto.
Qed.

Lemma split_char (sep c : ascii) (s : string) :
  JS.split sep (String c s) =
  if Ascii.eqb c sep then EmptyString :: JS.split sep s
  else match JS.split sep s with
       | h :: t => String c h :: t
       | [] => [String c EmptyString]
       end.
Proof. reflexivity. Qed.

(** Splitting a concatenation: the last piece of the left part and the
    first piece of the right part are glued. *)
Lemma split_app (sep : ascii) (a : string) :
  ∃ la x, JS.split sep a = la ++ [x] ∧
    ∀ b y lb, JS.split sep b = y :: lb →
      JS.split sep (a +:+ b) = la ++ (x +:+ y) :: lb.
Proof.
  induction a as [|c a (la & x & Ha & IH)].
  - exists [], EmptyString. split; [reflexivity |]. intros b y lb Hb. exact Hb.
  - destruct (Ascii.eqb c sep) eqn:E.
    + exists (EmptyString :: la), x. split.
      * rewrite split_char, E, Ha. reflexivity.
      * intros b y lb Hb. rewrite app_cons, split_char, E, (IH _ _ _ Hb).
        reflexivity.
    + destruct la as [|p la].
      * exists [], (String c x). split.
        -- rewrite split_char, E, Ha. reflexivity.
        -- intros b y lb Hb. rewrite app_cons, split_char, E, (IH _ _ _ Hb).
           reflexivity.
      * exists (String c p :: la), x. split.
        -- rewrite split_char, E, Ha. reflexivity.
        -- intros b y lb Hb. rewrite app_cons, split_char, E, (IH _ _ _ Hb).
           reflexivity.
Qed.

Lemma split_sep (sep : ascii) (a b : string) :
  JS.split sep (a +:+ String sep b) = JS.split sep a ++ JS.split sep b.
Proof.
  destruct (split_app sep a) as (la & x & Ha & H).
  rewrite (H (String sep b) EmptyString (JS.split sep b)).
  - rewrite Ha, app_empty_r, <- app_assoc. reflexivity.
  - rewrite split_char, Ascii.eqb_refl. reflexivity.
Qed.

Lemma split_no_sep (sep : ascii) (s : string) :
  hasChar sep s = false → JS.split sep s = [s].
Proof.
  induction s as [|c s IH]; cbn [hasChar]; [reflexivity |].
  intros H. apply orb_false_elim in H as [Hc Hs].
  rewrite split_char, Hc, (IH Hs). reflexivity.
Qed.

Lemma join_cons (sep x : string) (l : list string) :
  l ≠ [] → JS.join sep (x :: l) = x +:+ sep +:+ JS.join sep l.
Proof. destruct l; [congruence | reflexivity]. Qed.

Lemma join_app (sep : string) (l1 l2 : list string) :
  l1 ≠ [] → l2 ≠ [] →
  JS.join sep (l1 ++ l2) = JS.join sep l1 +:+ sep +:+ JS.join sep l2.
Proof.
  induction l1 as [|x l1 IH]; [congruence |]. intros _ H2.
  destruct l1 as [|y l1].
  - cbn [app]. now rewrite join_cons.
  - change ((x :: y :: l1) ++ l2) with (x :: (y :: l1) ++ l2).
    rewrite join_cons by done.
    rewrite IH by done. rewrite (join_cons sep x (y :: l1)) by done.
    now rewrite !app_assoc'.
Qed.

(** [split] undoes [join] on a non-empty list of lines without line feed. *)
Lemma split_join (lines : list string) :
  lines ≠ [] → Forall (fun l => hasChar LF l = false) lines →
  JS.split LF (JS.join NL lines) = lines.
Proof.
  induction lines as [|x l IH]; [congruence |]. intros _ H.
  inversion H as [|? ? Hx Hl]; subst.
  destruct l as [|y l].
  - cbn [JS.join]. now apply split_no_sep.
  - rewrite join_cons by done. rewrite app_NL.
    rewrite split_sep, (split_no_sep _ _ Hx), IH by done.
    reflexivity.
Qed.

End StringFacts.

Section TrimFacts.

Lemma trimEnd_char (c : ascii) (s : string) :
  JS.trimEnd (String c s) =
  match JS.trimEnd s with
  | EmptyString =>
      if JS.isWhiteSpace c then EmptyString else String c EmptyString
  | r => String c r
  end.
Proof. reflexivity. Qed.

Lemma trimStart_allWs (s : string) :
  allWs s = true → JS.trimStart s = EmptyString.
Proof.
  induction s as [|c s IH]; cbn [allWs JS.trimStart]; [reflexivity |].
  intros H. apply andb_prop in H as [Hc Hs]. rewrite Hc. auto.
Qed.

Lemma trimStart_app_l (s y : string) :
  allWs s = false → JS.trimStart (s +:+ y) = JS.trimStart s +:+ y.
Proof.
  induction s as [|c s IH]; cbn [allWs]; [discriminate |].
  intros H. rewrite app_cons. cbn [JS.trimStart].
  destruct (JS.isWhiteSpace c); cbn [andb] in H; [auto | now rewrite app_cons].
Qed.

Lemma trimEnd_allWs (s : string) :
  allWs s = true → JS.trimEnd s = EmptyString.
Proof.
  induction s as [|c s IH]; cbn [allWs]; [reflexivity |].
  intros H. apply andb_prop in H as [Hc Hs].
  rewrite trimEnd_char, (IH Hs), Hc. reflexivity.
Qed.

Lemma trimEnd_empty_allWs (s : string) :
  JS.trimEnd s = EmptyString → allWs s = true.
Proof.
  induction s as [|c s IH]; [reflexivity |].
  rewrite trimEnd_char. cbn [allWs].
  destruct (JS.trimEnd s); [| discriminate].
  destruct (JS.isWhiteSpace c); [| discriminate]. intros _. now rewrite IH.
Qed.

Lemma trimEnd_app_ws (x S : string) :
  allWs S = true → JS.trimEnd (x +:+ S) = JS.trimEnd x.
Proof.
  intros HS. induction x as [|c x IH].
  - rewrite app_nil_l. now apply trimEnd_allWs.
  - rewrite app_cons, !trimEnd_char, IH. reflexivity.
Qed.

Lemma trimEnd_app_r (x y : string) :
  allWs y = false → JS.trimEnd (x +:+ y) = x +:+ JS.trimEnd y.
Proof.
  intros Hy. assert (He : JS.trimEnd y ≠ EmptyString).
  { intros E. apply trimEnd_empty_allWs in E. congruence. }
  induction x as [|c x IH]; [reflexivity |].
  rewrite !app_cons, trimEnd_char, IH.
  destruct (x +:+ JS.trimEnd y) eqn:E; [| reflexivity].
  destruct x; [| discriminate]. rewrite app_nil_l in E. contradiction.
Qed.

Lemma allWs_app (a b : string) : allWs (a +:+ b) = allWs a && allWs b.
Proof.
  induction a as [|c a IH]; [reflexivity |].
  rewrite app_cons. cbn [allWs]. rewrite IH. now rewrite andb_assoc.
Qed.

(** [trimEnd] only removes a white-space suffix. *)
Lemma trimEnd_decomp (s : string) :
  ∃ S, s = JS.trimEnd s +:+ S ∧ allWs S = true.
Proof.
  induction s as [|c s (S & HS & HW)]; [exists EmptyString; split; reflexivity |].
  rewrite trimEnd_char. destruct (JS.trimEnd s) eqn:E.
  - rewrite app_nil_l in HS. subst S.
    destruct (JS.isWhiteSpace c) eqn:Ec.
    + exists (String c s). split; [reflexivity |]. cbn [allWs]. now rewrite Ec, HW.
    + exists s. split; [reflexivity | assumption].
  - exists S. split; [| assumption]. rewrite app_cons. congruence.
Qed.

Lemma clean_tail (c : ascii) (s : string) :
  cleanLines (String c s) → cleanLines s.
Proof.
  unfold cleanLines. rewrite split_char.
  destruct (split_cons LF s) as (h & t & E). rewrite E.
  destruct (Ascii.eqb c LF).
  - intros H. now inversion H.
  - intros H. inversion H as [|? ? Hh Ht]; subst. constructor; [| assumption].
    rewrite trimEnd_char in Hh. destruct (JS.trimEnd h) eqn:Eh.
    + destruct (JS.isWhiteSpace c); congruence.
    + congruence.
Qed.

Lemma clean_trimStart (s : string) : cleanLines s → cleanLines (JS.trimStart s).
Proof.
  induction s as [|c s IH]; [auto |]. intros H. cbn [JS.trimStart].
  destruct (JS.isWhiteSpace c); [| assumption]. apply IH. eapply clean_tail, H.
Qed.

Lemma split_lfs (k : nat) : JS.split LF (lfs k) = replicate (S k) EmptyString.
Proof.
  induction k as [|k IH]; [reflexivity |].
  cbn [lfs]. rewrite split_char, Ascii.eqb_refl, IH. reflexivity.
Qed.

(** When no line ends in white space, [trimEnd] removes line feeds only. *)
Lemma clean_trimEnd (s : string) :
  cleanLines s → ∃ k, s = JS.trimEnd s +:+ lfs k.
Proof.
  induction s as [|c s IH]; [exists 0; reflexivity |].
  intros H. destruct (IH (clean_tail _ _ H)) as [k Hk].
  rewrite trimEnd_char. destruct (JS.trimEnd s) eqn:E.
  - rewrite app_nil_l in Hk. destruct (JS.isWhiteSpace c) eqn:Ec.
    + destruct (Ascii.eqb c LF) eqn:El.
      * apply Ascii.eqb_eq in El. subst c. exists (S k). rewrite app_nil_l.
        cbn [lfs]. congruence.
      * exfalso. unfold cleanLines in H. rewrite split_char, El in H.
        rewrite Hk, split_lfs in H. cbn [replicate] in H.
        inversion H as [|? ? Hh _]; subst. rewrite trimEnd_char in Hh.
        cbn [JS.trimEnd] in Hh. rewrite Ec in Hh. discriminate.
    + exists k. rewrite app_cons, app_nil_l. congruence.
  - exists k. rewrite app_cons. congruence.
Qed.

End TrimFacts.

Section LedgerFacts.

Lemma firstPart_char (c : ascii) (l : string) :
  firstPart (String c l) =
  if Ascii.eqb c SP then EmptyString else String c (firstPart l).
Proof.
  unfold firstPart. rewrite split_char.
  destruct (split_cons SP l) as (h & t & E). rewrite E.
  now destruct (Ascii.eqb c SP).
Qed.

Lemma isShortId_spec (t : string) :
  isShortId t = true ↔ t ≠ EmptyString ∧ noWs t = true.
Proof.
  unfold isShortId. rewrite andb_true_iff, negb_true_iff, String.eqb_neq.
  reflexivity.
Qed.

Lemma noWs_no_char (c : ascii) (t : string) :
  JS.isWhiteSpace c = true → noWs t = true → hasChar c t = false.
Proof.
  intros Hc. induction t as [|x t IH]; [reflexivity |]. cbn [noWs hasChar].
  intros H. apply andb_prop in H as [Hx Ht]. rewrite (IH Ht), orb_false_r.
  apply Ascii.eqb_neq. intros ->. rewrite Hc in Hx. discriminate.
Qed.

(** The first piece of a line that starts with a token and a space. *)
Lemma firstPart_token (t r : string) :
  hasChar SP t = false → firstPart (t +:+ String SP r) = t.
Proof.
  induction t as [|c t IH]; cbn [hasChar].
  - intros _. rewrite app_nil_l, firstPart_char, Ascii.eqb_refl. reflexivity.
  - intros H. apply orb_false_elim in H as [Hc Ht].
    rewrite app_cons, firstPart_char, Hc, (IH Ht). reflexivity.
Qed.

(** White space after a line does not create a first piece free of white
    space. *)
Lemma firstPart_ws_suffix (x y t : string) :
  allWs y = true → noWs t = true → firstPart (x +:+ y) = t → firstPart x = t.
Proof.
  intros Hy. revert t. induction x as [|c x IH]; intros t Ht.
  - rewrite app_nil_l. destruct y as [|d y]; [auto |].
    rewrite firstPart_char. cbn [allWs] in Hy. apply andb_prop in Hy as [Hd _].
    destruct (Ascii.eqb d SP); [auto |]. intros <-. cbn [noWs] in Ht.
    rewrite Hd in Ht. discriminate.
  - rewrite app_cons, !firstPart_char. destruct (Ascii.eqb c SP); [auto |].
    intros <-. cbn [noWs] in Ht. apply andb_prop in Ht as [_ Ht].
    f_equal. now apply IH.
Qed.

Lemma firstPart_allWs (l t : string) :
  allWs l = true → isShortId t = true → firstPart l ≠ t.
Proof.
  intros Hl Ht E. apply isShortId_spec in Ht as [Hne Hn].
  apply (firstPart_ws_suffix EmptyString l t Hl Hn) in E. exact (Hne (eq_sym E)).
Qed.

Lemma allWs_split (s : string) :
  allWs s = true → Forall (fun l => allWs l = true) (JS.split LF s).
Proof.
  induction s as [|c s IH]; [repeat constructor |]. cbn [allWs].
  intros H. apply andb_prop in H as [Hc Hs]. specialize (IH Hs).
  rewrite split_char. destruct (split_cons LF s) as (h & t & E).
  rewrite E in *. inversion IH; subst.
  destruct (Ascii.eqb c LF); constructor; auto.
  cbn [allWs]. now rewrite Hc.
Qed.

(** A short id that leads a line of a text still leads a line after
    white space is trimmed from the end of the text. *)
Lemma firstParts_trimEnd (s t : string) :
  isShortId t = true → In t (firstParts s) → In t (firstParts (JS.trimEnd s)).
Proof.
  intros Ht. destruct (trimEnd_decomp s) as (S & HS & HW).
  destruct (split_app LF (JS.trimEnd s)) as (la & xl & Hx & Happ).
  destruct (split_cons LF S) as (y & lS & Hy).
  pose proof (allWs_split S HW) as HF. rewrite Hy in HF.
  apply Forall_cons in HF as [Hyw HlS].
  rewrite HS at 1. unfold firstParts. rewrite (Happ _ _ _ Hy), Hx.
  rewrite !map_app, !in_app_iff. cbn [map In].
  intros [H | [H | H]].
  - now left.
  - right. left. apply isShortId_spec in Ht as [_ Hn].
    now apply (firstPart_ws_suffix xl y t).
  - exfalso. apply in_map_iff in H as (l & E & Hl).
    rewrite Forall_forall in HlS.
    apply (firstPart_allWs l t); [apply HlS; now apply list_elem_of_In | assumption | assumption].
Qed.

(** The same for white space trimmed from the start. *)
Lemma firstParts_trimStart (s t : string) :
  isShortId t = true → In t (firstParts s) → In t (firstParts (JS.trimStart s)).
Proof.
  intros Ht. induction s as [|c s IH]; [auto |].
  cbn [JS.trimStart]. destruct (JS.isWhiteSpace c) eqn:Ec; [| auto].
  intros H. apply IH. unfold firstParts in *. rewrite split_char in H.
  destruct (split_cons LF s) as (h & tl & E). rewrite E in *.
  apply isShortId_spec in Ht as [Hne Hn].
  destruct (Ascii.eqb c LF).
  - destruct H as [H | H]; [now subst t | exact H].
  - destruct H as [H | H]; [| now right].
    exfalso. rewrite firstPart_char in H. destruct (Ascii.eqb c SP).
    + now subst t.
    + subst t. cbn [noWs] in Hn. rewrite Ec in Hn. discriminate.
Qed.

Lemma firstParts_trim (s t : string) :
  isShortId t = true → In t (firstParts s) → In t (firstParts (JS.trim s)).
Proof.
  intros Ht H. unfold JS.trim.
  now apply firstParts_trimEnd, firstParts_trimStart.
Qed.

Lemma split_head_token (t rest : string) :
  hasChar LF t = false →
  ∃ h tl, JS.split LF (t +:+ String SP rest) = (t +:+ String SP h) :: tl.
Proof.
  induction t as [|c t IH]; cbn [hasChar].
  - intros _. rewrite app_nil_l, split_char.
    destruct (split_cons LF rest) as (h & tl & E). rewrite E.
    exists h, tl. reflexivity.
  - intros H. apply orb_false_elim in H as [Hc Ht].
    destruct (IH Ht) as (h & tl & E). exists h, tl.
    rewrite !app_cons, split_char, Hc, E. reflexivity.
Qed.

(** A message made of a short id, a space and more leads a line of the
    log with its short id, wherever it stands in the log. *)
Lemma firstParts_join (msgs : list string) (t rest : string) :
  noWs t = true → In (t +:+ String SP rest) msgs →
  In t (firstParts (JS.join NL msgs)).
Proof.
  intros Hn. induction msgs as [|x l IH]; [intros [] |].
  assert (Hhead : ∀ tail, x = t +:+ String SP rest →
            In t (map firstPart (JS.split LF x ++ tail))).
  { intros tail ->.
    destruct (split_head_token t rest (noWs_no_char LF t isWhiteSpace_LF Hn))
      as (h & tl & E).
    rewrite E. left. apply firstPart_token.
    now apply (noWs_no_char SP t isWhiteSpace_SP). }
  destruct l as [|y l].
  - intros [H | []]. cbn [JS.join]. unfold firstParts.
    rewrite <- (app_nil_r (JS.split LF x)). now apply Hhead.
  - intros H. rewrite join_cons by done. rewrite app_NL.
    unfold firstParts. rewrite split_sep.
    destruct H as [H | H]; [now apply Hhead |].
    rewrite map_app, in_app_iff. right. now apply IH.
Qed.

Lemma firstParts_lfs (x t : string) (k : nat) :
  In t (firstParts x) → In t (firstParts (x +:+ lfs k)).
Proof.
  destruct k as [|k]; [now rewrite app_empty_r |].
  cbn [lfs]. unfold firstParts. rewrite split_sep, map_app, in_app_iff. now left.
Qed.

(** Appending lines to a log whose lines do not end in white space keeps
    every short id of its ledger. *)
Lemma firstParts_trim_grow (out1 X t : string) :
  cleanLines out1 → isShortId t = true →
  In t (firstParts (JS.trim out1)) →
  In t (firstParts (JS.trim (out1 +:+ NL +:+ X))).
Proof.
  intros Hclean Ht H. unfold JS.trim in *.
  destruct (allWs out1) eqn:Eo.
  { rewrite (trimStart_allWs _ Eo) in H. cbn in H. destruct H as [H | []].
    apply isShortId_spec in Ht as [Hne _]. now subst t. }
  rewrite trimStart_app_l by assumption.
  set (o1 := JS.trimStart out1) in *.
  assert (Ho1 : In t (firstParts o1)).
  { destruct (clean_trimEnd o1 (clean_trimStart _ Hclean)) as [k Hk].
    rewrite Hk. now apply firstParts_lfs. }
  destruct (allWs X) eqn:EX.
  - rewrite trimEnd_app_ws; [assumption |].
    rewrite allWs_app, EX. reflexivity.
  - rewrite app_NL.
    change (o1 +:+ String LF X) with (o1 +:+ (NL +:+ X)).
    rewrite <- app_assoc', trimEnd_app_r by assumption.
    rewrite app_assoc', app_NL. unfold firstParts.
    rewrite split_sep, map_app, in_app_iff. now left.
Qed.

End LedgerFacts.
(** ** The steps of the loop *)

Section Loop.

Variable config : Config.
Variable source : SourceRepo.

Lemma getInsertionsDeletions_eq (sha : string) (w : World) :
  getInsertionsDeletionsFromCommit config source sha w =
  match diffStatOf source sha with
  | Some p => (Ok p, w)
  | None =>
      (Throw,
       print (Error ("Git command failed: git " +:+ Git.cmdText (showCmd sha)
                     +:+ " on path " +:+ repoPathSource config)) w)
  end.
Proof.
  unfold getInsertionsDeletionsFromCommit, diffStatOf, bind, runGit, ret.
  destruct (source (Git.argv (showCmd sha))); reflexivity.
Qed.

Lemma exec_add (r : Git.Repo) :
  Git.exec r (Git.argv [Git.W "add"; Git.W FILENAME_SHADOW_LOG]) None =
  match Git.worktree r with
  | Some content =>
      (Some EmptyString,
       {| Git.commits := Git.commits r; Git.index := Some content;
          Git.worktree := Git.worktree r |})
  | None => (None, r)
  end.
Proof. reflexivity. Qed.

Lemma exec_commit (r : Git.Repo) (msg : string) (e : Git.Env) :
  Git.exec r (Git.argv [Git.W "commit"; Git.W "-m"; Git.Q EmptyString msg]) (Some e) =
  if bool_decide (Git.index r = Git.headArtifact r) then (None, r)
  else (Some EmptyString,
        {| Git.commits := Git.commits r ++ [Git.commitFrom msg e (Git.index r)];
           Git.index := Git.index r;
           Git.worktree := Git.worktree r |}).
Proof. reflexivity. Qed.

Lemma exec_log (r : Git.Repo) :
  Git.exec r (Git.argv logTargetCmd) None =
  match Git.commits r with
  | [] => (None, r)
  | cs => (Some (JS.join NL (map Git.subject cs)), r)
  end.
Proof. reflexivity. Qed.

Lemma createShadowCommit_eq (lines : list string) (msg : string)
    (date : option string) (w : World) :
  createShadowCommit config source lines msg date w =
  let content := JS.join NL lines in
  if bool_decide (Some content = Git.headArtifact (target w))
  then (Throw, print (commitFailed config msg) (withTarget (staged content (target w)) w))
  else (Ok tt,
        withTarget (committed (Git.commitFrom msg (commitEnv config date) (Some content))
                              content (target w)) w).
Proof.
  unfold createShadowCommit, writeLinesToShadowLogFile, writeFileSync, bind, runGit, ret.
  cbn [target withTarget]. rewrite exec_add. cbn [Git.worktree withTarget target console].
  rewrite exec_commit. cbn [Git.index Git.headArtifact Git.commits].
  destruct (bool_decide _); reflexivity.
Qed.

End Loop.

Section Steps.

Variable config : Config.
Variable dryRun : bool.
Variable source : SourceRepo.

Local Abbreviation loop := (processCommits config dryRun source).

Lemma step_inLedger L c rest lines w :
  verdict source L c = InLedger →
  loop L (c :: rest) lines w = loop L rest lines (skippedShadowed c w).
Proof.
  unfold verdict. cbn [processCommits].
  destruct (bool_decide (commitShaSource c ∈ L)); [reflexivity |].
  destruct (diffStatOf source (commitShaSource c)) as [[i d] |]; [| discriminate].
  destruct ((i =? 0) && (d =? 0)); discriminate.
Qed.

Lemma step_zeroDiff L c rest lines w :
  verdict source L c = ZeroDiff →
  loop L (c :: rest) lines w = loop L rest lines (skippedZeroDiff c w).
Proof.
  unfold verdict. cbn [processCommits].
  destruct (bool_decide (commitShaSource c ∈ L)); [discriminate |].
  unfold bind at 1. rewrite getInsertionsDeletions_eq.
  destruct (diffStatOf source (commitShaSource c)) as [[i d] |]; [| discriminate].
  destruct ((i =? 0) && (d =? 0)); [reflexivity | discriminate].
Qed.

Lemma step_unreadable L c rest lines w :
  verdict source L c = Unreadable →
  ∃ o, loop L (c :: rest) lines w = (Throw, print o w).
Proof.
  unfold verdict. cbn [processCommits].
  destruct (bool_decide (commitShaSource c ∈ L)); [discriminate |].
  unfold bind at 1. rewrite getInsertionsDeletions_eq.
  destruct (diffStatOf source (commitShaSource c)) as [[i d] |].
  - destruct ((i =? 0) && (d =? 0)); discriminate.
  - eauto.
Qed.

Lemma step_mirror L c rest lines w i d :
  verdict source L c = Mirror i d →
  loop L (c :: rest) lines w =
  let lines' := adjustShadowLogLines lines (commitShaSource c) i d in
  let msg := formatMessage c i d in
  if dryRun then
    loop L rest lines' (print (Warn ("[dry-run] Created shadow commit: " +:+ msg)) w)
  else
    let content := JS.join NL lines' in
    if bool_decide (Some content = Git.headArtifact (target w))
    then (Throw, print (commitFailed config msg)
                       (withTarget (staged content (target w)) w))
    else loop L rest lines'
           (print (Log ("Created shadow commit: " +:+ msg))
              (withTarget (committed (shadowCommit config c i d lines')
                                     content (target w)) w)).
Proof.
  unfold verdict. cbn [processCommits].
  destruct (bool_decide (commitShaSource c ∈ L)); [discriminate |].
  unfold bind at 1. rewrite getInsertionsDeletions_eq.
  destruct (diffStatOf source (commitShaSource c)) as [[i' d'] |]; [| discriminate].
  destruct ((i' =? 0) && (d' =? 0)); [discriminate |].
  intros [= -> ->]. cbn zeta. destruct dryRun.
  - reflexivity.
  - unfold bind. rewrite createShadowCommit_eq. cbn zeta.
    destruct (bool_decide _); reflexivity.
Qed.

End Steps.

(** ** The loop as a whole *)

Section WholeLoop.

Variable config : Config.
Variable source : SourceRepo.

Lemma print_console (o o' : Output) (w : World) :
  In o (console w) → In o (console (print o' w)).
Proof. intros H. cbn [print console]. apply in_or_app. now left. Qed.

(** The loop returns only when git could size every commit it reached. *)
Lemma loop_ok_readable dryRun L cs lines w b w' :
  processCommits config dryRun source L cs lines w = (Ok b, w') →
  Forall (fun c => verdict source L c ≠ Unreadable) cs.
Proof.
  revert lines w. induction cs as [|c cs IH]; intros lines w H; [constructor |].
  destruct (verdict source L c) eqn:V.
  - rewrite (step_inLedger _ _ _ _ _ _ _ _ V) in H.
    constructor; [congruence | eauto].
  - rewrite (step_zeroDiff _ _ _ _ _ _ _ _ V) in H.
    constructor; [congruence | eauto].
  - rewrite (step_mirror _ _ _ _ _ _ _ _ _ _ V) in H. cbn zeta in H.
    constructor; [congruence |].
    destruct dryRun; [eauto |]. destruct (bool_decide _); [discriminate | eauto].
  - destruct (step_unreadable config dryRun source L c cs lines w V) as [o E].
    rewrite E in H. discriminate.
Qed.

(** The shadow log the loop ends with: the planned commits applied in
    order to the shadow log it started with. *)
Lemma loop_final dryRun L cs lines w b w' :
  processCommits config dryRun source L cs lines w = (Ok b, w') →
  b = finalLines (plan source L cs) lines.
Proof.
  revert lines w. induction cs as [|c cs IH]; intros lines w H.
  - cbn in H. now inversion H.
  - cbn [plan]. destruct (verdict source L c) eqn:V.
    + rewrite (step_inLedger _ _ _ _ _ _ _ _ V) in H. eauto.
    + rewrite (step_zeroDiff _ _ _ _ _ _ _ _ V) in H. eauto.
    + rewrite (step_mirror _ _ _ _ _ _ _ _ _ _ V) in H. cbn zeta in H.
      cbn [finalLines].
      destruct dryRun; [eauto |]. destruct (bool_decide _); [discriminate | eauto].
    + destruct (step_unreadable config dryRun source L c cs lines w V) as [o E].
      rewrite E in H. discriminate.
Qed.

(** A loop that only skips returns the shadow log it was given and leaves
    the target repository alone. *)
Lemma loop_all_skipped dryRun L cs lines w :
  Forall (fun c => verdict source L c = InLedger ∨ verdict source L c = ZeroDiff) cs →
  ∃ w', processCommits config dryRun source L cs lines w = (Ok lines, w')
        ∧ target w' = target w.
Proof.
  revert w. induction cs as [|c cs IH]; intros w H.
  - exists w. split; reflexivity.
  - apply Forall_cons in H as [[V | V] Hcs].
    + rewrite (step_inLedger _ _ _ _ _ _ _ _ V).
      destruct (IH (skippedShadowed c w) Hcs) as (w' & E & T). eauto.
    + rewrite (step_zeroDiff _ _ _ _ _ _ _ _ V).
      destruct (IH (skippedZeroDiff c w) Hcs) as (w' & E & T). eauto.
Qed.

(** The commits a normal loop adds to the target repository: the commits
    of the plan, all of them when the loop returns. *)
Lemma loop_commits L cs lines w r w' :
  processCommits config false source L cs lines w = (r, w') →
  ∃ new,
    Git.commits (target w') = Git.commits (target w) ++ new
    ∧ new `prefix_of` shadowCommits config (plan source L cs) lines
    ∧ (∀ b, r = Ok b → new = shadowCommits config (plan source L cs) lines).
Proof.
  revert lines w. induction cs as [|c cs IH]; intros lines w H.
  - cbn in H. inversion H; subst. exists []. rewrite app_nil_r. cbn.
    repeat split; auto.
  - cbn [plan]. destruct (verdict source L c) eqn:V.
    + rewrite (step_inLedger _ _ _ _ _ _ _ _ V) in H. now apply IH in H.
    + rewrite (step_zeroDiff _ _ _ _ _ _ _ _ V) in H. now apply IH in H.
    + rewrite (step_mirror _ _ _ _ _ _ _ _ _ _ V) in H. cbn zeta in H.
      cbn [shadowCommits]. destruct (bool_decide _).
      * inversion H; subst. exists []. rewrite app_nil_r. cbn.
        repeat split; [apply prefix_nil | discriminate].
      * apply IH in H as (new & Hc & Hp & Hok).
        cbn [print withTarget target committed Git.commits] in Hc.
        exists (shadowCommit config c commitInsertions commitDeletions
                  (adjustShadowLogLines lines (commitShaSource c)
                     commitInsertions commitDeletions) :: new).
        rewrite Hc, <- app_assoc. repeat split.
        -- now apply prefix_cons.
        -- intros b Hb. f_equal. eauto.
    + destruct (step_unreadable config false source L c cs lines w V) as [o E].
      rewrite E in H. inversion H; subst. exists []. rewrite app_nil_r. cbn.
      repeat split; [apply prefix_nil | discriminate].
Qed.


(** A dry run of the loop leaves the target repository alone. *)
Lemma loop_dry_target L cs lines w r w' :
  processCommits config true source L cs lines w = (r, w') →
  target w' = target w.
Proof.
  revert lines w. induction cs as [|c cs IH]; intros lines w H.
  - cbn in H. now inversion H.
  - destruct (verdict source L c) eqn:V.
    + rewrite (step_inLedger _ _ _ _ _ _ _ _ V) in H. now apply IH in H.
    + rewrite (step_zeroDiff _ _ _ _ _ _ _ _ V) in H. now apply IH in H.
    + rewrite (step_mirror _ _ _ _ _ _ _ _ _ _ V) in H. now apply IH in H.
    + destruct (step_unreadable config true source L c cs lines w V) as [o E].
      rewrite E in H. now inversion H.
Qed.


End WholeLoop.

(** ** A run of [main] *)

Section Main.

Variable config : Config.
Variable source : SourceRepo.

Lemma getCommitsData_eq (w : World) :
  ∃ o, getCommitsDataFromRepoSource config source w =
       match sourceCommits config source with
       | Some l => (Ok l, w)
       | None => (Throw, print o w)
       end.
Proof.
  unfold getCommitsDataFromRepoSource, sourceCommits, bind, runGit, ret.
  destruct (source (Git.argv (logSourceCmd config)));
    [exists (Log EmptyString); reflexivity | eexists; reflexivity].
Qed.

Lemma getShadowedShas_eq (w : World) :
  ∃ o, getShadowedShas config source w =
       match Git.commits (target w) with
       | [] => (Throw, print o (withTarget (target w) w))
       | _ :: _ =>
           (Ok (firstParts (JS.trim (JS.join NL (map Git.subject
                                                   (Git.commits (target w)))))),
            withTarget (target w) w)
       end.
Proof.
  unfold getShadowedShas, bind, runGit, ret. rewrite exec_log.
  destruct (Git.commits (target w));
    [eexists; reflexivity | exists (Log EmptyString); reflexivity].
Qed.

Lemma getShadowLogLines_eq (w : World) :
  getShadowLogLines w = (Ok (loadedLines (target w)), w).
Proof.
  unfold getShadowLogLines, loadedLines. now destruct (Git.worktree (target w)).
Qed.

(** A run of [main] that reaches the loop: the ledger and the shadow log
    come from the target repository as it is at the start. *)
Lemma main_loop dryRun w all :
  sourceCommits config source = Some all →
  filterCommits config all ≠ [] →
  Git.commits (target w) ≠ [] →
  main config dryRun source w =
  match processCommits config dryRun source (ledgerOf (target w))
          (filterCommits config all) (loadedLines (target w)) (started w) with
  | (Ok _, w') => (Ok tt, finished w')
  | (Throw, w') => (Throw, w')
  | (Exit n, w') => (Exit n, w')
  end.
Proof.
  intros Hall Hf Htc.
  unfold main. unfold bind at 1 2 3. unfold console_log at 1 2.
  set (w1 := print (Log EmptyString) (print (Log "Starting shadow-git-activity...") w)).
  destruct (getCommitsData_eq w1) as [o1 ->]. rewrite Hall.
  destruct (length all =? 0) eqn:Hlen.
  { exfalso. apply Hf. apply Nat.eqb_eq in Hlen. now destruct all. }
  destruct (length (filterCommits config all) =? 0) eqn:Hlen'.
  { exfalso. apply Hf. apply Nat.eqb_eq in Hlen'.
    now destruct (filterCommits config all). }
  unfold bind at 1. destruct (getShadowedShas_eq w1) as [o2 ->].
  change (target w1) with (target w).
  destruct (Git.commits (target w)) as [|tc0 tcs] eqn:Htc'; [contradiction |].
  unfold bind at 1. rewrite getShadowLogLines_eq.
  change (target (withTarget (target w) w1)) with (target w).
  unfold ledgerOf, started. fold w1. rewrite Htc'.
  unfold bind at 1.
  destruct (processCommits config dryRun source _ _ _ _) as [[b | | n] wl']; reflexivity.
Qed.

(** How a run of [main] ends: before the loop, the target repository
    untouched, or through the loop. *)
Lemma main_inv dryRun w r w' :
  main config dryRun source w = (r, w') →
  (r ≠ Ok tt ∧ target w' = target w)
  ∨ ∃ all,
      sourceCommits config source = Some all
      ∧ filterCommits config all ≠ []
      ∧ Git.commits (target w) ≠ [].
Proof.
  destruct (sourceCommits config source) as [all |] eqn:Hall.
  2:{ unfold main. unfold bind at 1 2 3. unfold console_log at 1 2.
      match goal with |- context [getCommitsDataFromRepoSource _ _ ?w1] =>
        destruct (getCommitsData_eq w1) as [o1 ->] end.
      rewrite Hall. intros [= <- <-]. left. split; [discriminate | reflexivity]. }
  destruct (filterCommits config all) as [|c0 cs0] eqn:Hf.
  { unfold main. unfold bind at 1 2 3. unfold console_log at 1 2.
    match goal with |- context [getCommitsDataFromRepoSource _ _ ?w1] =>
      destruct (getCommitsData_eq w1) as [o1 ->] end.
    rewrite Hall, Hf. destruct (length all =? 0);
      unfold bind, console_warn, process_exit; intros [= <- <-]; left;
      (split; [discriminate | reflexivity]). }
  destruct (Git.commits (target w)) as [|tc0 tcs] eqn:Htc.
  { unfold main. unfold bind at 1 2 3. unfold console_log at 1 2.
    match goal with |- context [getCommitsDataFromRepoSource _ _ ?w1] =>
      destruct (getCommitsData_eq w1) as [o1 ->];
      destruct (getShadowedShas_eq w1) as [o2 E2] end.
    rewrite Hall, Hf. destruct (length all =? 0).
    - unfold bind, console_warn, process_exit; intros [= <- <-]; left;
        (split; [discriminate | reflexivity]).
    - cbn [length Nat.eqb]. unfold bind at 1. rewrite E2.
      cbn [print target] in *. rewrite Htc. intros [= <- <-]. left.
      split; [discriminate | reflexivity]. }
  intros _. right. exists all. rewrite Hf. repeat split; discriminate.
Qed.

End Main.

(** ** The plan of a run *)

Section PlanFacts.

Variable config : Config.
Variable source : SourceRepo.

Lemma verdict_mirror L c i d :
  verdict source L c = Mirror i d →
  (commitShaSource c ∉ L)
  ∧ diffStatOf source (commitShaSource c) = Some (i, d)
  ∧ ((i =? 0) && (d =? 0)) = false.
Proof.
  unfold verdict. destruct (bool_decide (commitShaSource c ∈ L)) eqn:E; [discriminate |].
  apply bool_decide_eq_false in E.
  destruct (diffStatOf source (commitShaSource c)) as [[i' d'] |]; [| discriminate].
  destruct ((i' =? 0) && (d' =? 0)) eqn:Z; [discriminate |].
  intros [= <- <-]. auto.
Qed.

Lemma plan_in L cs c i d :
  In (c, i, d) (plan source L cs) ↔ In c cs ∧ verdict source L c = Mirror i d.
Proof.
  induction cs as [|x cs IH]; cbn [plan In]; [tauto |].
  destruct (verdict source L x) eqn:V; rewrite ?IH; cbn [In];
    (split; [intros H | intros [[-> | H] H']]); try tauto; try congruence.
  - destruct H as [[= <- <- <-] | H]; tauto.
  - left. congruence.
Qed.


Lemma in_shadowCommits p lines c i d :
  In (c, i, d) p →
  ∃ lines', In (shadowCommit config c i d lines') (shadowCommits config p lines).
Proof.
  revert lines. induction p as [|[[c' i'] d'] p IH]; intros lines; [intros [] |].
  cbn [shadowCommits]. intros [[= -> -> ->] | H].
  - eexists. now left.
  - destruct (IH (adjustShadowLogLines lines (commitShaSource c') i' d') H) as [l' Hl'].
    exists l'. now right.
Qed.




(** What the loop of a run that returns found for each filtered commit. *)
Lemma main_ok_readable dryRun w w' :
  main config dryRun source w = (Ok tt, w') →
  ∃ all, sourceCommits config source = Some all
         ∧ filterCommits config all ≠ []
         ∧ Git.commits (target w) ≠ []
         ∧ Forall (fun c => verdict source (ledgerOf (target w)) c ≠ Unreadable)
                  (filterCommits config all).
Proof.
  intros H. destruct (main_inv _ _ _ _ _ _ H) as [[Hr Ht] | (all & Hall & Hf & Htc)];
    [congruence |].
  exists all. repeat split; auto.
  rewrite (main_loop config source dryRun w all Hall Hf Htc) in H.
  destruct (processCommits config dryRun source _ _ _ _) as [rl wl'] eqn:Hloop.
  destruct rl as [b | | n]; try discriminate.
  eapply loop_ok_readable, Hloop.
Qed.



End PlanFacts.

(** ** The shadow log file *)

Section ShadowLogFile.

(** C10. Writing the shadow log from a list of lines without line feed
    leaves the file with the lines joined by line feeds, and loading it
    again returns the list, except for the empty list: the file is then
    empty but exists, and loading returns the single empty line, so a
    shadow log emptied to length 0 loads with length 1. *)
Theorem shadow_log_write_load (lines : list string) (w : World) :
  Forall (fun l => hasChar LF l = false) lines →
  let w' := snd (writeLinesToShadowLogFile lines w) in
  Git.worktree (target w') = Some (JS.join NL lines)
  ∧ fst (getShadowLogLines w') =
    Ok (match lines with
        | [] => [EmptyString]
        | _ :: _ => lines
        end).
Proof.
  intros H w'. split; [reflexivity |].
  rewrite getShadowLogLines_eq. cbn [fst]. f_equal.
  unfold w', writeLinesToShadowLogFile, writeFileSync, loadedLines.
  cbn [snd withTarget target Git.worktree].
  destruct lines as [|x l]; [reflexivity |]. now apply split_join.
Qed.

End ShadowLogFile.

Lemma shadow_log_write_load_witness :
  fst (getShadowLogLines
         (snd (writeLinesToShadowLogFile ["a1b2c3d"; "a1b2c3d"; "d4e5f6a"]
                                         Scenario.fresh))) =
  Ok ["a1b2c3d"; "a1b2c3d"; "d4e5f6a"]
  ∧ fst (getShadowLogLines (snd (writeLinesToShadowLogFile [] Scenario.fresh))) =
    Ok [EmptyString].
Proof.
  split.
  - apply (shadow_log_write_load ["a1b2c3d"; "a1b2c3d"; "d4e5f6a"] Scenario.fresh).
    repeat constructor.
  - apply (shadow_log_write_load [] Scenario.fresh). constructor.
Defined.

(** ** The shadow buffer *)

Section ShadowBuffer.

Variable config : Config.
Variable source : SourceRepo.




End ShadowBuffer.


(** ** The two skip conditions *)

Section Skips.

Variable config : Config.
Variable dryRun : bool.
Variable source : SourceRepo.

(** C4. A commit whose short id is in the ledger, and a commit whose
    insertions and deletions are both 0, changes nothing but the console:
    no commit is created in the target repository, the shadow log is not
    touched, and the loop goes on with the next commit from the same
    shadow log and the same target repository. *)
Theorem skip_leaves_state_unchanged (L : gset string) (c : CommitData)
    (rest : list CommitData) (lines : list string) (w : World) :
  commitShaSource c ∈ L
  ∨ fst (getInsertionsDeletionsFromCommit config source (commitShaSource c) w)
    = Ok (0, 0) →
  ∃ w1,
    target w1 = target w
    ∧ (∀ o, In o (console w) → In o (console w1))
    ∧ processCommits config dryRun source L (c :: rest) lines w =
      processCommits config dryRun source L rest lines w1.
Proof.
  intros H.
  assert (V : verdict source L c = InLedger ∨ verdict source L c = ZeroDiff).
  { unfold verdict. destruct (bool_decide (commitShaSource c ∈ L)) eqn:E; [now left |].
    destruct H as [H | H]; [apply bool_decide_eq_false in E; contradiction |].
    rewrite getInsertionsDeletions_eq in H.
    destruct (diffStatOf source (commitShaSource c)) as [p |]; [| discriminate].
    cbn [fst] in H. inversion H; subst. now right. }
  destruct V as [V | V].
  - exists (skippedShadowed c w). repeat split.
    + intros o Ho. now do 2 apply print_console.
    + now apply step_inLedger.
  - exists (skippedZeroDiff c w). repeat split.
    + intros o Ho. now apply print_console.
    + now apply step_zeroDiff.
Qed.

End Skips.

Lemma skip_leaves_state_unchanged_witness :
  ∃ w1,
    target w1 = target Scenario.fresh
    ∧ (∀ o, In o (console Scenario.fresh) → In o (console w1))
    ∧ processCommits Scenario.config false (History.exec Scenario.linear) ∅
        [Scenario.parsed Scenario.h3; Scenario.parsed Scenario.h4] []
        Scenario.fresh =
      processCommits Scenario.config false (History.exec Scenario.linear) ∅
        [Scenario.parsed Scenario.h4] [] w1.
Proof.
  apply (skip_leaves_state_unchanged Scenario.config false
           (History.exec Scenario.linear) ∅ (Scenario.parsed Scenario.h3)).
  right. vm_compute. reflexivity.
Defined.

(** ** The mirrored commits *)

Section MirroredCommits.

Variable config : Config.
Variable source : SourceRepo.





End MirroredCommits.




(** ** Running the engine again *)

Section Idempotency.

Variable config : Config.
Variable source : SourceRepo.

Lemma ledgerOf_in (r : Git.Repo) (t : string) :
  t ∈ ledgerOf r ↔
  In t (firstParts (JS.trim (JS.join NL (map Git.subject (Git.commits r))))).
Proof. unfold ledgerOf. now rewrite elem_of_list_to_set, list_elem_of_In. Qed.

Lemma verdict_inLedger L c :
  commitShaSource c ∈ L → verdict source L c = InLedger.
Proof. intros H. unfold verdict. now rewrite bool_decide_eq_true_2. Qed.

Lemma verdict_zeroDiff L L' c :
  verdict source L c = ZeroDiff →
  verdict source L' c = InLedger ∨ verdict source L' c = ZeroDiff.
Proof.
  unfold verdict. destruct (bool_decide (commitShaSource c ∈ L)); [discriminate |].
  destruct (bool_decide (commitShaSource c ∈ L')); [now left |].
  destruct (diffStatOf source (commitShaSource c)) as [[i d] |]; [| discriminate].
  destruct ((i =? 0) && (d =? 0)); [now right | discriminate].
Qed.

(** The ledger keeps its short ids when commits are added to a target
    repository whose log has no line that ends in white space. *)
Lemma ledger_grows (olds news : list Git.Commit) (ix wt ix' wt' : option string)
    (t : string) :
  cleanLines (JS.join NL (map Git.subject olds)) →
  isShortId t = true →
  t ∈ ledgerOf {| Git.commits := olds; Git.index := ix; Git.worktree := wt |} →
  t ∈ ledgerOf {| Git.commits := olds ++ news; Git.index := ix'; Git.worktree := wt' |}.
Proof.
  intros Hclean Ht. rewrite !ledgerOf_in. cbn [Git.commits].
  destruct news as [|n news]; [now rewrite app_nil_r |].
  destruct olds as [|o olds].
  - cbn. intros [H | []]. apply isShortId_spec in Ht as [Hne _]. now subst t.
  - rewrite map_app, join_app by done. now apply firstParts_trim_grow.
Qed.

(** The ledger holds the short id of every mirrored commit of the log. *)
Lemma ledger_has_mirrored (r : Git.Repo) (c : CommitData) (i d : nat)
    (lines : list string) :
  isShortId (commitShaSource c) = true →
  In (shadowCommit config c i d lines) (Git.commits r) →
  commitShaSource c ∈ ledgerOf r.
Proof.
  intros Ht Hin. apply ledgerOf_in, firstParts_trim; [assumption |].
  apply isShortId_spec in Ht as [_ Hn].
  eapply firstParts_join; [exact Hn |].
  apply (in_map Git.subject) in Hin. exact Hin.
Qed.


End Idempotency.


(** ** The mirror ledger *)

Section Ledger.

Variable config : Config.
Variable source : SourceRepo.

Lemma firstPart_upToSpace (m : string) : firstPart m = upToSpace m.
Proof.
  induction m as [|c m IH]; [reflexivity |].
  rewrite firstPart_char. cbn [upToSpace]. now rewrite IH.
Qed.

Lemma firstParts_upToSpace (s : string) :
  firstParts s = map upToSpace (JS.split LF s).
Proof. unfold firstParts. apply map_ext, firstPart_upToSpace. Qed.

(** C7, as the code has it. On a target repository with at least one
    commit, reading the ledger does not fail, and the ledger is the set of
    the first tokens (the substring preceding the first space) of the
    lines of the log after [runGit] has trimmed the white space at both
    ends of the whole log. It is the set of the first tokens of the
    subjects whenever the trimming changes nothing and no subject holds a
    line feed; membership then succeeds exactly for the tokens that lead
    a subject. *)
Theorem ledger_extraction (w : World) :
  Git.commits (target w) ≠ [] →
  ∃ shas w',
    getShadowedShas config source w = (Ok shas, w')
    ∧ target w' = target w
    ∧ shas = map upToSpace
               (JS.split LF (JS.trim (JS.join NL (map Git.subject
                                                    (Git.commits (target w))))))
    ∧ (Forall (fun m => hasChar LF m = false) (map Git.subject (Git.commits (target w))) →
       JS.trim (JS.join NL (map Git.subject (Git.commits (target w))))
       = JS.join NL (map Git.subject (Git.commits (target w))) →
       shas = map upToSpace (map Git.subject (Git.commits (target w)))
       ∧ ∀ t, t ∈ (list_to_set shas : gset string)
              ↔ ∃ tc, In tc (Git.commits (target w)) ∧ upToSpace (Git.subject tc) = t).
Proof.
  intros Hne. destruct (getShadowedShas_eq config source w) as [o E].
  destruct (Git.commits (target w)) as [|tc0 tcs] eqn:Htc; [contradiction |].
  eexists. eexists. split; [exact E |]. split; [reflexivity |].
  split; [apply firstParts_upToSpace |].
  intros Hlf Htrim. rewrite Htrim, firstParts_upToSpace, split_join by done.
  split; [reflexivity |]. intros t.
  rewrite elem_of_list_to_set, list_elem_of_In, map_map, in_map_iff.
  split; intros (tc & H1 & H2); exists tc; auto.
Qed.

End Ledger.

Lemma ledger_extraction_witness :
  ∃ shas w',
    getShadowedShas Scenario.config (History.exec Scenario.linear)
                    Scenario.afterFirstRun = (Ok shas, w')
    ∧ shas = ["Initial"; "a1b2c3d"; "d4e5f6a"].
Proof.
  destruct (ledger_extraction Scenario.config (History.exec Scenario.linear)
              Scenario.afterFirstRun)
    as (shas & w' & E & _ & _ & Hs).
  - vm_compute. discriminate.
  - destruct Hs as [Hs _].
    + vm_compute. repeat constructor.
    + vm_compute. reflexivity.
    + exists shas, w'. split; [exact E |]. rewrite Hs. vm_compute. reflexivity.
Defined.

(** C7, as the claim states it, fails: the only subject of the target
    repository is [" abc def"], whose first token is the empty string; the
    ledger holds ["abc"] instead, because the log is trimmed first. *)
Lemma ledger_is_not_the_first_tokens :
  ¬ (∀ (config : Config) (source : SourceRepo) (w : World)
       (shas : list string) (w' : World),
       getShadowedShas config source w = (Ok shas, w') →
       (list_to_set shas : gset string) =
       list_to_set (map upToSpace (map Git.subject (Git.commits (target w))))).
Proof.
  intros H.
  assert (E : getShadowedShas Scenario.config (History.exec Scenario.linear)
                Scenario.indented = (Ok ["abc"], Scenario.indented))
    by (vm_compute; reflexivity).
  apply H in E.
  assert (Hin : "abc" ∈ (list_to_set ["abc"] : gset string)) by set_solver.
  rewrite E in Hin. apply elem_of_list_to_set, list_elem_of_In in Hin.
  vm_compute in Hin. destruct Hin as [Hin | []]. discriminate.
Qed.

(** ** Short ids listed twice *)

Section Repeats.

Variable config : Config.
Variable source : SourceRepo.




End Repeats.



(** ** The history reader and merge commits *)

(** C3, at the input where the code departs from it. The command
    [getCommitsDataFromRepoSource] issues is
    [log <branch> --reverse --pretty=format:"%h%x1f%ae%x1f%aI"]: it has no
    [--no-merges], although the comment of the function says merges are
    ignored through that option. On a branch whose last commit [f6a7b8c]
    merges [0a1b2c3] and [e5f6a7b], the reader returns the merge commit
    along with the rest; with the option, git lists the history without
    the merge commit. *)
Theorem history_reader_returns_merge_commits :
  Git.cmdText (logSourceCmd Scenario.config)
  = "log main --reverse --pretty=format:" +:+ String DQUOTE "%h%x1f%ae%x1f%aI"
    +:+ String DQUOTE EmptyString
  ∧ ¬ In "--no-merges" (Git.argv (logSourceCmd Scenario.config))
  ∧ History.isMerge Scenario.m1 = true
  ∧ fst (getCommitsDataFromRepoSource Scenario.config
           (History.exec Scenario.merged) Scenario.fresh)
    = Ok [Scenario.parsed Scenario.h1; Scenario.parsed Scenario.s1;
          Scenario.parsed Scenario.t1; Scenario.parsed Scenario.m1]
  ∧ option_map (fun out => map parseLogLine (JS.split LF (JS.trim out)))
      (History.exec Scenario.merged
         (Git.argv (logSourceCmd Scenario.config) ++ ["--no-merges"]))
    = Some [Scenario.parsed Scenario.h1; Scenario.parsed Scenario.s1;
            Scenario.parsed Scenario.t1].
Proof.
  split; [vm_compute; reflexivity |].
  split.
  { vm_compute. intros [E | [E | [E | [E | []]]]]; discriminate. }
  split; [reflexivity |].
  split; vm_compute; reflexivity.
Qed.

(** * Further properties *)

(** ** Numbers as git prints them *)

Section Digits.

Lemma pretty_N_char_digit (m : N) :
  JS.isDigit (pretty_N_char m) = true.
Proof.
  unfold pretty_N_char. repeat case_match; reflexivity.
Qed.

Lemma pretty_N_char_value (m : N) :
  (m < 10)%N → nat_of_ascii (pretty_N_char m) - 48 = N.to_nat m.
Proof.
  intros H.
  assert (m = 0 ∨ m = 1 ∨ m = 2 ∨ m = 3 ∨ m = 4 ∨ m = 5 ∨ m = 6 ∨ m = 7
          ∨ m = 8 ∨ m = 9)%N as Hm by lia.
  repeat (destruct Hm as [-> | Hm]; [reflexivity |]). subst m. reflexivity.
Qed.

Lemma pretty_N_go_digits (x : N) (s : string) :
  allDigits s = true → allDigits (pretty_N_go x s) = true.
Proof.
  revert s. induction (N.lt_wf_0 x) as [x _ IH]. intros s Hs.
  destruct (decide (x = 0)%N) as [-> | Hx]; [assumption |].
  rewrite pretty_N_go_step by lia. apply IH.
  - apply N.div_lt; lia.
  - cbn [allDigits]. now rewrite pretty_N_char_digit.
Qed.

Lemma pretty_N_go_nonempty (x : N) (s : string) :
  s ≠ EmptyString → pretty_N_go x s ≠ EmptyString.
Proof.
  revert s. induction (N.lt_wf_0 x) as [x _ IH]. intros s Hs.
  destruct (decide (x = 0)%N) as [-> | Hx]; [assumption |].
  rewrite pretty_N_go_step by lia. apply IH; [apply N.div_lt; lia | discriminate].
Qed.

Lemma pretty_digits (n : nat) : allDigits (pretty n) = true.
Proof.
  unfold pretty, pretty_nat, pretty, pretty_N.
  case_decide; [reflexivity |]. now apply pretty_N_go_digits.
Qed.

Lemma pretty_nonempty (n : nat) : pretty n ≠ EmptyString.
Proof.
  unfold pretty, pretty_nat, pretty, pretty_N.
  case_decide as H; [discriminate |].
  rewrite pretty_N_go_step by lia. apply pretty_N_go_nonempty. discriminate.
Qed.

Lemma parse_pretty_N_go (x : N) (s : string) :
  fold_left parseStep (list_ascii_of_string (pretty_N_go x s)) 0
  = fold_left parseStep (list_ascii_of_string s) (N.to_nat x).
Proof.
  revert s. induction (N.lt_wf_0 x) as [x _ IH]. intros s.
  destruct (decide (x = 0)%N) as [-> | Hx]; [reflexivity |].
  rewrite pretty_N_go_step by lia. rewrite IH by (apply N.div_lt; lia).
  cbn [list_ascii_of_string fold_left]. f_equal. unfold parseStep.
  rewrite pretty_N_char_value by (apply N.mod_lt; lia).
  pose proof (N.div_mod x 10 ltac:(lia)). lia.
Qed.

Lemma parseInt_pretty (n : nat) : JS.parseInt (pretty n) = n.
Proof.
  unfold JS.parseInt. change (fun acc c => 10 * acc + (nat_of_ascii c - 48)) with parseStep.
  unfold pretty, pretty_nat, pretty, pretty_N.
  case_decide as H.
  - assert (n = 0) as -> by lia. reflexivity.
  - rewrite parse_pretty_N_go. cbn [list_ascii_of_string fold_left]. lia.
Qed.

End Digits.

(** ** The pattern of the diff sizer *)

Section MatchFacts.

Lemma strPrefix_nil (s : string) : String.prefix EmptyString s = true.
Proof. destruct s; reflexivity. Qed.

Lemma strPrefix_cons (a b : ascii) (p s : string) :
  String.prefix (String a p) (String b s)
  = if Ascii.eqb a b then String.prefix p s else false.
Proof.
  cbn [String.prefix]. destruct (ascii_dec a b) as [-> | Hne].
  - now rewrite Ascii.eqb_refl.
  - destruct (Ascii.eqb a b) eqn:E; [| reflexivity].
    apply Ascii.eqb_eq in E. contradiction.
Qed.

Lemma hasChar_app (c : ascii) (a b : string) :
  hasChar c (a +:+ b) = hasChar c a || hasChar c b.
Proof.
  induction a as [|x a IH]; [reflexivity |].
  rewrite app_cons. cbn [hasChar]. rewrite IH. now rewrite orb_assoc.
Qed.

Lemma ws_not_digit (c : ascii) : JS.isWhiteSpace c = true → JS.isDigit c = false.
Proof.
  unfold JS.isWhiteSpace, JS.isDigit. cbv zeta.
  destruct (48 <=? nat_of_ascii c) eqn:E1; [| reflexivity].
  destruct (nat_of_ascii c <=? 57) eqn:E2; [| reflexivity].
  apply Nat.leb_le in E1. apply Nat.leb_le in E2. intros H.
  apply orb_prop in H as [H | H]; [apply orb_prop in H as [H | H] |].
  - apply andb_prop in H as [_ H]. apply Nat.leb_le in H. lia.
  - apply Nat.eqb_eq in H. lia.
  - apply Nat.eqb_eq in H. lia.
Qed.

Lemma spanDigits_run (ds t : string) :
  allDigits ds = true → headIsDigit t = false →
  JS.spanDigits (ds +:+ t) = (ds, t).
Proof.
  intros Hd Ht. induction ds as [|c ds IH].
  - rewrite app_nil_l. destruct t as [|x t]; [reflexivity |].
    cbn [headIsDigit] in Ht. cbn [JS.spanDigits]. now rewrite Ht.
  - cbn [allDigits] in Hd. apply andb_prop in Hd as [Hc Hd].
    rewrite app_cons. cbn [JS.spanDigits]. rewrite Hc, (IH Hd). reflexivity.
Qed.

(** The run of digits at the start of [r +:+ t] is the one of [r], unless
    [r] ends in a digit and [t] goes on with one. *)
Lemma spanDigits_app (r t : string) :
  r ≠ EmptyString → lastIsDigit r && headIsDigit t = false →
  JS.spanDigits (r +:+ t)
  = (fst (JS.spanDigits r), snd (JS.spanDigits r) +:+ t).
Proof.
  induction r as [|c r IH]; [congruence |]. intros _ Hb.
  rewrite app_cons. cbn [JS.spanDigits].
  destruct (JS.isDigit c) eqn:Ec; [| reflexivity].
  destruct r as [|x r].
  - cbn [lastIsDigit] in Hb. rewrite Ec in Hb. cbn [andb] in Hb.
    rewrite app_nil_l. cbn [JS.spanDigits fst snd].
    destruct t as [|y t]; [reflexivity |]. cbn [headIsDigit] in Hb.
    cbn [JS.spanDigits]. now rewrite Hb.
  - rewrite IH; [| discriminate | exact Hb].
    destruct (JS.spanDigits (String x r)) as [ds r2]. reflexivity.
Qed.

Lemma hasChar_spanDigits (c : ascii) (r : string) :
  hasChar c r = false → hasChar c (snd (JS.spanDigits r)) = false.
Proof.
  induction r as [|x r IH]; [auto |]. intros H. cbn [JS.spanDigits].
  destruct (JS.isDigit x); [| exact H].
  cbn [hasChar] in H. apply orb_false_elim in H as [_ H].
  specialize (IH H). destruct (JS.spanDigits r). exact IH.
Qed.

Lemma prefix_parenFirst (p r t : string) :
  parenFirst p = true → hasChar "(" r = false → breaks t = true →
  String.prefix p (r +:+ t) = false.
Proof.
  revert r. induction p as [|a p IH]; [discriminate |]. intros r Hp Hr Ht.
  cbn [parenFirst] in Hp. destruct r as [|x r].
  - rewrite app_nil_l. destruct t as [|y t]; [reflexivity |].
    rewrite strPrefix_cons. destruct (Ascii.eqb a y) eqn:E; [| reflexivity].
    apply Ascii.eqb_eq in E. subst y. cbn [breaks] in Ht.
    destruct (Ascii.eqb a "(") eqn:Ea.
    + apply Ascii.eqb_eq in Ea. subst a. discriminate.
    + rewrite Ht in Hp. discriminate.
  - rewrite app_cons, strPrefix_cons. destruct (Ascii.eqb a x) eqn:E; [| reflexivity].
    apply Ascii.eqb_eq in E. subst x. cbn [hasChar] in Hr.
    apply orb_false_elim in Hr as [Ha Hr]. rewrite Ha in Hp.
    destruct (JS.isDigit a || Ascii.eqb a LF); [discriminate |]. now apply IH.
Qed.

Lemma matchCount_unfold (word sign s : string) :
  JS.matchCount word sign s
  = match JS.matchCountHere word sign s with
    | Some ds => Some ds
    | None =>
        match s with
        | String _ s' => JS.matchCount word sign s'
        | EmptyString => None
        end
    end.
Proof. destruct s; reflexivity. Qed.

Lemma matchCountHere_eq (word sign s : string) :
  JS.matchCountHere word sign s
  = match fst (JS.spanDigits s) with
    | EmptyString => None
    | ds =>
        if String.prefix (patPlural word sign) (snd (JS.spanDigits s))
           || String.prefix (patSingular word sign) (snd (JS.spanDigits s))
        then Some ds else None
    end.
Proof.
  unfold JS.matchCountHere. destruct (JS.spanDigits s) as [[|a ds] r]; reflexivity.
Qed.

(** A character that is no digit starts no match. *)
Lemma matchCount_nondigit (word sign : string) (c : ascii) (s : string) :
  JS.isDigit c = false →
  JS.matchCount word sign (String c s) = JS.matchCount word sign s.
Proof.
  intros Hc. rewrite matchCount_unfold, matchCountHere_eq.
  cbn [JS.spanDigits]. rewrite Hc. reflexivity.
Qed.

(** A run of digits followed by the text of the pattern is a match. *)
Lemma matchCount_hit (word sign ds t : string) :
  allDigits ds = true → ds ≠ EmptyString → headIsDigit t = false →
  String.prefix (patPlural word sign) t
  || String.prefix (patSingular word sign) t = true →
  JS.matchCount word sign (ds +:+ t) = Some ds.
Proof.
  intros Hd Hne Ht Hp. rewrite matchCount_unfold, matchCountHere_eq.
  rewrite spanDigits_run by assumption. cbn [fst snd]. rewrite Hp.
  destruct ds; [congruence | reflexivity].
Qed.

(** A run of digits followed by something else holds no match. *)
Lemma matchCount_skip_digits (word sign ds t : string) :
  allDigits ds = true → headIsDigit t = false →
  String.prefix (patPlural word sign) t = false →
  String.prefix (patSingular word sign) t = false →
  JS.matchCount word sign (ds +:+ t) = JS.matchCount word sign t.
Proof.
  intros Hd Ht Hp Hs. induction ds as [|c ds IH]; [reflexivity |].
  pose proof Hd as Hd'. cbn [allDigits] in Hd'. apply andb_prop in Hd' as [_ Hd'].
  rewrite matchCount_unfold, matchCountHere_eq.
  rewrite spanDigits_run by assumption. cbn [fst snd]. rewrite Hp, Hs.
  cbn [orb]. rewrite app_cons. now apply IH.
Qed.

(** A text without opening parenthesis holds no match and does not take
    part in one, when what follows it is empty or starts a new line or a
    number of its own. *)
Lemma matchCount_skip (word sign h t : string) :
  parenFirst (patPlural word sign) = true →
  parenFirst (patSingular word sign) = true →
  hasChar "(" h = false → breaks t = true →
  lastIsDigit h && headIsDigit t = false →
  JS.matchCount word sign (h +:+ t) = JS.matchCount word sign t.
Proof.
  intros Hp Hs. induction h as [|c h IH]; intros Hh Ht Hb; [reflexivity |].
  rewrite matchCount_unfold, matchCountHere_eq.
  rewrite spanDigits_app; [| discriminate | exact Hb]. cbn [fst snd].
  pose proof (hasChar_spanDigits _ _ Hh) as Hr.
  rewrite !prefix_parenFirst by assumption. cbn [orb].
  assert (JS.matchCount word sign (h +:+ t) = JS.matchCount word sign t) as E.
  { apply IH; [| exact Ht |].
    - cbn [hasChar] in Hh. now apply orb_false_elim in Hh as [_ Hh].
    - destruct h as [|x h]; [reflexivity | exact Hb]. }
  rewrite app_cons, E. now destruct (fst (JS.spanDigits (String c h))).
Qed.

Lemma matchCount_none (word sign h : string) :
  parenFirst (patPlural word sign) = true →
  parenFirst (patSingular word sign) = true →
  hasChar "(" h = false → JS.matchCount word sign h = None.
Proof.
  intros Hp Hs Hh. rewrite <- (app_empty_r h).
  rewrite matchCount_skip; try assumption; try reflexivity.
  apply andb_false_r.
Qed.

Lemma matchCount_trimStart (word sign s : string) :
  JS.matchCount word sign (JS.trimStart s) = JS.matchCount word sign s.
Proof.
  induction s as [|c s IH]; [reflexivity |]. cbn [JS.trimStart].
  destruct (JS.isWhiteSpace c) eqn:Ec; [| reflexivity].
  now rewrite matchCount_nondigit by now apply ws_not_digit.
Qed.

Lemma prefix_allWs (p b : string) :
  String.prefix p b = true → allWs b = true → allWs p = true.
Proof.
  revert b. induction p as [|a p IH]; [reflexivity |]. intros [|x b]; [discriminate |].
  rewrite strPrefix_cons. destruct (Ascii.eqb a x) eqn:E; [| discriminate].
  apply Ascii.eqb_eq in E. subst x. cbn [allWs]. intros Hp Hb.
  apply andb_prop in Hb as [Ha Hb]. rewrite Ha. eauto.
Qed.

Lemma prefix_app_ws (p r b : string) :
  JS.trimEnd p = p → p ≠ EmptyString → allWs b = true →
  String.prefix p (r +:+ b) = String.prefix p r.
Proof.
  intros Hp Hne Hb. revert p Hp Hne. induction r as [|x r IH]; intros p Hp Hne.
  - rewrite app_nil_l. destruct p as [|a p]; [congruence |].
    destruct (String.prefix (String a p) b) eqn:E; [| reflexivity].
    apply prefix_allWs in E; [| assumption].
    apply trimEnd_allWs in E. congruence.
  - destruct p as [|a p]; [congruence |]. rewrite app_cons, !strPrefix_cons.
    destruct (Ascii.eqb a x); [| reflexivity].
    destruct p as [|a' p]; [now rewrite !strPrefix_nil |]. apply IH; [| discriminate].
    rewrite trimEnd_char in Hp. destruct (JS.trimEnd (String a' p)).
    + destruct (JS.isWhiteSpace a); discriminate.
    + congruence.
Qed.

Lemma matchCount_allWs (word sign b : string) :
  allWs b = true → JS.matchCount word sign b = None.
Proof.
  induction b as [|c b IH]; [reflexivity |]. cbn [allWs]. intros H.
  apply andb_prop in H as [Hc Hb].
  rewrite matchCount_nondigit by now apply ws_not_digit. auto.
Qed.

Lemma allWs_head (b : string) : allWs b = true → headIsDigit b = false.
Proof.
  destruct b as [|c b]; [reflexivity |]. cbn [allWs headIsDigit]. intros H.
  apply andb_prop in H as [Hc _]. now apply ws_not_digit.
Qed.

Lemma matchCount_app_ws (word sign s b : string) :
  JS.trimEnd (patPlural word sign) = patPlural word sign →
  JS.trimEnd (patSingular word sign) = patSingular word sign →
  allWs b = true →
  JS.matchCount word sign (s +:+ b) = JS.matchCount word sign s.
Proof.
  intros Hp Hs Hb. induction s as [|c s IH].
  - rewrite app_nil_l. now apply matchCount_allWs.
  - rewrite (matchCount_unfold _ _ (String c s +:+ b)), matchCountHere_eq.
    rewrite (matchCount_unfold _ _ (String c s)), (matchCountHere_eq _ _ (String c s)).
    rewrite spanDigits_app;
      [| discriminate | rewrite (allWs_head _ Hb); apply andb_false_r].
    cbn [fst snd]. rewrite !prefix_app_ws; try assumption; try discriminate.
    rewrite app_cons, IH. reflexivity.
Qed.

(** The white space [runGit] trims off does not change what is matched. *)
Lemma matchCount_trim (word sign s : string) :
  JS.trimEnd (patPlural word sign) = patPlural word sign →
  JS.trimEnd (patSingular word sign) = patSingular word sign →
  JS.matchCount word sign (JS.trim s) = JS.matchCount word sign s.
Proof.
  intros Hp Hs. unfold JS.trim.
  destruct (trimEnd_decomp (JS.trimStart s)) as (b & E & Hb).
  rewrite <- (matchCount_trimStart _ _ s). rewrite E at 2.
  now rewrite matchCount_app_ws.
Qed.

End MatchFacts.

(** ** The diff sizer on the summary of a commit *)

Section Sizer.

Lemma exec_show (r : History.Repo) (sha : string) :
  History.exec r (Git.argv (showCmd sha)) = History.show r sha.
Proof.
  unfold History.exec, showCmd, Git.argv. cbn [map Git.wordArg nth].
  rewrite bool_decide_false by discriminate.
  now rewrite bool_decide_true by reflexivity.
Qed.

Lemma plural_eq (n : nat) (word : string) :
  History.plural n word = pretty n +:+ " " +:+ word +:+ (if n =? 1 then EmptyString else "s").
Proof. reflexivity. Qed.

Lemma matchCount_skip_digit (word sign : string) (c : ascii) (t : string) :
  JS.isDigit c = true → headIsDigit t = false →
  String.prefix (patPlural word sign) t = false →
  String.prefix (patSingular word sign) t = false →
  JS.matchCount word sign (String c t) = JS.matchCount word sign t.
Proof.
  intros Hc Ht Hp Hs.
  apply (matchCount_skip_digits word sign (String c EmptyString) t); try assumption.
  cbn [allDigits]. now rewrite Hc.
Qed.

(** [flat] writes a text with its literal parts character by character;
    [scan] runs the search over them. *)
Local Tactic Notation "flat" :=
  repeat rewrite ?app_assoc', ?app_cons, ?app_nil_l.

Local Tactic Notation "scan" :=
  repeat first
    [ rewrite matchCount_nondigit by reflexivity
    | rewrite matchCount_skip_digit by reflexivity
    | rewrite (matchCount_skip_digits _ _ (pretty _))
        by (apply pretty_digits || reflexivity)
    | rewrite (matchCount_hit _ _ (pretty _))
        by (apply pretty_digits || apply pretty_nonempty || reflexivity) ].

Lemma summary_insertions (h : string) (c : History.Commit) :
  hasChar "(" h = false →
  countOf (JS.matchCount "insertion" "+" (h +:+ History.shortstat c))
  = History.insertions c.
Proof.
  intros Hh. unfold History.shortstat.
  destruct (History.insertions c) as [|i], (History.deletions c) as [|d].
  - rewrite app_empty_r, matchCount_none by (reflexivity || assumption). reflexivity.
  - unfold NL. rewrite matchCount_skip;
      [| reflexivity | reflexivity | assumption | reflexivity | apply andb_false_r].
    rewrite plural_eq. destruct (S d =? 1); flat; scan; reflexivity.
  - unfold NL. rewrite matchCount_skip;
      [| reflexivity | reflexivity | assumption | reflexivity | apply andb_false_r].
    rewrite plural_eq. destruct (S i =? 1); flat; scan; apply parseInt_pretty.
  - unfold NL. rewrite matchCount_skip;
      [| reflexivity | reflexivity | assumption | reflexivity | apply andb_false_r].
    rewrite !plural_eq. destruct (S i =? 1); flat; scan; apply parseInt_pretty.
Qed.

Lemma summary_deletions (h : string) (c : History.Commit) :
  hasChar "(" h = false →
  countOf (JS.matchCount "deletion" "-" (h +:+ History.shortstat c))
  = History.deletions c.
Proof.
  intros Hh. unfold History.shortstat.
  destruct (History.insertions c) as [|i], (History.deletions c) as [|d].
  - rewrite app_empty_r, matchCount_none by (reflexivity || assumption). reflexivity.
  - unfold NL. rewrite matchCount_skip;
      [| reflexivity | reflexivity | assumption | reflexivity | apply andb_false_r].
    rewrite plural_eq. destruct (S d =? 1); flat; scan; apply parseInt_pretty.
  - unfold NL. rewrite matchCount_skip;
      [| reflexivity | reflexivity | assumption | reflexivity | apply andb_false_r].
    rewrite plural_eq. destruct (S i =? 1); flat; scan; reflexivity.
  - unfold NL. rewrite matchCount_skip;
      [| reflexivity | reflexivity | assumption | reflexivity | apply andb_false_r].
    rewrite !plural_eq. destruct (S i =? 1), (S d =? 1); flat; scan; apply parseInt_pretty.
Qed.

Lemma lastIsDigit_app (a b : string) :
  b ≠ EmptyString → lastIsDigit (a +:+ b) = lastIsDigit b.
Proof.
  intros Hb. induction a as [|x a IH]; [reflexivity |].
  rewrite app_cons. cbn [lastIsDigit]. rewrite IH.
  destruct (a +:+ b) eqn:E; [| reflexivity].
  destruct a; [| discriminate]. rewrite app_nil_l in E. contradiction.
Qed.

Lemma lastIsDigit_snoc (c : ascii) (a : string) :
  lastIsDigit (String c a) = if String.eqb a EmptyString then JS.isDigit c else lastIsDigit a.
Proof. destruct a; reflexivity. Qed.

Lemma digits_head (ds t : string) :
  allDigits ds = true → ds ≠ EmptyString → headIsDigit (ds +:+ t) = true.
Proof.
  destruct ds as [|c ds]; [congruence |]. cbn [allDigits]. intros H _.
  apply andb_prop in H as [Hc _]. rewrite app_cons. exact Hc.
Qed.

Lemma digits_breaks (ds t : string) :
  allDigits ds = true → ds ≠ EmptyString → breaks (ds +:+ t) = true.
Proof.
  destruct ds as [|c ds]; [congruence |]. cbn [allDigits]. intros H _.
  apply andb_prop in H as [Hc _]. rewrite app_cons. cbn [breaks]. now rewrite Hc.
Qed.

Lemma strPrefix_app (p t : string) : String.prefix p (p +:+ t) = true.
Proof.
  induction p as [|a p IH]; [apply strPrefix_nil |].
  now rewrite app_cons, strPrefix_cons, Ascii.eqb_refl.
Qed.

Lemma show_named (r : History.Repo) (c : History.Commit) :
  named r c →
  History.show r (History.sha c)
  = Some (History.sha c +:+ " " +:+ History.subject c +:+ History.shortstat c).
Proof. unfold named, History.show. now intros ->. Qed.

Variable config : Config.

(** The magnitudes read from what git shows for a commit of a history. *)
Lemma diffStatOf_named (r : History.Repo) (c : History.Commit) :
  named r c →
  hasChar "(" (History.sha c) = false →
  hasChar "(" (History.subject c) = false →
  diffStatOf (History.exec r) (History.sha c)
  = Some (History.insertions c, History.deletions c).
Proof.
  intros Hn Hsha Hsub. unfold diffStatOf.
  rewrite exec_show, (show_named _ _ Hn).
  rewrite !matchCount_trim by reflexivity.
  assert (hasChar "(" (History.sha c +:+ " " +:+ History.subject c) = false) as Hh.
  { rewrite !hasChar_app, Hsha, Hsub. reflexivity. }
  replace (History.sha c +:+ " " +:+ History.subject c +:+ History.shortstat c)
    with ((History.sha c +:+ " " +:+ History.subject c) +:+ History.shortstat c)
    by now rewrite !app_assoc'.
  now rewrite summary_insertions, summary_deletions.
Qed.

(** X1. For a commit whose short id and subject hold no opening
    parenthesis, the diff sizer returns the numbers of inserted and deleted
    lines of the summary that [git show --shortstat --oneline] prints:
    singular and plural forms, a summary with insertions only, with
    deletions only, and no summary at all (0, 0). *)
Theorem sizer_reads_git_summary (r : History.Repo) (c : History.Commit) (w : World) :
  named r c →
  hasChar "(" (History.sha c) = false →
  hasChar "(" (History.subject c) = false →
  getInsertionsDeletionsFromCommit config (History.exec r) (History.sha c) w
  = (Ok (History.insertions c, History.deletions c), w).
Proof.
  intros Hn Hsha Hsub. rewrite getInsertionsDeletions_eq.
  now rewrite diffStatOf_named.
Qed.

(** X2. The count is taken from the first text of the form
    [<digits> insertion(+)] or [<digits> insertions(+)] in what git prints,
    and [--oneline] puts the subject before the summary: when the subject
    of a commit holds such a text, the sizer returns its number as the
    insertions, whatever the commit inserted. *)
Theorem subject_text_precedes_summary (r : History.Repo) (c : History.Commit)
    (a p b : string) (n : nat) (w : World) :
  named r c →
  hasChar "(" (History.sha c) = false →
  History.subject c = a +:+ pretty n +:+ p +:+ b →
  p = patPlural "insertion" "+" ∨ p = patSingular "insertion" "+" →
  hasChar "(" a = false → lastIsDigit a = false →
  ∃ d, getInsertionsDeletionsFromCommit config (History.exec r) (History.sha c) w
       = (Ok (n, d), w).
Proof.
  intros Hn Hsha Hsub Hp Ha Hl. rewrite getInsertionsDeletions_eq. unfold diffStatOf.
  rewrite exec_show, (show_named _ _ Hn). eexists. f_equal. f_equal. f_equal.
  rewrite matchCount_trim by reflexivity. rewrite Hsub.
  set (tail := b +:+ History.shortstat c).
  replace (History.sha c +:+ " " +:+ (a +:+ pretty n +:+ p +:+ b) +:+ History.shortstat c)
    with ((History.sha c +:+ " " +:+ a) +:+ pretty n +:+ p +:+ tail)
    by (unfold tail; now rewrite !app_assoc').
  rewrite matchCount_skip.
  - rewrite matchCount_hit; [apply parseInt_pretty | apply pretty_digits
                             | apply pretty_nonempty | |].
    + destruct Hp as [-> | ->]; reflexivity.
    + destruct Hp as [-> | ->]; rewrite strPrefix_app; [reflexivity | apply orb_true_r].
  - reflexivity.
  - reflexivity.
  - rewrite !hasChar_app, Hsha, Ha. reflexivity.
  - apply digits_breaks; [apply pretty_digits | apply pretty_nonempty].
  - rewrite lastIsDigit_app by discriminate.
    rewrite app_cons, app_nil_l, lastIsDigit_snoc.
    destruct (String.eqb a EmptyString); [reflexivity | now rewrite Hl].
Qed.

End Sizer.

Lemma sizer_reads_git_summary_witness :
  getInsertionsDeletionsFromCommit Scenario.config (History.exec Scenario.linear)
    "a1b2c3d" Scenario.fresh
  = (Ok (15, 3), Scenario.fresh).
Proof.
  apply (sizer_reads_git_summary Scenario.config Scenario.linear Scenario.h1
           Scenario.fresh); reflexivity.
Defined.

Lemma subject_text_precedes_summary_witness :
  ∃ d, getInsertionsDeletionsFromCommit Scenario.config
         (History.exec
            {| History.branch := "main";
               History.commits :=
                 [{| History.sha := "0c1d2e3"; History.parents := [];
                     History.authorEmail := Scenario.alice;
                     History.authorDate := "2024-10-05T10:00:00-07:00";
                     History.subject := "Revert 120 insertions(+) of the parser";
                     History.insertions := 2; History.deletions := 7 |}] |})
         "0c1d2e3" Scenario.fresh
       = (Ok (120, d), Scenario.fresh).
Proof.
  apply (subject_text_precedes_summary Scenario.config _
           {| History.sha := "0c1d2e3"; History.parents := [];
              History.authorEmail := Scenario.alice;
              History.authorDate := "2024-10-05T10:00:00-07:00";
              History.subject := "Revert 120 insertions(+) of the parser";
              History.insertions := 2; History.deletions := 7 |}
           "Revert " (patPlural "insertion" "+") " of the parser" 120 Scenario.fresh);
    first [reflexivity | left; reflexivity].
Defined.

(** ** The history reader *)

Section Reader.

Variable config : Config.

Lemma exec_log_source (r : History.Repo) :
  branchName config = History.branch r →
  History.exec r (Git.argv (logSourceCmd config))
  = Some (JS.join NL (map logLine (rev (History.commits r)))).
Proof.
  intros Hb. unfold History.exec, logSourceCmd, Git.argv.
  cbn [map Git.wordArg]. rewrite bool_decide_true by reflexivity.
  rewrite bool_decide_true by exact Hb.
  unfold History.log.
  change (History.formatOf _) with (Some "%h%x1f%ae%x1f%aI").
  rewrite (bool_decide_false ("--no-merges" ∈ _)).
  2:{ intros H. apply list_elem_of_In in H.
      destruct H as [H | [H | []]]; vm_compute in H; discriminate. }
  rewrite (bool_decide_true ("--reverse" ∈ _)).
  2:{ apply list_elem_of_In. now left. }
  f_equal. f_equal. apply map_ext. intros c. unfold logLine.
  cbn [History.expand]. now rewrite app_empty_r.
Qed.

Lemma trimEnd_noWs (s : string) : noWs s = true → JS.trimEnd s = s.
Proof.
  induction s as [|c s IH]; [reflexivity |]. cbn [noWs]. intros H.
  apply andb_prop in H as [Hc Hs]. rewrite trimEnd_char, (IH Hs).
  apply negb_true_iff in Hc. rewrite Hc. now destruct s.
Qed.

Lemma noWs_allWs (s : string) :
  s ≠ EmptyString → noWs s = true → allWs s = false.
Proof.
  destruct s as [|c s]; [congruence |]. cbn [noWs allWs]. intros _ H.
  apply andb_prop in H as [Hc _]. apply negb_true_iff in Hc. now rewrite Hc.
Qed.

Lemma join_head (sep x : string) (l : list string) :
  ∃ t, JS.join sep (x :: l) = x +:+ t.
Proof.
  destruct l as [|y l].
  - exists EmptyString. cbn [JS.join]. now rewrite app_empty_r.
  - eexists. now rewrite join_cons.
Qed.

Lemma join_last (sep : string) (l : list string) (y : string) :
  ∃ t, JS.join sep (l ++ [y]) = t +:+ y.
Proof.
  destruct l as [|x l].
  - exists EmptyString. reflexivity.
  - exists (JS.join sep (x :: l) +:+ sep). rewrite join_app by done.
    cbn [JS.join]. now rewrite app_assoc'.
Qed.

Lemma plainField_spec (s : string) :
  plainField s = true →
  s ≠ EmptyString ∧ noWs s = true ∧ hasChar US s = false.
Proof.
  unfold plainField. intros H. apply andb_prop in H as [H1 H2].
  apply isShortId_spec in H1 as [Hne Hn]. apply negb_true_iff in H2. auto.
Qed.

Lemma loggable_spec (c : History.Commit) :
  loggable c = true →
  plainField (History.sha c) = true
  ∧ hasChar US (History.authorEmail c) = false
  ∧ hasChar LF (History.authorEmail c) = false
  ∧ plainField (History.authorDate c) = true.
Proof.
  unfold loggable. intros H.
  apply andb_prop in H as [H H4]. apply andb_prop in H as [H H3].
  apply andb_prop in H as [H1 H2].
  apply negb_true_iff in H2. apply negb_true_iff in H3. auto.
Qed.

Lemma logLine_no_LF (c : History.Commit) :
  loggable c = true → hasChar LF (logLine c) = false.
Proof.
  intros H. apply loggable_spec in H as (H1 & _ & H3 & H4).
  apply plainField_spec in H1 as (_ & H1 & _).
  apply plainField_spec in H4 as (_ & H4 & _).
  unfold logLine. rewrite hasChar_app. cbn [hasChar]. rewrite hasChar_app.
  cbn [hasChar]. rewrite H3.
  rewrite !(noWs_no_char LF) by (assumption || reflexivity). reflexivity.
Qed.

(** The fields the reader takes from the log line of a commit. *)
Lemma parseLogLine_logLine (c : History.Commit) :
  loggable c = true → parseLogLine (logLine c) = Scenario.parsed c.
Proof.
  intros H. apply loggable_spec in H as (H1 & H2 & _ & H4).
  apply plainField_spec in H1 as (_ & _ & H1).
  apply plainField_spec in H4 as (_ & _ & H4).
  unfold parseLogLine, logLine, unitSeparatorString.
  rewrite !split_sep, !split_no_sep by assumption. reflexivity.
Qed.

Lemma trim_logLines (cs : list History.Commit) :
  cs ≠ [] → Forall (fun c => loggable c = true) cs →
  JS.trim (JS.join NL (map logLine cs)) = JS.join NL (map logLine cs).
Proof.
  intros Hne Hall. unfold JS.trim.
  assert (JS.trimStart (JS.join NL (map logLine cs)) = JS.join NL (map logLine cs)) as ->.
  { destruct cs as [|c cs]; [congruence |]. cbn [map].
    destruct (join_head NL (logLine c) (map logLine cs)) as [t ->].
    apply Forall_cons in Hall as [Hc _].
    apply loggable_spec in Hc as (H1 & _). apply plainField_spec in H1 as (Hn & Hw & _).
    unfold logLine. destruct (History.sha c) as [|x sha]; [congruence |].
    cbn [noWs] in Hw. apply andb_prop in Hw as [Hx _]. apply negb_true_iff in Hx.
    rewrite !app_cons. cbn [JS.trimStart]. now rewrite Hx. }
  destruct (exists_last Hne) as (init & c & ->).
  apply Forall_app in Hall as [_ Hc]. apply Forall_cons in Hc as [Hc _].
  apply loggable_spec in Hc as (_ & _ & _ & H4).
  apply plainField_spec in H4 as (Hn & Hw & _).
  rewrite map_app. cbn [map].
  destruct (join_last NL (map logLine init) (logLine c)) as [t ->].
  unfold logLine.
  replace (t +:+ History.sha c
             +:+ String US (History.authorEmail c +:+ String US (History.authorDate c)))
    with ((t +:+ History.sha c +:+ String US (History.authorEmail c +:+ String US EmptyString))
            +:+ History.authorDate c)
    by (rewrite !app_assoc', !app_cons, !app_assoc', !app_cons; reflexivity).
  rewrite trimEnd_app_r by now apply noWs_allWs.
  now rewrite trimEnd_noWs.
Qed.

(** The entries read from the log of a history. *)
Lemma sourceCommits_history (r : History.Repo) :
  branchName config = History.branch r →
  History.commits r ≠ [] →
  Forall (fun c => loggable c = true) (History.commits r) →
  sourceCommits config (History.exec r)
  = Some (map Scenario.parsed (rev (History.commits r))).
Proof.
  intros Hb Hne Hall.
  unfold sourceCommits. rewrite (exec_log_source _ Hb).
  assert (rev (History.commits r) ≠ []) as Hne'.
  { intros E. apply (f_equal (@rev _)) in E. rewrite rev_involutive in E. contradiction. }
  assert (Forall (fun c => loggable c = true) (rev (History.commits r))) as Hall'.
  { apply Forall_forall. intros c Hc. apply list_elem_of_In, in_rev in Hc.
    apply list_elem_of_In in Hc. revert c Hc. now apply Forall_forall. }
  rewrite !trim_logLines by assumption.
  rewrite split_join.
  - rewrite map_map. f_equal. apply map_ext_in. intros c Hc.
    apply parseLogLine_logLine. apply list_elem_of_In in Hc.
    revert c Hc. now apply Forall_forall.
  - destruct (rev (History.commits r)); [congruence | discriminate].
  - apply Forall_map. eapply Forall_impl; [exact Hall' |].
    intros c Hc. now apply logLine_no_LF.
Qed.

(** X3. Over a history of commits with plain fields, the history reader
    returns one entry per commit that [git log <branch>] walks, oldest
    first, with the short id, the author e-mail and the author date of
    the commit. *)
Theorem history_reader_round_trip (r : History.Repo) (w : World) :
  branchName config = History.branch r →
  History.commits r ≠ [] →
  Forall (fun c => loggable c = true) (History.commits r) →
  getCommitsDataFromRepoSource config (History.exec r) w
  = (Ok (map Scenario.parsed (rev (History.commits r))), w).
Proof.
  intros Hb Hne Hall.
  destruct (getCommitsData_eq config (History.exec r) w) as [o ->].
  now rewrite sourceCommits_history.
Qed.

Variable source : SourceRepo.

(** X4. The history reader never returns the empty list: an empty log
    is read as one entry with the empty short id and no e-mail. The test
    of [main] for an empty list, with its warning that no commits data
    was found, never succeeds. *)
Theorem history_reader_never_returns_nothing (w w' : World) (l : list CommitData) :
  getCommitsDataFromRepoSource config source w = (Ok l, w') →
  (length l =? 0) = false.
Proof.
  destruct (getCommitsData_eq config source w) as [o ->].
  unfold sourceCommits. destruct (source _) as [out |]; [| discriminate].
  intros [= <- _]. destruct (split_cons LF (JS.trim (JS.trim out))) as (h & t & ->).
  reflexivity.
Qed.

(** X5. When the log of the source branch is empty or blank, [main]
    warns that no commit author matched the configured e-mails and ends
    the process with status 1; the target repository is not touched. *)
Theorem blank_history_ends_the_run (dryRun : bool) (w : World) (out : string) :
  source (Git.argv (logSourceCmd config)) = Some out →
  allWs out = true →
  main config dryRun source w
  = (Exit 1,
     print (Warn ("No commit authors matched config.commitAuthorEmailsSource: "
                  +:+ JS.join ", " (commitAuthorEmailsSource config)))
           (started w)).
Proof.
  intros Hs Hout. unfold main, bind, console_log.
  destruct (getCommitsData_eq config source
              (print (Log EmptyString) (print (Log "Starting shadow-git-activity...") w)))
    as [o ->].
  unfold sourceCommits. rewrite Hs. unfold JS.trim.
  rewrite (trimStart_allWs _ Hout). reflexivity.
Qed.

End Reader.

Lemma history_reader_round_trip_witness :
  getCommitsDataFromRepoSource Scenario.config (History.exec Scenario.merged)
    Scenario.fresh
  = (Ok (map Scenario.parsed [Scenario.h1; Scenario.s1; Scenario.t1; Scenario.m1]),
     Scenario.fresh).
Proof.
  apply (history_reader_round_trip Scenario.config Scenario.merged Scenario.fresh);
    [reflexivity | discriminate | repeat constructor].
Defined.

Lemma history_reader_never_returns_nothing_witness :
  (length [{| commitShaSource := EmptyString; commitAuthorEmailSource := None;
              commitAuthorDateSource := None |}] =? 0) = false.
Proof.
  apply (history_reader_never_returns_nothing Scenario.config (fun _ => Some EmptyString)
           Scenario.fresh Scenario.fresh).
  reflexivity.
Defined.

Lemma blank_history_ends_the_run_witness :
  main Scenario.config false (fun _ => Some NL) Scenario.fresh
  = (Exit 1,
     print (Warn ("No commit authors matched config.commitAuthorEmailsSource: "
                  +:+ JS.join ", " (commitAuthorEmailsSource Scenario.config)))
           (started Scenario.fresh)).
Proof.
  apply (blank_history_ends_the_run Scenario.config (fun _ => Some NL) false
           Scenario.fresh NL); reflexivity.
Defined.

(** ** Runs that fail, and the runs after them *)

Section Recovery.

Variable config : Config.
Variable source : SourceRepo.





Lemma loop_skip_prefix dryRun L pre cs lines w :
  Forall (skips source L) pre →
  ∃ w0, processCommits config dryRun source L (pre ++ cs) lines w
        = processCommits config dryRun source L cs lines w0
        ∧ target w0 = target w.
Proof.
  revert w. induction pre as [|c pre IH]; intros w H.
  - exists w. split; reflexivity.
  - apply Forall_cons in H as [[V | V] Hpre]; cbn [app].
    + rewrite (step_inLedger _ _ _ _ _ _ _ _ V).
      destruct (IH (skippedShadowed c w) Hpre) as (w0 & E & T). eauto.
    + rewrite (step_zeroDiff _ _ _ _ _ _ _ _ V).
      destruct (IH (skippedZeroDiff c w) Hpre) as (w0 & E & T). eauto.
Qed.

Lemma adjust_deletions_only (lines : list string) (sha : string) (d : nat) :
  length lines ≤ d → adjustShadowLogLines lines sha 0 d = [].
Proof.
  intros H. unfold adjustShadowLogLines, JS.slice0, JS.Array_fill. cbn [replicate].
  rewrite app_nil_r. rewrite Nat.min_r by exact H. rewrite Nat.sub_diag.
  apply take_0.
Qed.

Lemma blocked_run (w : World) (all pre rest : list CommitData) (c : CommitData) (d : nat) :
  sourceCommits config source = Some all →
  filterCommits config all = pre ++ c :: rest →
  Forall (skips source (ledgerOf (target w))) pre →
  verdict source (ledgerOf (target w)) c = Mirror 0 d →
  Git.headArtifact (target w) = Some EmptyString →
  Git.worktree (target w) = Some EmptyString →
  ∃ w1, main config false source w = (Throw, w1)
        ∧ target w1 = staged EmptyString (target w).
Proof.
  intros Hall Hf Hpre V Hh Hw.
  assert (Git.commits (target w) ≠ []) as Htc.
  { intros E. unfold Git.headArtifact in Hh. rewrite E in Hh. discriminate. }
  rewrite (main_loop config source false w all Hall); [| rewrite Hf; now destruct pre | exact Htc].
  rewrite Hf.
  destruct (loop_skip_prefix false _ pre (c :: rest) (loadedLines (target w))
              (started w) Hpre) as (w0 & -> & T).
  rewrite (step_mirror _ _ _ _ _ _ _ _ _ _ V). cbn zeta.
  assert (adjustShadowLogLines (loadedLines (target w)) (commitShaSource c) 0 d = []) as ->.
  { apply adjust_deletions_only. unfold loadedLines. rewrite Hw. cbn.
    apply verdict_mirror in V as (_ & _ & Z). destruct d; [discriminate | lia]. }
  cbn [JS.join]. cbn [started withTarget target] in T.
  rewrite bool_decide_true by now rewrite T, Hh.
  eexists. split; [reflexivity |]. cbn [print withTarget target]. now rewrite T.
Qed.

(** X8. A commit that only deletes lines cannot be mirrored when the
    shadow log is already empty in the last commit and in the working
    tree of the target repository: the file stays empty, git has nothing
    to commit, and the run throws. The target repository keeps its
    commits, and a later run with the same source history throws again
    and changes nothing. *)
Theorem deletions_on_an_empty_log_block_the_run
    (w : World) (all pre rest : list CommitData) (c : CommitData) (d : nat) :
  sourceCommits config source = Some all →
  filterCommits config all = pre ++ c :: rest →
  Forall (skips source (ledgerOf (target w))) pre →
  verdict source (ledgerOf (target w)) c = Mirror 0 d →
  Git.headArtifact (target w) = Some EmptyString →
  Git.worktree (target w) = Some EmptyString →
  ∃ w1, main config false source w = (Throw, w1)
        ∧ Git.commits (target w1) = Git.commits (target w)
        ∧ ∃ w2, main config false source w1 = (Throw, w2)
                ∧ target w2 = target w1.
Proof.
  intros Hall Hf Hpre V Hh Hw.
  destruct (blocked_run w all pre rest c d Hall Hf Hpre V Hh Hw) as (w1 & E1 & T1).
  exists w1. split; [exact E1 |]. split; [now rewrite T1 |].
  assert (ledgerOf (target w1) = ledgerOf (target w)) as HL by now rewrite T1.
  destruct (blocked_run w1 all pre rest c d Hall Hf) as (w2 & E2 & T2).
  - now rewrite HL.
  - now rewrite HL.
  - rewrite T1. exact Hh.
  - now rewrite T1.
  - exists w2. split; [exact E2 |]. rewrite T2, T1. reflexivity.
Qed.

End Recovery.



Lemma deletions_on_an_empty_log_block_the_run_witness :
  ∃ w1, main Scenario.config false (History.exec Shrinking.later) Shrinking.emptied
        = (Throw, w1)
        ∧ Git.commits (target w1) = Git.commits (target Shrinking.emptied)
        ∧ ∃ w2, main Scenario.config false (History.exec Shrinking.later) w1 = (Throw, w2)
                ∧ target w2 = target w1.
Proof.
  apply (deletions_on_an_empty_log_block_the_run Scenario.config
           (History.exec Shrinking.later) Shrinking.emptied
           (map Scenario.parsed [Shrinking.d1; Shrinking.d2; Shrinking.d3])
           (map Scenario.parsed [Shrinking.d1; Shrinking.d2]) []
           (Scenario.parsed Shrinking.d3) 1).
  - vm_compute. reflexivity.
  - vm_compute. reflexivity.
  - repeat constructor; left; vm_compute; reflexivity.
  - vm_compute. reflexivity.
  - vm_compute. reflexivity.
  - vm_compute. reflexivity.
Defined.

(** ** The configuration *)

Section EmailFacts.

Lemma oneOrMore_spec (k : string → bool) (s : string) :
  RegExp.oneOrMore notSpaceNorAt k s = true
  ↔ ∃ x t, s = x +:+ t ∧ plainPart x ∧ k t = true.
Proof.
  induction s as [|c s IH]; cbn [RegExp.oneOrMore].
  - split; [discriminate |]. intros (x & t & E & [Hne _] & _).
    destruct x; [congruence | discriminate].
  - rewrite andb_true_iff, orb_true_iff, IH. split.
    + intros [Hc [(x & t & -> & [Hne Hx] & Hk) | Hk]].
      * exists (String c x), t. repeat split; [discriminate | | assumption].
        cbn [plainChars]. now rewrite Hc.
      * exists (String c EmptyString), s. repeat split; [discriminate | | assumption].
        cbn [plainChars]. now rewrite Hc.
    + intros (x & t & E & [Hne Hx] & Hk). destruct x as [|c' x]; [congruence |].
      rewrite app_cons in E. injection E as -> ->.
      cbn [plainChars] in Hx. apply andb_prop in Hx as [Hc Hx]. split; [assumption |].
      destruct x as [|c'' x].
      * right. exact Hk.
      * left. exists (String c'' x), t. repeat split; [discriminate | assumption..].
Qed.

Lemma one_char_spec (a : ascii) (rest : list RegExp.Item) (s : string) :
  RegExp.test (RegExp.One (RegExp.Char a) :: rest) s = true
  ↔ ∃ t, s = String a t ∧ RegExp.test rest t = true.
Proof.
  destruct s as [|c s]; cbn [RegExp.test RegExp.atomMatches].
  - split; [discriminate | intros (t & E & _); discriminate].
  - rewrite andb_true_iff, Ascii.eqb_eq. split.
    + intros [-> H]. eauto.
    + intros (t & [= -> ->] & H). auto.
Qed.

Lemma test_end (s : string) : RegExp.test [] s = true ↔ s = EmptyString.
Proof. destruct s; cbn; split; congruence. Qed.

Lemma more_spec (rest : list RegExp.Item) (s : string) :
  RegExp.test (RegExp.OneOrMore notSpaceNorAt :: rest) s = true
  ↔ ∃ x t, s = x +:+ t ∧ plainPart x ∧ RegExp.test rest t = true.
Proof. apply (oneOrMore_spec (RegExp.test rest)). Qed.

(** X9. The expression the script tests the target e-mail with accepts
    exactly the texts [a@b.c] in which [a], [b] and [c] are not empty and
    hold neither white space nor [@]. *)
Theorem emailRegExp_accepts (s : string) :
  RegExp.test emailRegExp s = true
  ↔ ∃ a b c, s = a +:+ "@" +:+ b +:+ "." +:+ c
             ∧ plainPart a ∧ plainPart b ∧ plainPart c.
Proof.
  unfold emailRegExp. rewrite more_spec. split.
  - intros (a & t & -> & Ha & H). apply one_char_spec in H as (t1 & -> & H).
    apply more_spec in H as (b & t2 & -> & Hb & H).
    apply one_char_spec in H as (t3 & -> & H).
    apply more_spec in H as (c & t4 & -> & Hc & H).
    apply test_end in H. subst t4. exists a, b, c. rewrite app_empty_r. auto.
  - intros (a & b & c & -> & Ha & Hb & Hc). exists a. eexists. split; [reflexivity |].
    split; [assumption |]. rewrite app_cons, app_nil_l. apply one_char_spec.
    eexists. split; [reflexivity |]. apply more_spec.
    exists b. eexists. split; [reflexivity |]. split; [assumption |].
    rewrite app_cons, app_nil_l. apply one_char_spec.
    eexists. split; [reflexivity |]. apply more_spec.
    exists c, EmptyString. rewrite app_empty_r. repeat split; try apply Hc.
Qed.

End EmailFacts.

Section ValidationFacts.

Variable directory : string → bool.

(** The validation of a configuration object: the first check that fails
    ends the process with its line; when none fails the settings are
    returned and nothing is printed. *)
Lemma validateConfig_object (fields : gmap string JSON.Value) (w : World) :
  validateConfig directory (JSON.Object fields) w
  = match List.find fst (checks directory fields) with
    | Some (_, message) => (Exit 1, print (Error message) w)
    | None => (Ok (settingsOf fields), w)
    end.
Proof.
  unfold validateConfig, checks, settingsOf, property. cbv zeta.
  unfold bind at 1. unfold ret at 1. unfold bind at 1.
  cbn [List.find fst].
  destruct (negb (isDirectory directory (fields !! "repoPathSource"))); [reflexivity |].
  cbn [rejectWhen]. unfold ret at 1. unfold bind at 1. unfold ret at 1. unfold bind at 1.
  destruct (negb (isDirectory directory (fields !! "repoPathTarget"))); [reflexivity |].
  cbn [rejectWhen]. unfold ret at 1. unfold bind at 1. unfold ret at 1. unfold bind at 1.
  destruct (negb (isFilledString (fields !! "branchName"))); [reflexivity |].
  cbn [rejectWhen]. unfold ret at 1. unfold bind at 1. unfold ret at 1. unfold bind at 1.
  match goal with |- context [rejectWhen ?b _] => destruct b end; [reflexivity |].
  cbn [rejectWhen]. unfold ret at 1. unfold bind at 1.
  match goal with |- context [rejectWhen ?b _] => destruct b end; [reflexivity |].
  cbn [rejectWhen]. unfold ret at 1. unfold bind at 1. unfold ret at 1. unfold bind at 1.
  destruct (negb (isFilledString (fields !! "commitAuthorNameTarget"))); [reflexivity |].
  cbn [rejectWhen]. unfold ret at 1. unfold bind at 1. unfold ret at 1. unfold bind at 1.
  match goal with |- context [rejectWhen ?b _] => destruct b end; reflexivity.
Qed.

Lemma validateConfig_null (w : World) :
  validateConfig directory JSON.Null w = (Throw, w).
Proof. reflexivity. Qed.

Lemma validateConfig_no_object (config : JSON.Value) (w : World) :
  config ≠ JSON.Null → (∀ fields, config ≠ JSON.Object fields) →
  validateConfig directory config w
  = (Exit 1,
     print (Error ("Config 'repoPathSource' is missing or not a directory: "
                   +:+ quoted "undefined")) w).
Proof.
  intros Hn Ho. destruct config; try reflexivity; [congruence |].
  now destruct (Ho fields).
Qed.

Lemma isDirectory_true (v : option JSON.Value) :
  isDirectory directory v = true ↔ ∃ p, v = Some (JSON.Str p) ∧ directory p = true.
Proof.
  split.
  - destruct v as [[] |]; try discriminate. cbn. eauto.
  - intros (p & -> & H). exact H.
Qed.

Lemma isFilledString_true (v : option JSON.Value) :
  isFilledString v = true ↔ ∃ s, v = Some (JSON.Str s) ∧ JS.trim s ≠ EmptyString.
Proof.
  split.
  - destruct v as [[] |]; try discriminate. cbn. intros H.
    apply negb_true_iff, String.eqb_neq in H. eauto.
  - intros (s & -> & H). cbn. now apply negb_true_iff, String.eqb_neq.
Qed.

Lemma filled_items (items : list JSON.Value) :
  forallb (fun email => isFilledString (Some email)) items = true
  ↔ ∃ emails, items = map JSON.Str emails
              ∧ Forall (fun email => JS.trim email ≠ EmptyString) emails.
Proof.
  induction items as [|x items IH]; cbn [forallb].
  - split; [intros _; exists []; split; [reflexivity | constructor] | reflexivity].
  - rewrite andb_true_iff, IH, isFilledString_true. split.
    + intros [(s & [= ->] & Hs) (emails & -> & Hall)].
      exists (s :: emails). split; [reflexivity | now constructor].
    + intros ([|s emails] & E & Hall); [discriminate |].
      injection E as -> ->. apply Forall_cons in Hall as [Hs Hall].
      split; [exists s | exists emails]; split; (reflexivity || assumption).
Qed.

Lemma toString_Str (emails : list string) :
  map JSON.toString (map JSON.Str emails) = emails.
Proof. rewrite map_map. apply map_id. Qed.

(** What the validation returns, it returns for an accepted
    configuration, with its settings, having printed nothing. *)
Lemma validateConfig_ok (config : JSON.Value) (cfg : Config) (w w' : World) :
  validateConfig directory config w = (Ok cfg, w') →
  accepted directory config cfg ∧ w' = w.
Proof.
  destruct config as [| b | t | s | items | fields];
    try (rewrite validateConfig_no_object by (congruence || (intros; congruence));
         discriminate);
    [rewrite validateConfig_null; discriminate |].
  rewrite validateConfig_object. unfold checks. cbv zeta. cbn [List.find fst].
  destruct (isDirectory directory (fields !! "repoPathSource")) eqn:E1;
    cbn [negb]; [| discriminate].
  destruct (isDirectory directory (fields !! "repoPathTarget")) eqn:E2;
    cbn [negb]; [| discriminate].
  destruct (isFilledString (fields !! "branchName")) eqn:E3; cbn [negb]; [| discriminate].
  destruct (fields !! "commitAuthorEmailsSource") as [[| | | | items |] |] eqn:E4;
    try discriminate.
  destruct (length items =? 0) eqn:E4'; [discriminate |].
  destruct (forallb _ items) eqn:E5; cbn [negb]; [| discriminate].
  destruct (isFilledString (fields !! "commitAuthorNameTarget")) eqn:E6;
    cbn [negb]; [| discriminate].
  destruct (fields !! "commitAuthorEmailTarget") as [[| | | m | |] |] eqn:E7;
    try discriminate.
  destruct (RegExp.test emailRegExp m) eqn:E7'; cbn [negb]; [| discriminate].
  intros [= <- <-]. split; [| reflexivity].
  apply isDirectory_true in E1 as (p1 & F1 & D1).
  apply isDirectory_true in E2 as (p2 & F2 & D2).
  apply isFilledString_true in E3 as (b & F3 & T3).
  apply filled_items in E5 as (emails & -> & T5).
  apply isFilledString_true in E6 as (n & F6 & T6).
  exists fields. unfold settingsOf, settings.
  rewrite F1, F2, F3, E4, F6, E7. cbn [template JSON.toString repoPathSource
    repoPathTarget branchName commitAuthorEmailsSource commitAuthorNameTarget
    commitAuthorEmailTarget]. rewrite toString_Str.
  repeat split; try assumption; try reflexivity.
  intros ->. discriminate.
Qed.

(** For an accepted configuration the validation returns its settings. *)
Lemma validateConfig_accepted (config : JSON.Value) (cfg : Config) (w : World) :
  accepted directory config cfg →
  validateConfig directory config w = (Ok cfg, w).
Proof.
  intros (fields & -> & F1 & D1 & F2 & D2 & F3 & T3 & F4 & N4 & T4 & F6 & T6 & F7 & T7).
  destruct cfg as [p1 p2 b emails n m]. cbn [repoPathSource repoPathTarget branchName
    commitAuthorEmailsSource commitAuthorNameTarget commitAuthorEmailTarget] in *.
  rewrite validateConfig_object. unfold checks. cbv zeta. cbn [List.find fst].
  rewrite F1, F2, F3, F4, F6, F7. cbn [isDirectory]. rewrite D1, D2, T7. cbn [negb].
  rewrite (proj2 (isFilledString_true _)) by eauto. cbn [negb].
  rewrite length_map.
  destruct emails as [|e es] eqn:E; [congruence |].
  cbn [length Nat.eqb]. rewrite <- E in *.
  rewrite (proj2 (filled_items _)) by eauto. cbn [negb].
  rewrite (proj2 (isFilledString_true _)) by eauto. cbn [negb].
  f_equal. f_equal. unfold settingsOf, settings. rewrite F1, F2, F3, F4, F6, F7.
  cbn [template JSON.toString]. now rewrite toString_Str.
Qed.

(** X10. The validation returns exactly for an accepted configuration:
    an object whose two paths are directories, whose branch name and
    author name are strings that are not blank, whose e-mails are a
    non-empty array of such strings and whose target e-mail matches the
    expression. It returns the settings with these values and prints
    nothing. *)
Theorem validateConfig_accepts (config : JSON.Value) (cfg : Config) (w w' : World) :
  validateConfig directory config w = (Ok cfg, w')
  ↔ accepted directory config cfg ∧ w' = w.
Proof.
  split.
  - apply validateConfig_ok.
  - intros [Ha ->]. now apply validateConfig_accepted.
Qed.

(** The three ways the validation ends. *)
Lemma validateConfig_cases (config : JSON.Value) (w : World) :
  (∃ cfg, validateConfig directory config w = (Ok cfg, w))
  ∨ (∃ message, validateConfig directory config w = (Exit 1, print (Error message) w))
  ∨ (config = JSON.Null ∧ validateConfig directory config w = (Throw, w)).
Proof.
  destruct config as [| b | t | s | items | fields];
    try (right; left; eexists; apply validateConfig_no_object; congruence).
  - right. right. split; reflexivity.
  - rewrite validateConfig_object.
    destruct (List.find fst (checks directory fields)) as [[failed message] |].
    + right. left. eexists. reflexivity.
    + left. eexists. reflexivity.
Qed.


End ValidationFacts.

Section ScriptFacts.

Variable directory : string → bool.



Lemma main_dry_target config source w r w' :
  main config true source w = (r, w') → target w' = target w.
Proof.
  intros H.
  destruct (main_inv _ _ _ _ _ _ H) as [[_ Ht] | (all & Hall & Hf & Htc)];
    [exact Ht |].
  rewrite (main_loop config source true w all Hall Hf Htc) in H.
  destruct (processCommits _ _ _ _ _ _ _) as [rl wl] eqn:Hl.
  apply loop_dry_target in Hl. cbn [started withTarget target] in Hl.
  destruct rl; inversion H; subst; exact Hl.
Qed.

Lemma script_accepted (config : JSON.Value) (cfg : Config) (dryRun : bool)
    (source : SourceRepo) (w : World) :
  accepted directory config cfg →
  script directory (Present (Some config)) dryRun source w
  = catch (main cfg dryRun source)
          (console_error "Error during processing:" ;;; process_exit 1) w.
Proof.
  intros H. unfold script, loadConfig. unfold bind at 1. unfold ret at 1.
  unfold bind at 1.
  now rewrite (validateConfig_accepted directory config cfg w H).
Qed.


(** X13. The script writes to the target repository only through
    [main], under an accepted configuration and without [--dry-run]: in
    every other run the target repository is left as it was. *)
Theorem script_writes_need_accepted_config (file : ConfigFile) (dryRun : bool)
    (source : SourceRepo) (w w' : World) (r : Res unit) :
  script directory file dryRun source w = (r, w') →
  target w' ≠ target w →
  dryRun = false
  ∧ ∃ config cfg r0 w0,
      file = Present (Some config)
      ∧ accepted directory config cfg
      ∧ main cfg false source w = (r0, w0)
      ∧ target w' = target w0.
Proof.
  destruct file as [| [config |]].
  - unfold script, loadConfig, bind, console_error, process_exit.
    intros [= <- <-] H. now destruct H.
  - destruct (validateConfig_cases directory config w)
      as [[cfg E] | [(message & E) | [-> E]]].
    + apply validateConfig_ok in E as [Ha _].
      rewrite (script_accepted _ _ _ _ _ Ha). unfold catch.
      destruct (main cfg dryRun source w) as [r0 w0] eqn:Hm. intros H Hne.
      assert (target w' = target w0) as Ht.
      { destruct r0; inversion H; subst; reflexivity. }
      destruct dryRun.
      * apply main_dry_target in Hm. congruence.
      * split; [reflexivity |]. exists config, cfg, r0, w0. auto.
    + unfold script, loadConfig. unfold bind at 1. unfold ret at 1.
      unfold bind at 1. rewrite E. intros [= <- <-] H. now destruct H.
    + unfold script, loadConfig. unfold bind at 1. unfold ret at 1.
      unfold bind at 1. rewrite E. intros [= <- <-] H. now destruct H.
  - unfold script, loadConfig, bind, throw. intros [= <- <-] H. now destruct H.
Qed.

End ScriptFacts.

Lemma emailRegExp_accepts_witness :
  RegExp.test emailRegExp "public@example.net" = true.
Proof.
  apply (proj2 (emailRegExp_accepts "public@example.net")).
  exists "public", "example", "net". repeat split; discriminate.
Defined.

Lemma validateConfig_accepts_witness :
  accepted Setup.directory Setup.configJson Scenario.config
  ∧ Scenario.fresh = Scenario.fresh.
Proof.
  apply (proj1 (validateConfig_accepts Setup.directory Setup.configJson Scenario.config
                  Scenario.fresh Scenario.fresh)).
  vm_compute. reflexivity.
Defined.


Lemma script_writes_need_accepted_config_witness :
  false = false
  ∧ ∃ config cfg r0 w0,
      Present (Some Setup.configJson) = Present (Some config)
      ∧ accepted Setup.directory config cfg
      ∧ main cfg false (History.exec Scenario.linear) Scenario.fresh = (r0, w0)
      ∧ target Scenario.afterFirstRun = target w0.
Proof.
  apply (script_writes_need_accepted_config Setup.directory
           (Present (Some Setup.configJson)) false (History.exec Scenario.linear)
           Scenario.fresh Scenario.afterFirstRun (Ok tt)).
  - vm_compute. reflexivity.
  - vm_compute. discriminate.
Defined.

(** ** Mirroring in more than one run *)

Section SplitPieces.

Lemma split_piece_no_sep (sep : ascii) (s p : string) :
  In p (JS.split sep s) → hasChar sep p = false.
Proof.
  revert p. induction s as [|c s IH]; intros p.
  - intros [<- | []]. reflexivity.
  - rewrite split_char. destruct (split_cons sep s) as (h & t & E). rewrite E in *.
    destruct (Ascii.eqb c sep) eqn:Ec.
    + intros [<- | H]; [reflexivity | now apply IH].
    + intros [<- | H]; [| apply IH; now right].
      cbn [hasChar]. rewrite Ec. apply IH. now left.
Qed.

Lemma split_piece_no_char (sep c : ascii) (s p : string) :
  hasChar c s = false → In p (JS.split sep s) → hasChar c p = false.
Proof.
  revert p. induction s as [|x s IH]; intros p Hs.
  - intros [<- | []]. reflexivity.
  - cbn [hasChar] in Hs. apply orb_false_elim in Hs as [Hx Hs].
    rewrite split_char. destruct (split_cons sep s) as (h & t & E). rewrite E in *.
    destruct (Ascii.eqb x sep).
    + intros [<- | H]; [reflexivity | now apply IH].
    + intros [<- | H]; [| apply IH; [assumption | now right]].
      cbn [hasChar]. rewrite Hx. apply IH; [assumption | now left].
Qed.

Lemma digits_no_char (c : ascii) (s : string) :
  JS.isDigit c = false → allDigits s = true → hasChar c s = false.
Proof.
  intros Hc. induction s as [|x s IH]; [reflexivity |]. cbn [allDigits hasChar].
  intros H. apply andb_prop in H as [Hx Hs]. rewrite (IH Hs), orb_false_r.
  apply Ascii.eqb_neq. intros ->. congruence.
Qed.

Lemma parseLogLine_oneLine (logLine : string) :
  hasChar LF logLine = false → oneLine (parseLogLine logLine) = true.
Proof.
  intros H. unfold parseLogLine, oneLine.
  pose proof (split_piece_no_char unitSeparatorString LF logLine) as Hp.
  destruct (JS.split unitSeparatorString logLine) as [|sha fields]; [reflexivity |].
  cbn [commitShaSource commitAuthorDateSource commitAuthorEmailSource].
  rewrite (Hp sha) by (assumption || now left). cbn [negb andb].
  assert (∀ k, hasChar LF (JS.toString (fields !! k)) = false) as Hf.
  { intros k. destruct (fields !! k) as [f |] eqn:E; [| reflexivity].
    apply Hp; [assumption |]. right. apply list_elem_of_In.
    eapply list_elem_of_lookup_2, E. }
  now rewrite !Hf.
Qed.

Lemma sourceCommits_oneLine config source all :
  sourceCommits config source = Some all →
  Forall (fun c => oneLine c = true) all.
Proof.
  unfold sourceCommits. destruct (source _) as [out |]; [| discriminate].
  intros [= <-]. apply Forall_forall. intros c Hc.
  apply list_elem_of_In, in_map_iff in Hc as (l & <- & Hl).
  apply parseLogLine_oneLine. eapply split_piece_no_sep, Hl.
Qed.

End SplitPieces.

Section LedgerAfter.

Lemma trimStart_app_ws (a r : string) :
  allWs a = true → JS.trimStart (a +:+ r) = JS.trimStart r.
Proof.
  induction a as [|c a IH]; [reflexivity |]. cbn [allWs]. intros H.
  apply andb_prop in H as [Hc Ha]. rewrite app_cons. cbn [JS.trimStart].
  rewrite Hc. auto.
Qed.

Lemma hasChar_trimEnd (c : ascii) (s : string) :
  hasChar c s = false → hasChar c (JS.trimEnd s) = false.
Proof.
  destruct (trimEnd_decomp s) as (b & E & _). rewrite E at 1.
  rewrite hasChar_app. intros H. now apply orb_false_elim in H as [H _].
Qed.

Lemma ledgerLine_head (m : string) :
  ledgerLine m → ∃ x m', m = String x m' ∧ JS.isWhiteSpace x = false.
Proof.
  intros (id & rest & -> & Hid & _). apply isShortId_spec in Hid as [Hne Hn].
  destruct id as [|x id]; [congruence |]. cbn [noWs] in Hn.
  apply andb_prop in Hn as [Hx _]. apply negb_true_iff in Hx.
  rewrite app_cons. eauto.
Qed.

Lemma ledgerLine_not_blank (m : string) : ledgerLine m → allWs m = false.
Proof.
  intros H. destruct (ledgerLine_head m H) as (x & m' & -> & Hx).
  cbn [allWs]. now rewrite Hx.
Qed.

Lemma ledgerLine_firstPart (m : string) :
  ledgerLine m → isShortId (firstPart m) = true
                 ∧ firstPart (JS.trimEnd m) = firstPart m.
Proof.
  intros (id & rest & -> & Hid & _). pose proof Hid as Hid'.
  apply isShortId_spec in Hid' as [Hne Hn].
  pose proof (noWs_no_char SP id isWhiteSpace_SP Hn) as Hsp.
  rewrite firstPart_token by assumption. split; [assumption |].
  destruct (allWs rest) eqn:Er.
  - replace (id +:+ String SP rest) with (id +:+ (String SP rest)) by reflexivity.
    rewrite trimEnd_app_ws by (cbn [allWs]; now rewrite isWhiteSpace_SP, Er).
    rewrite trimEnd_noWs by assumption.
    unfold firstPart. now rewrite split_no_sep.
  - replace (id +:+ String SP rest) with ((id +:+ String SP EmptyString) +:+ rest)
      by (rewrite app_assoc', app_cons, app_nil_l; reflexivity).
    rewrite trimEnd_app_r by assumption.
    rewrite app_assoc', app_cons, app_nil_l. now apply firstPart_token.
Qed.

Lemma join_ledgerLines_head (news : list string) :
  news ≠ [] → Forall ledgerLine news →
  ∃ x m', JS.join NL news = String x m' ∧ JS.isWhiteSpace x = false.
Proof.
  destruct news as [|m news]; [congruence |]. intros _ H.
  apply Forall_cons in H as [Hm _].
  destruct (ledgerLine_head m Hm) as (x & m' & -> & Hx).
  destruct (join_head NL (String x m') news) as [t ->]. rewrite app_cons. eauto.
Qed.

Lemma firstParts_lines (lines : list string) :
  lines ≠ [] → Forall (fun l => hasChar LF l = false) lines →
  firstParts (JS.join NL lines) = map firstPart lines.
Proof. intros Hne H. unfold firstParts. now rewrite split_join. Qed.

Lemma ledgerLine_no_LF (news : list string) :
  Forall ledgerLine news → Forall (fun l => hasChar LF l = false) news.
Proof.
  intros H. eapply Forall_impl; [exact H |]. now intros m (id & rest & _ & _ & Hm).
Qed.

(** The first pieces of the lines of a log of such messages, after the
    white space at its end is trimmed off. *)
Lemma firstParts_trimEnd_ledgerLines (news : list string) :
  news ≠ [] → Forall ledgerLine news →
  firstParts (JS.trimEnd (JS.join NL news)) = map firstPart news.
Proof.
  intros Hne Hall. destruct (exists_last Hne) as (init & m & ->).
  apply Forall_app in Hall as [Hinit Hm]. apply Forall_cons in Hm as [Hm _].
  pose proof (ledgerLine_not_blank m Hm) as Hb.
  destruct (ledgerLine_firstPart m Hm) as [_ Hf].
  assert (hasChar LF (JS.trimEnd m) = false) as Hlf.
  { apply hasChar_trimEnd. now destruct Hm as (id & rest & _ & _ & H). }
  rewrite map_app. cbn [map]. rewrite <- Hf.
  destruct init as [|m0 init].
  - cbn [app JS.join map]. unfold firstParts. now rewrite split_no_sep.
  - rewrite join_app by done. change (JS.join NL [m]) with m. rewrite <- app_assoc'.
    rewrite trimEnd_app_r by assumption. rewrite app_assoc', app_NL.
    unfold firstParts. rewrite split_sep, map_app.
    rewrite split_join by (done || now apply ledgerLine_no_LF).
    now rewrite split_no_sep.
Qed.

(** The ledger after such messages are added to a log holds, of the
    short ids, those it held and those that lead the new messages. *)
Lemma ledger_after (olds news : list string) (t : string) :
  news ≠ [] → Forall ledgerLine news →
  In t (firstParts (JS.trim (JS.join NL (olds ++ news)))) →
  isShortId t = true →
  In t (firstParts (JS.trim (JS.join NL olds))) ∨ In t (map firstPart news).
Proof.
  intros Hne Hall Hin Ht.
  destruct (join_ledgerLines_head news Hne Hall) as (x & m' & EN & Hx).
  assert (allWs (JS.join NL news) = false) as HNb.
  { rewrite EN. cbn [allWs]. now rewrite Hx. }
  assert (JS.trimStart (JS.join NL news) = JS.join NL news) as HNs.
  { rewrite EN. cbn [JS.trimStart]. now rewrite Hx. }
  destruct olds as [|o olds].
  - right. cbn [app] in Hin. unfold JS.trim in Hin. rewrite HNs in Hin.
    now rewrite firstParts_trimEnd_ledgerLines in Hin.
  - rewrite join_app in Hin by done. unfold JS.trim in Hin.
    destruct (allWs (JS.join NL (o :: olds))) eqn:Eo.
    + right. rewrite trimStart_app_ws in Hin by assumption.
      change (NL +:+ JS.join NL news) with (String LF (JS.join NL news)) in Hin.
      cbn [JS.trimStart] in Hin.
      rewrite isWhiteSpace_LF, HNs in Hin.
      now rewrite firstParts_trimEnd_ledgerLines in Hin.
    + rewrite trimStart_app_l in Hin by assumption.
      rewrite <- app_assoc', trimEnd_app_r in Hin by assumption.
      rewrite app_assoc', app_NL in Hin. unfold firstParts in Hin.
      rewrite split_sep, map_app, in_app_iff in Hin.
      destruct Hin as [Hin | Hin].
      * left. unfold JS.trim. now apply firstParts_trimEnd.
      * right. now rewrite <- firstParts_trimEnd_ledgerLines.
Qed.

End LedgerAfter.

Section LoopComposition.

Variable config : Config.

Lemma step_unreadable_eq dryRun source L c rest lines w :
  verdict source L c = Unreadable →
  processCommits config dryRun source L (c :: rest) lines w
  = (Throw,
     print (Error ("Git command failed: git "
                   +:+ Git.cmdText (showCmd (commitShaSource c))
                   +:+ " on path " +:+ repoPathSource config)) w).
Proof.
  unfold verdict. cbn [processCommits].
  destruct (bool_decide (commitShaSource c ∈ L)); [discriminate |].
  unfold bind at 1. rewrite getInsertionsDeletions_eq.
  destruct (diffStatOf source (commitShaSource c)) as [[i d] |]; [| reflexivity].
  destruct ((i =? 0) && (d =? 0)); discriminate.
Qed.

Lemma verdict_source_ext source1 source2 L c :
  diffStatOf source1 (commitShaSource c) = diffStatOf source2 (commitShaSource c) →
  verdict source1 L c = verdict source2 L c.
Proof. unfold verdict. now intros ->. Qed.

Lemma plan_source_ext source1 source2 L cs :
  Forall (fun c => diffStatOf source1 (commitShaSource c)
                   = diffStatOf source2 (commitShaSource c)) cs →
  plan source1 L cs = plan source2 L cs.
Proof.
  induction 1 as [|c cs Hc _ IH]; [reflexivity |]. cbn [plan].
  now rewrite (verdict_source_ext _ _ _ _ Hc), IH.
Qed.

(** The loop reads the source repository through the magnitudes only. *)
Lemma loop_source_ext dryRun source1 source2 L cs lines w :
  Forall (fun c => diffStatOf source1 (commitShaSource c)
                   = diffStatOf source2 (commitShaSource c)) cs →
  processCommits config dryRun source1 L cs lines w
  = processCommits config dryRun source2 L cs lines w.
Proof.
  intros H. revert lines w. induction H as [|c cs Hc _ IH]; intros lines w;
    [reflexivity |].
  pose proof (verdict_source_ext _ _ L _ Hc) as Hv.
  destruct (verdict source1 L c) eqn:V; symmetry in Hv.
  - now rewrite (step_inLedger _ _ _ _ _ _ _ _ V), (step_inLedger _ _ _ _ _ _ _ _ Hv).
  - now rewrite (step_zeroDiff _ _ _ _ _ _ _ _ V), (step_zeroDiff _ _ _ _ _ _ _ _ Hv).
  - rewrite (step_mirror _ _ _ _ _ _ _ _ _ _ V), (step_mirror _ _ _ _ _ _ _ _ _ _ Hv).
    cbn zeta. destruct dryRun; [apply IH |]. destruct (bool_decide _); [reflexivity | apply IH].
  - now rewrite (step_unreadable_eq _ _ _ _ _ _ _ V), (step_unreadable_eq _ _ _ _ _ _ _ Hv).
Qed.

(** The loop over two lists in a row. *)
Lemma loop_app dryRun source L cs1 cs2 lines w :
  processCommits config dryRun source L (cs1 ++ cs2) lines w
  = match processCommits config dryRun source L cs1 lines w with
    | (Ok b, w') => processCommits config dryRun source L cs2 b w'
    | (Throw, w') => (Throw, w')
    | (Exit n, w') => (Exit n, w')
    end.
Proof.
  revert lines w. induction cs1 as [|c cs1 IH]; intros lines w; [reflexivity |].
  cbn [app]. destruct (verdict source L c) eqn:V.
  - now rewrite !(step_inLedger _ _ _ _ _ _ _ _ V).
  - now rewrite !(step_zeroDiff _ _ _ _ _ _ _ _ V).
  - rewrite !(step_mirror _ _ _ _ _ _ _ _ _ _ V). cbn zeta.
    destruct dryRun; [apply IH |]. destruct (bool_decide _); [reflexivity | apply IH].
  - now rewrite !(step_unreadable_eq _ _ _ _ _ _ _ V).
Qed.

(** Two loops over the same commits, from the same target repository
    and shadow log, with ledgers that agree on these commits, end alike
    and leave the same target repository. *)
Lemma loop_sim source L L' cs lines wa wb :
  target wa = target wb →
  Forall (fun c => verdict source L c = verdict source L' c) cs →
  match processCommits config false source L cs lines wa,
        processCommits config false source L' cs lines wb with
  | (ra, wa'), (rb, wb') => ra = rb ∧ target wa' = target wb'
  end.
Proof.
  intros Ht H. revert lines wa wb Ht.
  induction H as [|c cs Hc _ IH]; intros lines wa wb Ht; [now split |].
  destruct (verdict source L c) eqn:V; symmetry in Hc.
  - rewrite (step_inLedger _ _ _ _ _ _ _ _ V), (step_inLedger _ _ _ _ _ _ _ _ Hc).
    now apply IH.
  - rewrite (step_zeroDiff _ _ _ _ _ _ _ _ V), (step_zeroDiff _ _ _ _ _ _ _ _ Hc).
    now apply IH.
  - rewrite (step_mirror _ _ _ _ _ _ _ _ _ _ V), (step_mirror _ _ _ _ _ _ _ _ _ _ Hc).
    cbn zeta. rewrite Ht. destruct (bool_decide _).
    + split; [reflexivity |]. cbn [print withTarget target]. reflexivity.
    + apply IH. cbn [print withTarget target]. reflexivity.
  - rewrite (step_unreadable_eq _ _ _ _ _ _ _ V), (step_unreadable_eq _ _ _ _ _ _ _ Hc).
    split; [reflexivity | exact Ht].
Qed.

(** After a normal loop that returned, the shadow log file holds the
    shadow log the loop ended with, unless the loop mirrored nothing. *)
Lemma loop_worktree source L cs lines w b w' :
  processCommits config false source L cs lines w = (Ok b, w') →
  (plan source L cs = [] ∧ target w' = target w)
  ∨ Git.worktree (target w') = Some (JS.join NL b).
Proof.
  revert lines w. induction cs as [|c cs IH]; intros lines w H.
  - cbn in H. inversion H. now left.
  - cbn [plan]. destruct (verdict source L c) eqn:V.
    + rewrite (step_inLedger _ _ _ _ _ _ _ _ V) in H.
      apply IH in H as [[Hp Ht] | H]; [now left | now right].
    + rewrite (step_zeroDiff _ _ _ _ _ _ _ _ V) in H.
      apply IH in H as [[Hp Ht] | H]; [now left | now right].
    + rewrite (step_mirror _ _ _ _ _ _ _ _ _ _ V) in H. cbn zeta in H.
      destruct (bool_decide _); [discriminate |]. right.
      pose proof (loop_final _ _ _ _ _ _ _ _ _ H) as Hb.
      apply IH in H as [[Hp Ht] | H]; [| exact H].
      rewrite Ht, Hb, Hp. reflexivity.
    + rewrite (step_unreadable_eq _ _ _ _ _ _ _ V) in H. discriminate.
Qed.

Lemma adjust_no_LF (lines : list string) (sha : string) (i d : nat) :
  Forall (fun l => hasChar LF l = false) lines → hasChar LF sha = false →
  Forall (fun l => hasChar LF l = false) (adjustShadowLogLines lines sha i d).
Proof.
  intros Hl Hs. unfold adjustShadowLogLines, JS.slice0, JS.Array_fill.
  apply Forall_app. split.
  - now apply Forall_take.
  - now apply Forall_replicate.
Qed.

Lemma finalLines_no_LF (p : list (CommitData * nat * nat)) (lines : list string) :
  Forall (fun l => hasChar LF l = false) lines →
  Forall (fun x => hasChar LF (commitShaSource (fst (fst x))) = false) p →
  Forall (fun l => hasChar LF l = false) (finalLines p lines).
Proof.
  intros Hl Hp. revert lines Hl. induction Hp as [|[[c i] d] p Hc _ IH]; intros lines Hl;
    [exact Hl |].
  cbn [finalLines]. apply IH. now apply adjust_no_LF.
Qed.

Lemma loadedLines_no_LF (r : Git.Repo) :
  Forall (fun l => hasChar LF l = false) (loadedLines r).
Proof.
  unfold loadedLines. destruct (Git.worktree r) as [s |]; [| constructor].
  apply Forall_forall. intros l Hl. apply list_elem_of_In in Hl.
  eapply split_piece_no_sep, Hl.
Qed.

End LoopComposition.

Section Incremental.

Variable config : Config.
Variables source1 source2 : SourceRepo.

Lemma formatMessage_ledgerLine (c : CommitData) (i d : nat) :
  isShortId (commitShaSource c) = true → oneLine c = true →
  ledgerLine (formatMessage c i d).
Proof.
  intros Hid Hc. exists (commitShaSource c). eexists.
  split; [unfold formatMessage; rewrite app_cons, app_nil_l; reflexivity |].
  split; [assumption |].
  unfold oneLine in Hc. apply andb_prop in Hc as [Hc H3]. apply andb_prop in Hc as [H1 H2].
  apply negb_true_iff in H1, H2, H3.
  unfold formatMessage, JS.numToString. rewrite !hasChar_app, H1, H2, H3.
  rewrite (digits_no_char LF (pretty i)), (digits_no_char LF (pretty d))
    by (reflexivity || apply pretty_digits).
  reflexivity.
Qed.

Lemma shadowCommits_subjects (p : list (CommitData * nat * nat)) (lines : list string) :
  map Git.subject (shadowCommits config p lines)
  = map (fun x => formatMessage (fst (fst x)) (snd (fst x)) (snd x)) p.
Proof.
  revert lines. induction p as [|[[c i] d] p IH]; intros lines; [reflexivity |].
  cbn [shadowCommits map fst snd]. now rewrite IH.
Qed.

Lemma filterCommits_app (all1 all2 : list CommitData) :
  filterCommits config (all1 ++ all2)
  = filterCommits config all1 ++ filterCommits config all2.
Proof. unfold filterCommits. apply List.filter_app. Qed.

(** X14. Mirroring in two runs gives what mirroring in one run gives.
    The source history grows by new commits between two normal runs; the
    first run returns. Then the second run ends as a single run over the
    grown history from the first state ends, and leaves the same target
    repository: the same commits with the same shadow log. Assumed: the
    short ids of the log are not empty and free of white space, no new
    commit has the short id of an older one, git reports the same
    magnitudes for the older commits in both histories, no line of the log of the target
    repository ends in white space, and the first run does not leave the
    shadow log file empty. *)
Theorem two_runs_mirror_like_one (w w1 w2 w' : World) (r2 r : Res unit)
    (all1 all2 : list CommitData) :
  sourceCommits config source1 = Some all1 →
  sourceCommits config source2 = Some (all1 ++ all2) →
  (∀ c, In c (filterCommits config all1) →
        diffStatOf source1 (commitShaSource c) = diffStatOf source2 (commitShaSource c)) →
  Forall (fun c => isShortId (commitShaSource c) = true)
         (filterCommits config (all1 ++ all2)) →
  (∀ c1 c2, In c1 (filterCommits config all1) → In c2 (filterCommits config all2) →
            commitShaSource c1 ≠ commitShaSource c2) →
  cleanLines (JS.join NL (map Git.subject (Git.commits (target w)))) →
  main config false source1 w = (Ok tt, w1) →
  Git.worktree (target w1) ≠ Some EmptyString →
  main config false source2 w1 = (r2, w2) →
  main config false source2 w = (r, w') →
  r2 = r ∧ target w2 = target w'.
Proof.
  intros Hall1 Hall2 Hstat Hids Hfresh Hclean HA Hfile HB HW.
  set (cs1 := filterCommits config all1) in *.
  set (cs2 := filterCommits config all2) in *.
  set (L := ledgerOf (target w)) in *.
  set (lines0 := loadedLines (target w)) in *.
  rewrite filterCommits_app in Hids. fold cs1 cs2 in Hids.
  apply Forall_app in Hids as [Hids1 Hids2].
  assert (Forall (fun c => oneLine c = true) cs1) as Hone1.
  { apply Forall_forall. intros c Hc. apply list_elem_of_In in Hc.
    apply filter_In in Hc as [Hc _].
    pose proof (sourceCommits_oneLine _ _ _ Hall1) as H.
    rewrite Forall_forall in H. apply H. now apply list_elem_of_In. }
  assert (Forall (fun c => diffStatOf source1 (commitShaSource c)
                           = diffStatOf source2 (commitShaSource c)) cs1) as Hext.
  { apply Forall_forall. intros c Hc. apply Hstat. now apply list_elem_of_In. }
  (* the first run *)
  destruct (main_ok_readable _ _ _ _ _ HA) as (all & Hall & Hf1 & Htc & Hread).
  rewrite Hall1 in Hall. injection Hall as <-. fold cs1 in Hf1, Hread. fold L in Hread.
  rewrite (main_loop config source1 false w all1 Hall1 Hf1 Htc) in HA.
  fold cs1 L lines0 in HA.
  destruct (processCommits config false source1 L cs1 lines0 (started w))
    as [[b | | n] wA] eqn:HloopA; try discriminate.
  injection HA as <-.
  pose proof (loop_final _ _ _ _ _ _ _ _ _ HloopA) as Hb.
  destruct (loop_commits _ _ _ _ _ _ _ _ HloopA) as (new & Hnew & _ & Hnew').
  specialize (Hnew' b eq_refl). cbn [started withTarget target] in Hnew.
  pose proof (loop_worktree _ _ _ _ _ _ _ _ HloopA) as Hwt.
  cbn [started withTarget target] in Hwt.
  cbn [finished print target] in Hfile.
  (* the shadow log the second run loads *)
  assert (loadedLines (target wA) = b) as Hlines.
  { destruct Hwt as [[Hp Ht] | Hwt].
    - rewrite Ht, Hb, Hp. reflexivity.
    - unfold loadedLines. rewrite Hwt. apply split_join.
      + intros ->. now rewrite Hwt in Hfile.
      + rewrite Hb. apply finalLines_no_LF; [apply loadedLines_no_LF |].
        apply Forall_forall. intros [[c i] d] Hc. apply list_elem_of_In, plan_in in Hc as [Hc _].
        cbn [fst]. rewrite Forall_forall in Hids1.
        specialize (Hids1 c (proj2 (list_elem_of_In _ _) Hc)).
        apply isShortId_spec in Hids1 as [_ Hn].
        now apply (noWs_no_char LF _ isWhiteSpace_LF). }
  (* the ledger the second run reads *)
  set (L1 := ledgerOf (target wA)).
  assert (∀ c i d, In c cs1 → verdict source1 L c = Mirror i d →
                   commitShaSource c ∈ L1) as Hmir.
  { intros c i d Hc V.
    assert (In (c, i, d) (plan source1 L cs1)) as Hp by now apply plan_in.
    destruct (in_shadowCommits config _ lines0 c i d Hp) as [l Hl].
    rewrite <- Hnew' in Hl. apply (ledger_has_mirrored config _ c i d l).
    - rewrite Forall_forall in Hids1. apply Hids1. now apply list_elem_of_In.
    - rewrite Hnew. apply in_or_app. now right. }
  assert (∀ t, isShortId t = true → t ∈ L → t ∈ L1) as Hgrow.
  { intros t Ht Hin. unfold L, L1 in *.
    destruct (target w) as [olds ix wt] eqn:Ew.
    destruct (target wA) as [csA ixA wtA] eqn:EwA.
    cbn [Git.commits] in Hnew, Hclean. subst csA.
    now apply (ledger_grows olds new ix wt ixA wtA). }
  assert (∀ t, isShortId t = true → t ∈ L1 →
               t ∈ L ∨ ∃ c, In c cs1 ∧ t = commitShaSource c) as Hafter.
  { intros t Ht Hin. unfold L1 in Hin. apply ledgerOf_in in Hin. rewrite Hnew in Hin.
    destruct new as [|n0 new0] eqn:En.
    { left. apply ledgerOf_in. now rewrite app_nil_r in Hin. }
    rewrite <- En in *. rewrite map_app in Hin.
    assert (Forall (fun x => In (fst (fst x)) cs1) (plan source1 L cs1)) as Hpl.
    { apply Forall_forall. intros [[c i] d] Hc. apply list_elem_of_In, plan_in in Hc.
      now destruct Hc. }
    apply ledger_after in Hin as [Hin | Hin]; [| | | | assumption].
    - left. now apply ledgerOf_in.
    - right. rewrite Hnew', shadowCommits_subjects, map_map in Hin.
      apply in_map_iff in Hin as ([[c i] d] & E & Hc). cbn [fst snd] in E.
      rewrite Forall_forall in Hpl. specialize (Hpl _ (proj2 (list_elem_of_In _ _) Hc)).
      cbn [fst] in Hpl. exists c. split; [assumption |].
      rewrite Forall_forall in Hids1.
      rewrite <- E. unfold formatMessage. rewrite app_cons, app_nil_l.
      apply firstPart_token. apply (noWs_no_char SP _ isWhiteSpace_SP).
      specialize (Hids1 c (proj2 (list_elem_of_In _ _) Hpl)).
      now apply isShortId_spec in Hids1 as [_ Hn].
    - rewrite En. destruct new0; discriminate.
    - rewrite Hnew', shadowCommits_subjects. apply Forall_map.
      eapply Forall_impl; [exact Hpl |]. intros [[c i] d] Hc. cbn [fst snd] in *.
      rewrite Forall_forall in Hids1, Hone1.
      apply formatMessage_ledgerLine; [apply Hids1 | apply Hone1];
        now apply list_elem_of_In. }
  (* the second run skips the commits of the first *)
  assert (Forall (skips source2 L1) cs1) as Hskip.
  { apply Forall_forall. intros c Hc. pose proof Hc as Hc'. apply list_elem_of_In in Hc'.
    rewrite Forall_forall in Hread, Hids1.
    specialize (Hread c Hc). specialize (Hids1 c Hc).
    unfold skips. rewrite <- !(verdict_source_ext source1 source2) by now apply Hstat.
    destruct (verdict source1 L c) eqn:V.
    - left. apply verdict_inLedger. apply Hgrow; [assumption |].
      unfold verdict in V. destruct (bool_decide (commitShaSource c ∈ L)) eqn:E.
      + now apply bool_decide_eq_true in E.
      + destruct (diffStatOf source1 (commitShaSource c)) as [[i d] |];
          [destruct ((i =? 0) && (d =? 0)) |]; discriminate.
    - now apply (verdict_zeroDiff _ L).
    - left. apply verdict_inLedger. eapply Hmir; eauto.
    - congruence. }
  (* the new commits are treated alike *)
  assert (Forall (fun c => verdict source2 L c = verdict source2 L1 c) cs2) as Hsame.
  { apply Forall_forall. intros c Hc. pose proof Hc as Hc'. apply list_elem_of_In in Hc'.
    rewrite Forall_forall in Hids2. specialize (Hids2 c Hc).
    unfold verdict.
    destruct (bool_decide (commitShaSource c ∈ L)) eqn:E.
    - apply bool_decide_eq_true in E. now rewrite bool_decide_true by now apply Hgrow.
    - apply bool_decide_eq_false in E. rewrite bool_decide_false; [reflexivity |].
      intros H1. apply Hafter in H1 as [H1 | (c1 & Hc1 & E1)]; [contradiction | | assumption].
      now apply (Hfresh c1 c Hc1 Hc'). }
  (* the single run *)
  assert (filterCommits config (all1 ++ all2) ≠ []) as Hf.
  { rewrite filterCommits_app. fold cs1 cs2. destruct cs1; [contradiction | discriminate]. }
  rewrite (main_loop config source2 false w _ Hall2 Hf Htc) in HW.
  rewrite filterCommits_app in HW. fold cs1 cs2 L lines0 in HW.
  rewrite loop_app in HW.
  rewrite <- (loop_source_ext config false source1 source2 L cs1) in HW by apply Hext.
  rewrite HloopA in HW.
  (* the second run *)
  assert (Git.commits (target (finished wA)) ≠ []) as Htc1.
  { cbn [finished print target]. rewrite Hnew.
    destruct (Git.commits (target w)); [contradiction | discriminate]. }
  rewrite (main_loop config source2 false (finished wA) _ Hall2 Hf Htc1) in HB.
  rewrite filterCommits_app in HB. fold cs1 cs2 in HB.
  change (target (finished wA)) with (target wA) in HB. fold L1 in HB.
  rewrite Hlines in HB.
  destruct (loop_skip_prefix config source2 false L1 cs1 cs2 b (started (finished wA)) Hskip)
    as (w0 & E0 & T0).
  rewrite E0 in HB. cbn [started finished withTarget print target] in T0.
  pose proof (loop_sim config source2 L L1 cs2 b wA w0 (eq_sym T0) Hsame) as Hsim.
  destruct (processCommits config false source2 L cs2 b wA) as [ra wa'].
  destruct (processCommits config false source2 L1 cs2 b w0) as [rb wb'].
  destruct Hsim as [<- Hsim].
  destruct ra as [bb | | n]; inversion HW; inversion HB; subst;
    (split; [reflexivity |]); cbn [finished print target]; congruence.
Qed.

End Incremental.

Lemma two_runs_mirror_like_one_witness :
  Ok tt = Ok tt ∧ target Growing.resumed = target Scenario.afterFirstRun.
Proof.
  apply (two_runs_mirror_like_one Scenario.config (History.exec Growing.first)
           (History.exec Scenario.linear) Scenario.fresh Growing.afterFirst
           Growing.resumed Scenario.afterFirstRun (Ok tt) (Ok tt)
           (map Scenario.parsed [Scenario.h1; Scenario.h2])
           (map Scenario.parsed [Scenario.h3; Scenario.h4])).
  - vm_compute. reflexivity.
  - vm_compute. reflexivity.
  - intros c Hc. vm_compute in Hc. destruct Hc as [<- | []]. vm_compute. reflexivity.
  - vm_compute. repeat constructor.
  - intros c1 c2 H1 H2. vm_compute in H1, H2.
    destruct H1 as [<- | []]. destruct H2 as [<- | [<- | []]]; discriminate.
  - vm_compute. repeat constructor.
  - vm_compute. reflexivity.
  - vm_compute. discriminate.
  - vm_compute. reflexivity.
  - vm_compute. reflexivity.
Defined.

(** ** What a run returns, mirrors and prints *)

Section RunGit.

Variable config : Config.
Variable source : SourceRepo.

Lemma trimEnd_idem (s : string) : JS.trimEnd (JS.trimEnd s) = JS.trimEnd s.
Proof.
  induction s as [|c s IH]; [reflexivity |]. rewrite trimEnd_char.
  destruct (JS.trimEnd s) as [|x r] eqn:E.
  - destruct (JS.isWhiteSpace c) eqn:Ec; [reflexivity |].
    rewrite trimEnd_char. cbn [JS.trimEnd]. now rewrite Ec.
  - rewrite trimEnd_char, IH. reflexivity.
Qed.

Lemma trimStart_head (s : string) :
  JS.trimStart s = EmptyString
  ∨ ∃ c s', JS.trimStart s = String c s' ∧ JS.isWhiteSpace c = false.
Proof.
  induction s as [|c s IH]; [now left |]. cbn [JS.trimStart].
  destruct (JS.isWhiteSpace c) eqn:Ec; [exact IH | right; eauto].
Qed.

Lemma trim_idem (s : string) : JS.trim (JS.trim s) = JS.trim s.
Proof.
  unfold JS.trim. destruct (trimStart_head s) as [-> | (c & s' & -> & Hc)];
    [reflexivity |].
  rewrite trimEnd_char.
  destruct (JS.trimEnd s') as [|x r] eqn:E.
  - rewrite Hc. cbn [JS.trimStart]. rewrite Hc.
    rewrite trimEnd_char. cbn [JS.trimEnd]. now rewrite Hc.
  - cbn [JS.trimStart]. rewrite Hc.
    rewrite trimEnd_char. rewrite <- E, trimEnd_idem, E. reflexivity.
Qed.

(** X15. What [runGit] returns has no white space at its start or end:
    trimming it again changes nothing, so the second [trim] that the
    history reader applies to the log is without effect. *)
Theorem runGit_output_is_trimmed (cwd : Dir) (cmd : Git.Cmd) (env : option Git.Env)
    (w w' : World) (out : string) :
  runGit config source cwd cmd env w = (Ok out, w') → JS.trim out = out.
Proof.
  unfold runGit.
  destruct cwd.
  - destruct (source (Git.argv cmd)) as [o |]; [| discriminate].
    unfold ret. intros [= <- _]. apply trim_idem.
  - destruct (Git.exec (target w) (Git.argv cmd) env) as [[o |] r]; [| discriminate].
    unfold ret. intros [= <- _]. apply trim_idem.
Qed.


Lemma loop_report dryRun L cs lines w b w' :
  processCommits config dryRun source L cs lines w = (Ok b, w') →
  console w' = console w ++ concat (map (report dryRun source L) cs).
Proof.
  revert lines w. induction cs as [|c cs IH]; intros lines w H.
  - cbn in H. inversion H. cbn. now rewrite app_nil_r.
  - cbn [map concat]. unfold report at 1. destruct (verdict source L c) eqn:V.
    + rewrite (step_inLedger _ _ _ _ _ _ _ _ V) in H. apply IH in H. rewrite H.
      cbn [skippedShadowed print console]. now rewrite <- !app_assoc.
    + rewrite (step_zeroDiff _ _ _ _ _ _ _ _ V) in H. apply IH in H. rewrite H.
      cbn [skippedZeroDiff print console]. now rewrite <- !app_assoc.
    + rewrite (step_mirror _ _ _ _ _ _ _ _ _ _ V) in H. cbn zeta in H.
      destruct dryRun.
      * apply IH in H. rewrite H. cbn [print console]. now rewrite <- !app_assoc.
      * destruct (bool_decide _); [discriminate |]. apply IH in H. rewrite H.
        cbn [print withTarget console]. now rewrite <- !app_assoc.
    + rewrite (step_unreadable_eq _ _ _ _ _ _ _ _ V) in H. discriminate.
Qed.

(** X17. A run that returns accounts on the console for every commit of
    the configured authors, once and in the order of the history: after
    the two opening lines, a commit already shadowed gives a warning and
    an empty line, a zero-diff commit one line, a mirrored commit the line
    with its message (a warning in a preview); the three closing lines
    follow. Nothing else is printed. *)
Theorem run_reports_every_commit (dryRun : bool) (w w' : World) :
  main config dryRun source w = (Ok tt, w') →
  ∃ all,
    sourceCommits config source = Some all
    ∧ console w'
      = console w
        ++ [Log "Starting shadow-git-activity..."; Log EmptyString]
        ++ concat (map (report dryRun source (ledgerOf (target w)))
                       (filterCommits config all))
        ++ [Log EmptyString; Log "All commits processed."; Log EmptyString].
Proof.
  intros H. destruct (main_ok_readable _ _ _ _ _ H) as (all & Hall & Hf & Htc & _).
  exists all. split; [assumption |].
  rewrite (main_loop config source dryRun w all Hall Hf Htc) in H.
  destruct (processCommits config dryRun source _ _ _ _) as [[b | | n] wl] eqn:Hl;
    try discriminate.
  injection H as <-. apply loop_report in Hl.
  cbn [finished print console]. rewrite Hl.
  cbn [started withTarget print console]. now rewrite <- !app_assoc.
Qed.

End RunGit.

Lemma runGit_output_is_trimmed_witness :
  JS.trim "Initial commit" = "Initial commit".
Proof.
  apply (runGit_output_is_trimmed Scenario.config (History.exec Scenario.linear)
           TargetDir logTargetCmd None Scenario.fresh Scenario.fresh).
  vm_compute. reflexivity.
Defined.


Lemma run_reports_every_commit_witness :
  ∃ all,
    sourceCommits Scenario.config (History.exec Scenario.linear) = Some all
    ∧ console Scenario.afterPreview
      = console Scenario.fresh
        ++ [Log "Starting shadow-git-activity..."; Log EmptyString]
        ++ concat (map (report true (History.exec Scenario.linear)
                               (ledgerOf (target Scenario.fresh)))
                       (filterCommits Scenario.config all))
        ++ [Log EmptyString; Log "All commits processed."; Log EmptyString].
Proof.
  apply (run_reports_every_commit Scenario.config (History.exec Scenario.linear) true
           Scenario.fresh Scenario.afterPreview).
  vm_compute. reflexivity.
Defined.

(** ** The older variant *)

Section OlderVariant.

Variable config : Config.
Variable source : SourceRepo.

Lemma v1_createShadowCommit_eq (msg : string) (date : option string) (w : World) :
  V1.createShadowCommit config source msg date w =
  if bool_decide (Some msg = Git.headArtifact (target w))
  then (Throw, print (commitFailed config msg) (withTarget (staged msg (target w)) w))
  else (Ok tt,
        withTarget (committed (Git.commitFrom msg (commitEnv config date) (Some msg))
                              msg (target w)) w).
Proof. apply (createShadowCommit_eq config source [msg] msg date w). Qed.

(** A normal loop of the older variant that returns has created one
    commit for each commit that is not in the ledger, in order, and
    counted them. *)
Lemma v1_loop_ok L cs n w m w' :
  V1.processCommits config false source L cs n w = (Ok m, w') →
  Git.commits (target w')
  = Git.commits (target w) ++ map (V1.shadowCommit config) (V1.unshadowed L cs)
  ∧ m = n + length (V1.unshadowed L cs).
Proof.
  revert n w. induction cs as [|c cs IH]; intros n w H.
  - cbn in H. injection H as <- <-. cbn. rewrite app_nil_r. split; [reflexivity | lia].
  - cbn [V1.processCommits] in H. unfold V1.unshadowed. cbn [List.filter].
    fold (V1.unshadowed L cs).
    destruct (bool_decide (commitShaSource c ∈ L)).
    + cbn [negb]. unfold bind at 1, console_warn in H. now apply IH in H.
    + cbn [negb]. unfold bind at 1 2 in H. rewrite v1_createShadowCommit_eq in H.
      destruct (bool_decide _); [discriminate |]. unfold console_log in H.
      apply IH in H as [Hc Hm]. cbn [print withTarget target committed Git.commits] in Hc.
      cbn [map length]. rewrite Hc, <- app_assoc. split; [reflexivity | lia].
Qed.

(** A run of the older variant that returns went through the loop. *)
Lemma v1_main_ok dryRun w w1 :
  V1.main config dryRun source w = (Ok tt, w1) →
  ∃ all m wl,
    sourceCommits config source = Some all
    ∧ filterCommits config all ≠ []
    ∧ Git.commits (target w) ≠ []
    ∧ V1.processCommits config dryRun source (ledgerOf (target w))
        (filterCommits config all) 0 (print (Log EmptyString) (started w)) = (Ok m, wl)
    ∧ target w1 = target wl
    ∧ ∃ before,
        console w1
        = before
          ++ [Log (JS.numToString (length (filterCommits config all))
                   +:+ " source commits processed.");
              (if dryRun
               then Warn ("[dry-run] " +:+ JS.numToString m
                          +:+ " new shadow commits created.")
               else Log (JS.numToString m +:+ " new shadow commits created."));
              Log EmptyString].
Proof.
  unfold V1.main. unfold bind at 1 2 3. unfold console_log at 1 2.
  set (w0 := print (Log EmptyString) (print (Log "Starting shadow-git-activity...") w)).
  destruct (getCommitsData_eq config source w0) as [o1 ->].
  destruct (sourceCommits config source) as [all |]; [| discriminate].
  destruct (length all =? 0).
  { unfold bind, console_warn, process_exit. discriminate. }
  destruct (length (filterCommits config all) =? 0) eqn:Hlen.
  { unfold bind, console_warn, process_exit. discriminate. }
  assert (filterCommits config all ≠ []) as Hf by (intros E; now rewrite E in Hlen).
  unfold bind at 1. destruct (getShadowedShas_eq config source w0) as [o2 ->].
  change (target w0) with (target w).
  destruct (Git.commits (target w)) as [|tc0 tcs] eqn:Htc; [discriminate |].
  unfold bind at 1. unfold console_log at 1. unfold bind at 1.
  change (print (Log EmptyString) (withTarget (target w) w0))
    with (print (Log EmptyString) (started w)).
  unfold ledgerOf. rewrite Htc.
  destruct (V1.processCommits config dryRun source _ _ _ _) as [[m | | n] wl] eqn:Hl;
    try discriminate.
  intros H. exists all, m, wl. split; [reflexivity |]. split; [exact Hf |].
  split; [discriminate |]. split; [exact Hl |].
  unfold bind, console_log, console_warn, ret in H.
  destruct dryRun; injection H as <-; (split; [reflexivity |]);
    exists (console wl ++ [Log EmptyString]); cbn [print console];
    now rewrite <- !app_assoc.
Qed.

(** X18. The counts the older variant ends with are right: when a
    normal run returns, the last lines on the console give the number of
    source commits of the configured authors and the number of commits
    the run added to the target repository. *)
Theorem older_variant_counts_its_commits (w w1 : World) :
  V1.main config false source w = (Ok tt, w1) →
  ∃ all new before,
    sourceCommits config source = Some all
    ∧ Git.commits (target w1) = Git.commits (target w) ++ new
    ∧ console w1
      = before
        ++ [Log (JS.numToString (length (filterCommits config all))
                 +:+ " source commits processed.");
            Log (JS.numToString (length new) +:+ " new shadow commits created.");
            Log EmptyString].
Proof.
  intros H.
  apply v1_main_ok in H as (all & m & wl & Hall & _ & _ & Hl & Ht & before & Hc).
  apply v1_loop_ok in Hl as [Hn Hm]. cbn [print started withTarget target] in Hn.
  exists all, (map (V1.shadowCommit config) (V1.unshadowed (ledgerOf (target w))
                                                (filterCommits config all))), before.
  split; [assumption |]. split; [now rewrite Ht |].
  rewrite Hc, length_map, Hm. reflexivity.
Qed.

(** X19. The newer variant takes over where the older one stopped:
    after a normal run of the older variant that returned, a run of the
    newer variant with the same source history, normal or preview,
    returns and leaves the target repository as it is. Every commit of
    the configured authors is in its ledger, so none is mirrored a second
    time. Assumed, as for two runs of the newer variant: the short ids
    are not empty and free of white space, and no line of the log of the
    target repository before the first run ends in white space. *)
Theorem newer_variant_resumes_the_older (dryRun : bool) (w w1 w2 : World)
    (r2 : Res unit) :
  (∀ all, sourceCommits config source = Some all →
          Forall (fun c => isShortId (commitShaSource c) = true)
                 (filterCommits config all)) →
  cleanLines (JS.join NL (map Git.subject (Git.commits (target w)))) →
  V1.main config false source w = (Ok tt, w1) →
  main config dryRun source w1 = (r2, w2) →
  r2 = Ok tt ∧ target w2 = target w1.
Proof.
  intros Hids Hclean H1 H2.
  apply v1_main_ok in H1 as (all & m & wl & Hall & Hf & Htc & Hl & Ht & _).
  specialize (Hids all Hall).
  apply v1_loop_ok in Hl as [Hn _]. cbn [print started withTarget target] in Hn.
  rewrite <- Ht in Hn.
  set (L := ledgerOf (target w)) in *. set (cs := filterCommits config all) in *.
  assert (Forall (fun c => commitShaSource c ∈ ledgerOf (target w1)) cs) as Hin.
  { apply Forall_forall. intros c Hc. rewrite Forall_forall in Hids.
    specialize (Hids c Hc). apply list_elem_of_In in Hc.
    destruct (bool_decide (commitShaSource c ∈ L)) eqn:E.
    - apply bool_decide_eq_true in E. unfold L in E.
      destruct (target w) as [olds ix wt] eqn:Ew.
      destruct (target w1) as [cs1 ix1 wt1] eqn:Ew1.
      cbn [Git.commits] in Hn, Hclean. subst cs1.
      now apply (ledger_grows olds _ ix wt ix1 wt1).
    - apply ledgerOf_in, firstParts_trim; [assumption |].
      apply isShortId_spec in Hids as [_ Hw].
      apply (firstParts_join _ _ (JS.toString (commitAuthorDateSource c) +:+ " "
                                   +:+ JS.toString (commitAuthorEmailSource c)) Hw).
      rewrite Hn, map_app. apply in_or_app. right. rewrite map_map.
      apply in_map_iff. exists c. split.
      + cbn. unfold V1.formatMessage. now rewrite app_cons, app_nil_l.
      + apply filter_In. split; [assumption |]. now rewrite E. }
  assert (Git.commits (target w1) ≠ []) as Htc1.
  { rewrite Hn. destruct (Git.commits (target w)); [contradiction | discriminate]. }
  rewrite (main_loop config source dryRun w1 all Hall Hf Htc1) in H2.
  destruct (loop_all_skipped config source dryRun (ledgerOf (target w1)) cs
              (loadedLines (target w1)) (started w1)) as (w' & E & T).
  { eapply Forall_impl; [exact Hin |]. intros c Hc. left. now apply verdict_inLedger. }
  fold cs in H2. rewrite E in H2. injection H2 as <- <-. split; [reflexivity |].
  exact T.
Qed.

End OlderVariant.

Lemma older_variant_counts_its_commits_witness :
  ∃ all new before,
    sourceCommits Scenario.config (History.exec Scenario.linear) = Some all
    ∧ Git.commits (target Older.afterOlderRun)
      = Git.commits (target Scenario.fresh) ++ new
    ∧ console Older.afterOlderRun
      = before
        ++ [Log (JS.numToString (length (filterCommits Scenario.config all))
                 +:+ " source commits processed.");
            Log (JS.numToString (length new) +:+ " new shadow commits created.");
            Log EmptyString].
Proof.
  apply (older_variant_counts_its_commits Scenario.config (History.exec Scenario.linear)
           Scenario.fresh Older.afterOlderRun).
  vm_compute. reflexivity.
Defined.

Lemma newer_variant_resumes_the_older_witness :
  Ok tt = Ok tt ∧ target Older.afterNewerRun = target Older.afterOlderRun.
Proof.
  apply (newer_variant_resumes_the_older Scenario.config (History.exec Scenario.linear)
           false Scenario.fresh Older.afterOlderRun Older.afterNewerRun (Ok tt)).
  - intros all H. vm_compute in H. inversion H; subst all.
    vm_compute. repeat constructor.
  - vm_compute. repeat constructor.
  - vm_compute. reflexivity.
  - vm_compute. reflexivity.
Defined.

(** ** Failures *)

Section Failures.

Variable config : Config.
Variable source : SourceRepo.





End Failures.



(** ** A run over a whole history *)

Section WholeHistory.

Variable config : Config.




End WholeHistory.

